(** * The Wasm-GC type analysis of Turboshaft
    ([src/compiler/turboshaft/wasm-gc-type-reducer.cc])

    A shallow embedding of [WasmGCTypeAnalyzer]: the alias resolver, the
    narrowing primitives, the per-operation transfer functions, the branch
    refinement, the merge of predecessor snapshots and the loop protocol of
    [Run], followed by the properties of the analysis. *)

From stdpp Require Import gmap list fin_maps fin_sets.

Abbreviation OpIndex := nat (only parsing).
Abbreviation BlockIndex := nat (only parsing).

(** ** The type oracle ([wasm::ValueType], [wasm-subtyping.h])

    The analysis only calls the lattice through the functions below; their
    definitions live in [src/wasm/], so the analyzer is developed over an
    arbitrary implementation of this interface.  The module argument of the
    C++ functions is the analyzer's fixed [module_] and is part of the
    instance. *)
Module wasm.

Class TypeOracle := {
  ValueType : Type;
  ValueType_eq_dec :: EqDecision ValueType;
  (** [wasm::ValueType()], the default value: no type knowledge. *)
  kWasmVoid : ValueType;
  kWasmBottom : ValueType;
  (** [wasm::ValueType::Ref(index)] *)
  Ref : nat → ValueType;
  AsNonNull : ValueType → ValueType;
  is_uninhabited : ValueType → bool;
  is_non_nullable : ValueType → bool;
  (** [wasm::Union(a, b, module_, module_).type] *)
  Union : ValueType → ValueType → ValueType;
  (** [wasm::Intersection(a, b, module_, module_).type] *)
  Intersection : ValueType → ValueType → ValueType;
  (** [wasm::IsSubtypeOf(a, b, module_)] *)
  IsSubtypeOf : ValueType → ValueType → bool;
  (** [wasm::ToNullSentinel({type, module_})] *)
  ToNullSentinel : ValueType → ValueType;
}.

(** Modelled from the spec: [wasm::kWasmInstanceParameterIndex], the index
    of the implicit receiver, which precedes the parameters of the
    signature. *)
Definition kWasmInstanceParameterIndex : nat := 0.

End wasm.

Export wasm.

(** ** The graph

    Modelled from the spec: the graph of blocks and operations ([graph.h],
    [operations.h]) is consumed through the accessors of section 6; blocks
    and values are identified by their index. *)

Section Graph.
Context `{O : TypeOracle}.

(** The operations the analysis distinguishes, with the operands it reads.
    [Other] stands for every opcode of the [default:] arms. *)
Inductive Operation :=
  | WasmTypeCastOp (object : OpIndex) (config_to : ValueType)
  | WasmTypeCheckOp (object : OpIndex) (config_to : ValueType)
  | AssertNotNullOp (object : OpIndex) (type : ValueType)
  | NullOp (type : ValueType)
  | IsNullOp (object : OpIndex) (type : ValueType)
  | ParameterOp (parameter_index : nat)
  | StructGetOp (object : OpIndex) (type : list ValueType) (field_index : nat)
  | StructSetOp (object : OpIndex)
  | ArrayLengthOp (array : OpIndex)
  | GlobalGetOp (global_type : ValueType)
  | WasmRefFuncOp (function_index : nat)
  | WasmAllocateArrayOp (rtt : OpIndex)
  | WasmAllocateStructOp (rtt : OpIndex)
  | RttCanonOp (type_index : nat)
  | PhiOp (inputs : list OpIndex)
  | WasmTypeAnnotationOp (value : OpIndex) (type : ValueType)
  | BranchOp (condition : OpIndex) (if_true if_false : BlockIndex)
  | GotoOp (destination : BlockIndex)
  | Other.

Inductive BlockKind := kMerge | kLoopHeader | kBranchTarget.

(** A block: its kind, its predecessors in their original order (the order
    of the phi inputs) and the indices of its operations in program order. *)
Record Block := {
  index : BlockIndex;
  kind : BlockKind;
  Predecessors : list BlockIndex;
  OperationIndices : list OpIndex;
}.

Record Graph := {
  operations : list Operation;
  blocks : list Block;
}.

(** [graph_.Get(idx)].  An index outside the buffer is not an operation of
    the graph; it reads as [Other]. *)
Definition Get (g : Graph) (idx : OpIndex) : Operation :=
  default Other (operations g !! idx).

Definition GetBlock (g : Graph) (b : BlockIndex) : option Block :=
  blocks g !! b.

Definition IsLoop (b : Block) : bool :=
  match kind b with kLoopHeader => true | _ => false end.

Definition IsBranchTarget (b : Block) : bool :=
  match kind b with kBranchTarget => true | _ => false end.

Definition HasPredecessors (b : Block) : bool :=
  match Predecessors b with [] => false | _ => true end.

(** The predecessors are chained from the last one back to the first:
    [LastPredecessor] is the head of the chain, [NeighboringPredecessor]
    the next link, and [PredecessorsIterable] walks the chain. *)
Definition LastPredecessor (b : Block) : option BlockIndex :=
  last (Predecessors b).

Definition NeighboringPredecessor_of_last (b : Block) : option BlockIndex :=
  last (removelast (Predecessors b)).

Definition PredecessorsIterable (b : Block) : list BlockIndex :=
  reverse (Predecessors b).

(** [block.LastOperation(graph_)] *)
Definition LastOperation (g : Graph) (b : Block) : Operation :=
  match last (OperationIndices b) with
  | Some idx => Get g idx
  | None => Other
  end.

(** *** Alias resolution *)

(** The operand a pass-through operation forwards, [None] for the
    [default:] arm of [ResolveAliases]. *)
Definition pass_through_object (op : Operation) : option OpIndex :=
  match op with
  | WasmTypeCastOp object _ => Some object
  | AssertNotNullOp object _ => Some object
  | WasmTypeAnnotationOp value _ => Some value
  | _ => None
  end.

(** The [while (true)] loop of [ResolveAliases], unrolled [fuel] times;
    [None] when the loop has not returned by then. *)
Fixpoint ResolveAliases_loop (fuel : nat) (g : Graph) (object : OpIndex)
  : option OpIndex :=
  match fuel with
  | 0 => None
  | S fuel' =>
      match pass_through_object (Get g object) with
      | Some object' => ResolveAliases_loop fuel' g object'
      | None => Some object
      end
  end.

(** [WasmGCTypeAnalyzer::ResolveAliases].  Every pass-through operation is
    an entry of the operation buffer, so a chain that ends visits at most
    [length (operations g)] of them before it returns. *)
Definition ResolveAliases (g : Graph) (object : OpIndex) : option OpIndex :=
  ResolveAliases_loop (S (length (operations g))) g object.

(** The chain of pass-through operations from [v] is finite and ends in
    [r]: every value before [r] is produced by a pass-through operation and
    [r] is not. *)
Inductive alias_chain (g : Graph) : OpIndex → OpIndex → Prop :=
  | alias_chain_end v :
      pass_through_object (Get g v) = None → alias_chain g v v
  | alias_chain_step v w r :
      pass_through_object (Get g v) = Some w →
      alias_chain g w r → alias_chain g v r.

(** A chain of exactly [n] pass-through operations from [v] to [r]. *)
Inductive alias_chain_len (g : Graph) : nat → OpIndex → OpIndex → Prop :=
  | alias_chain_len_O v :
      pass_through_object (Get g v) = None → alias_chain_len g 0 v v
  | alias_chain_len_S n v w r :
      pass_through_object (Get g v) = Some w →
      alias_chain_len g n w r → alias_chain_len g (S n) v r.

End Graph.

(** ** The traversal iterator ([AnalyzerIterator])

    [Run] only asks the iterator for the next block and tells it to revisit
    a loop; the iterator itself is defined in [analyzer-iterator.h], so it
    is an interface here. *)
Class AnalyzerIterator := {
  Iterator : Type;
  HasNext : Iterator → bool;
  Next : Iterator → option (BlockIndex * Iterator);
  MarkLoopForRevisitSkipHeader : Iterator → Iterator;
}.

(** ** The snapshot table *)

(** A sealed snapshot: the known type of every operation that has one.  A
    key without an entry reads as [kWasmVoid]. *)
Abbreviation Snapshot := (gmap nat ValueType).

Section SnapshotTable.
Context `{O : TypeOracle}.

Definition snapshot_Get (s : Snapshot) (key : OpIndex) : ValueType :=
  default kWasmVoid (s !! key).

(** Modelled from the spec: the snapshot store of [snapshot-table.h], which
    is not among the sources.  The table has at most one active snapshot;
    [merge_predecessors] are the sealed snapshots the active one was
    started from, which [GetPredecessorValue] reads. *)
Record TypeSnapshotTable := {
  active : option Snapshot;
  merge_predecessors : list Snapshot;
}.

Definition table_is_sealed (t : TypeSnapshotTable) : bool :=
  match active t with None => true | Some _ => false end.

(** Modelled from the spec: [start_empty()], a fresh active snapshot with
    every key unknown. *)
Definition table_StartNewSnapshot_empty (t : TypeSnapshotTable)
  : option TypeSnapshotTable :=
  if table_is_sealed t
  then Some {| active := Some ∅; merge_predecessors := [] |}
  else None.

(** Modelled from the spec: [start_from(parent)], an active snapshot that
    starts as a copy of one sealed snapshot. *)
Definition table_StartNewSnapshot_from (parent : Snapshot)
    (t : TypeSnapshotTable) : option TypeSnapshotTable :=
  if table_is_sealed t
  then Some {| active := Some parent; merge_predecessors := [parent] |}
  else None.

(** The keys a merge computes: those with an entry in some predecessor. *)
Definition merge_keys (predecessors : list Snapshot) : gset nat :=
  ⋃ (dom <$> predecessors).

(** Modelled from the spec: [start_merge(predecessors, merge_fn)].  The
    value of each key is [merge_fn] applied to the vector of the
    predecessors' values for that key, an absent key reading as unknown.
    The callback is a closure over mutable state of its caller, threaded
    here as the accumulator [a]. *)
Definition table_StartNewSnapshot_merge {A : Type}
    (predecessors : list Snapshot)
    (merge_fun : OpIndex → list ValueType → A → ValueType * A)
    (a : A) (t : TypeSnapshotTable) : option (A * TypeSnapshotTable) :=
  if table_is_sealed t then
    let '(m, a') :=
      foldr (λ key '(m, a),
               let '(value, a') :=
                 merge_fun key ((λ p, snapshot_Get p key) <$> predecessors) a in
               (<[key := value]> m, a'))
            (∅, a) (elements (merge_keys predecessors)) in
    Some (a', {| active := Some m; merge_predecessors := predecessors |})
  else None.

(** Modelled from the spec: [get(key)] on the active snapshot. *)
Definition table_Get (key : OpIndex) (t : TypeSnapshotTable)
  : option ValueType :=
  s ← active t; Some (snapshot_Get s key).

(** Modelled from the spec: [set(key, value)] on the active snapshot. *)
Definition table_Set (key : OpIndex) (value : ValueType)
    (t : TypeSnapshotTable) : option TypeSnapshotTable :=
  s ← active t;
  Some {| active := Some (<[key := value]> s);
          merge_predecessors := merge_predecessors t |}.

(** Modelled from the spec: the type predecessor [i] of the active
    snapshot contributes for [key]. *)
Definition table_GetPredecessorValue (key : OpIndex) (i : nat)
    (t : TypeSnapshotTable) : option ValueType :=
  _ ← active t;
  p ← merge_predecessors t !! i;
  Some (snapshot_Get p key).

(** Modelled from the spec: [seal()] returns the active snapshot and leaves
    the table without one. *)
Definition table_Seal (t : TypeSnapshotTable)
  : option (Snapshot * TypeSnapshotTable) :=
  s ← active t;
  Some (s, {| active := None; merge_predecessors := [] |}).

End SnapshotTable.

(** ** The analyzer *)

Section Analyzer.
Context `{O : TypeOracle} `{I : AnalyzerIterator}.

(** The mutable members of [WasmGCTypeAnalyzer], and the iterator that is
    local to [Run]. *)
Record State := {
  types_table_ : TypeSnapshotTable;
  block_to_snapshot_ : gmap nat Snapshot;
  block_is_unreachable_ : gset nat;
  input_type_map_ : gmap nat ValueType;
  is_first_loop_header_evaluation_ : bool;
  current_block_ : option BlockIndex;
  iterator : Iterator;
}.

(** The members fixed at construction. *)
Variable graph_ : Graph.
Variable signature_ : list ValueType.
(** [module_->functions[i].sig_index] *)
Variable module_functions_sig_index : list nat.

(** *** State and failure

    A computation reads and writes the analyzer and may fail.  The [DCHECK]s
    are compiled out of a release build and are not modelled; a computation
    fails where the C++ has no defined result: [value()] of an empty
    optional, [current_block_] dereferenced while null, a [Cast] to another
    operation, a block or input that does not exist, a table accessed
    without an active snapshot, an alias chain that never ends. *)
Definition M (A : Type) : Type := State → option (A * State).

Definition ret {A} (a : A) : M A := λ s, Some (a, s).

Definition bind {A B} (m : M A) (k : A → M B) : M B :=
  λ s, match m s with
       | Some (a, s') => k a s'
       | None => None
       end.

Definition fail {A} : M A := λ _, None.

Definition gets {A} (f : State → A) : M A := λ s, Some (f s, s).

Definition modify (f : State → State) : M unit := λ s, Some (tt, f s).

Definition optional_value {A} (o : option A) : M A :=
  match o with Some a => ret a | None => fail end.

Notation "'do' x <- m ; k" := (bind m (λ x, k))
  (at level 10, x name, m at level 100, k at level 200).
Notation "'do' ' p <- m ; k" := (bind m (λ p, k))
  (at level 10, p strict pattern, m at level 100, k at level 200).
Notation "m ;;; k" := (bind m (λ _, k))
  (at level 100, k at level 200, right associativity).

(** A computation that leaves alone what only [Run] itself changes: the
    iterator and the recorded snapshots. *)
Definition preserves_driver_state {A} (c : M A) : Prop :=
  ∀ s a s', c s = Some (a, s') →
    iterator s' = iterator s ∧ block_to_snapshot_ s' = block_to_snapshot_ s.

Definition set_types_table (t : TypeSnapshotTable) (s : State) : State :=
  {| types_table_ := t;
     block_to_snapshot_ := block_to_snapshot_ s;
     block_is_unreachable_ := block_is_unreachable_ s;
     input_type_map_ := input_type_map_ s;
     is_first_loop_header_evaluation_ := is_first_loop_header_evaluation_ s;
     current_block_ := current_block_ s;
     iterator := iterator s |}.

Definition set_block_to_snapshot (m : gmap nat Snapshot) (s : State) : State :=
  {| types_table_ := types_table_ s;
     block_to_snapshot_ := m;
     block_is_unreachable_ := block_is_unreachable_ s;
     input_type_map_ := input_type_map_ s;
     is_first_loop_header_evaluation_ := is_first_loop_header_evaluation_ s;
     current_block_ := current_block_ s;
     iterator := iterator s |}.

Definition set_block_is_unreachable (u : gset nat) (s : State) : State :=
  {| types_table_ := types_table_ s;
     block_to_snapshot_ := block_to_snapshot_ s;
     block_is_unreachable_ := u;
     input_type_map_ := input_type_map_ s;
     is_first_loop_header_evaluation_ := is_first_loop_header_evaluation_ s;
     current_block_ := current_block_ s;
     iterator := iterator s |}.

Definition set_input_type_map (m : gmap nat ValueType) (s : State) : State :=
  {| types_table_ := types_table_ s;
     block_to_snapshot_ := block_to_snapshot_ s;
     block_is_unreachable_ := block_is_unreachable_ s;
     input_type_map_ := m;
     is_first_loop_header_evaluation_ := is_first_loop_header_evaluation_ s;
     current_block_ := current_block_ s;
     iterator := iterator s |}.

Definition set_is_first_loop_header_evaluation (b : bool) (s : State) : State :=
  {| types_table_ := types_table_ s;
     block_to_snapshot_ := block_to_snapshot_ s;
     block_is_unreachable_ := block_is_unreachable_ s;
     input_type_map_ := input_type_map_ s;
     is_first_loop_header_evaluation_ := b;
     current_block_ := current_block_ s;
     iterator := iterator s |}.

Definition set_current_block (b : option BlockIndex) (s : State) : State :=
  {| types_table_ := types_table_ s;
     block_to_snapshot_ := block_to_snapshot_ s;
     block_is_unreachable_ := block_is_unreachable_ s;
     input_type_map_ := input_type_map_ s;
     is_first_loop_header_evaluation_ := is_first_loop_header_evaluation_ s;
     current_block_ := b;
     iterator := iterator s |}.

Definition set_iterator (it : Iterator) (s : State) : State :=
  {| types_table_ := types_table_ s;
     block_to_snapshot_ := block_to_snapshot_ s;
     block_is_unreachable_ := block_is_unreachable_ s;
     input_type_map_ := input_type_map_ s;
     is_first_loop_header_evaluation_ := is_first_loop_header_evaluation_ s;
     current_block_ := current_block_ s;
     iterator := it |}.

(** *** The members as computations *)

(** Runs a table operation that may fail and replaces the table. *)
Definition with_table (f : TypeSnapshotTable → option TypeSnapshotTable)
  : M unit :=
  λ s, match f (types_table_ s) with
       | Some t => Some (tt, set_types_table t s)
       | None => None
       end.

Definition types_table_Get (key : OpIndex) : M ValueType :=
  do t <- gets types_table_; optional_value (table_Get key t).

Definition types_table_Set (key : OpIndex) (v : ValueType) : M unit :=
  with_table (table_Set key v).

Definition types_table_GetPredecessorValue (key : OpIndex) (i : nat)
  : M ValueType :=
  do t <- gets types_table_; optional_value (table_GetPredecessorValue key i t).

Definition types_table_Seal : M Snapshot :=
  do t <- gets types_table_;
  do '(snapshot, t') <- optional_value (table_Seal t);
  modify (set_types_table t') ;;;
  ret snapshot.

Definition block_is_unreachable_Add (id : BlockIndex) : M unit :=
  modify (λ s, set_block_is_unreachable ({[id]} ∪ block_is_unreachable_ s) s).

Definition block_is_unreachable_Remove (id : BlockIndex) : M unit :=
  modify (λ s, set_block_is_unreachable (block_is_unreachable_ s ∖ {[id]}) s).

Definition record_snapshot (id : BlockIndex) (snapshot : Snapshot) : M unit :=
  modify (λ s, set_block_to_snapshot (<[id := snapshot]> (block_to_snapshot_ s)) s).

Definition record_input_type (idx : OpIndex) (t : ValueType) : M unit :=
  modify (λ s, set_input_type_map (<[idx := t]> (input_type_map_ s)) s).

(** [WasmGCTypeAnalyzer::IsReachable] *)
Definition IsReachable (s : State) (block : BlockIndex) : bool :=
  bool_decide (block ∉ block_is_unreachable_ s).

(** [WasmGCTypeAnalyzer::GetResolvedType] *)
Definition GetResolvedType (object : OpIndex) : M ValueType :=
  do object <- optional_value (ResolveAliases graph_ object);
  types_table_Get object.

(** [WasmGCTypeAnalyzer::RefineTypeKnowledge] *)
Definition RefineTypeKnowledge (object : OpIndex) (new_type : ValueType)
  : M ValueType :=
  do object <- optional_value (ResolveAliases graph_ object);
  do previous_value <- types_table_Get object;
  let intersection_type :=
    if decide (previous_value = kWasmVoid) then new_type
    else Intersection previous_value new_type in
  (if is_uninhabited intersection_type
   then do current <- gets current_block_;
        do current <- optional_value current;
        block_is_unreachable_Add current
   else ret tt) ;;;
  types_table_Set object intersection_type ;;;
  ret previous_value.

(** [WasmGCTypeAnalyzer::RefineTypeKnowledgeNotNull] *)
Definition RefineTypeKnowledgeNotNull (object : OpIndex) : M ValueType :=
  do object <- optional_value (ResolveAliases graph_ object);
  do previous_value <- types_table_Get object;
  (if is_uninhabited previous_value
   then do current <- gets current_block_;
        do current <- optional_value current;
        block_is_unreachable_Add current
   else ret tt) ;;;
  types_table_Set object (AsNonNull previous_value) ;;;
  ret previous_value.

(** The type [RefineTypeKnowledge] stores: the intersection of the previous
    and the new type, the new type when nothing was known. *)
Definition refine_intersection (previous_value new_type : ValueType)
  : ValueType :=
  if decide (previous_value = kWasmVoid) then new_type
  else Intersection previous_value new_type.

(** The analyzer after a narrowing of key [r] in the active snapshot [m]:
    [r] holds [stored], and block [cur] is marked when [mark] is set. *)
Definition refined_state (r : OpIndex) (stored : ValueType) (mark : bool)
    (cur : BlockIndex) (m : Snapshot) (s : State) : State :=
  set_types_table
    {| active := Some (<[r := stored]> m);
       merge_predecessors := merge_predecessors (types_table_ s) |}
    (if mark
     then set_block_is_unreachable ({[cur]} ∪ block_is_unreachable_ s) s
     else s).

(** *** Transfer functions

    Each takes the index of its operation ([graph_.Index(op)]) and the
    operands it reads. *)

Definition ProcessTypeCast (idx object : OpIndex) (target_type : ValueType)
  : M unit :=
  do known_input_type <- RefineTypeKnowledge object target_type;
  record_input_type idx known_input_type.

Definition ProcessTypeCheck (idx object : OpIndex) : M unit :=
  do type <- GetResolvedType object;
  record_input_type idx type.

Definition ProcessAssertNotNull (idx object : OpIndex) (type : ValueType)
  : M unit :=
  let new_type := AsNonNull type in
  do known_input_type <- RefineTypeKnowledge object new_type;
  record_input_type idx known_input_type.

Definition ProcessIsNull (idx object : OpIndex) : M unit :=
  do type <- GetResolvedType object;
  record_input_type idx type.

Definition ProcessParameter (idx : OpIndex) (parameter_index : nat) : M unit :=
  if decide (parameter_index ≠ kWasmInstanceParameterIndex) then
    do param <- optional_value (signature_ !! (parameter_index - 1));
    RefineTypeKnowledge idx param ;;; ret tt
  else ret tt.

Definition ProcessStructGet (idx object : OpIndex) (struct_type : list ValueType)
    (field_index : nat) : M unit :=
  do type <- RefineTypeKnowledgeNotNull object;
  record_input_type idx type ;;;
  do field <- optional_value (struct_type !! field_index);
  RefineTypeKnowledge idx field ;;; ret tt.

Definition ProcessStructSet (idx object : OpIndex) : M unit :=
  do type <- RefineTypeKnowledgeNotNull object;
  record_input_type idx type.

Definition ProcessArrayLength (idx array : OpIndex) : M unit :=
  do type <- RefineTypeKnowledgeNotNull array;
  record_input_type idx type.

Definition ProcessGlobalGet (idx : OpIndex) (global_type : ValueType) : M unit :=
  RefineTypeKnowledge idx global_type ;;; ret tt.

Definition ProcessRefFunc (idx : OpIndex) (function_index : nat) : M unit :=
  do sig_index <- optional_value (module_functions_sig_index !! function_index);
  RefineTypeKnowledge idx (Ref sig_index) ;;; ret tt.

(** [graph_.Get(rtt).Cast<RttCanonOp>().type_index] *)
Definition rtt_type_index (rtt : OpIndex) : M nat :=
  match Get graph_ rtt with
  | RttCanonOp type_index => ret type_index
  | _ => fail
  end.

Definition ProcessAllocateArray (idx rtt : OpIndex) : M unit :=
  do type_index <- rtt_type_index rtt;
  RefineTypeKnowledge idx (Ref type_index) ;;; ret tt.

Definition ProcessAllocateStruct (idx rtt : OpIndex) : M unit :=
  do type_index <- rtt_type_index rtt;
  RefineTypeKnowledge idx (Ref type_index) ;;; ret tt.

(** The [for] loop of [ProcessPhi] from input [i] on, with the running
    [union_type]: [None] is the [return] taken at an input without type
    knowledge, [Some] the union the loop ends with. *)
Fixpoint ProcessPhi_loop (inputs : list OpIndex) (i : nat)
    (union_type : ValueType) : M (option ValueType) :=
  match inputs with
  | [] => ret (Some union_type)
  | input :: inputs' =>
      do resolved <- optional_value (ResolveAliases graph_ input);
      do input_type <- types_table_GetPredecessorValue resolved i;
      if decide (input_type = kWasmVoid) then ret None
      else if decide (input_type = kWasmBottom)
      then ProcessPhi_loop inputs' (S i) union_type
      else if decide (union_type = kWasmBottom)
      then ProcessPhi_loop inputs' (S i) input_type
      else ProcessPhi_loop inputs' (S i) (Union union_type input_type)
  end.

Definition ProcessPhi (idx : OpIndex) (inputs : list OpIndex) : M unit :=
  match inputs with
  | [] => fail
  | input0 :: inputs' =>
      do first_evaluation <- gets is_first_loop_header_evaluation_;
      if first_evaluation then
        do type <- GetResolvedType input0;
        RefineTypeKnowledge idx type ;;; ret tt
      else
        do resolved <- optional_value (ResolveAliases graph_ input0);
        do union_type <- types_table_GetPredecessorValue resolved 0;
        if decide (union_type = kWasmVoid) then ret tt
        else
          do result <- ProcessPhi_loop inputs' 1 union_type;
          match result with
          | None => ret tt
          | Some union_type => RefineTypeKnowledge idx union_type ;;; ret tt
          end
  end.

Definition ProcessTypeAnnotation (value : OpIndex) (type : ValueType) : M unit :=
  RefineTypeKnowledge value type ;;; ret tt.

Definition ProcessNull (idx : OpIndex) (type : ValueType) : M unit :=
  let null_type := ToNullSentinel type in
  RefineTypeKnowledge idx null_type ;;; ret tt.

(** [WasmGCTypeAnalyzer::ProcessBranchOnTarget], for the branch
    [Branch(condition, if_true, if_false)] that ends the predecessor of
    [target]. *)
Definition ProcessBranchOnTarget (condition : OpIndex)
    (if_true if_false : BlockIndex) (target : Block) : M unit :=
  match Get graph_ condition with
  | WasmTypeCheckOp object config_to =>
      if decide (if_true = index target) then
        RefineTypeKnowledge object config_to ;;; ret tt
      else
        do type <- GetResolvedType object;
        if IsSubtypeOf type config_to
        then block_is_unreachable_Add (index target)
        else ret tt
  | IsNullOp object type =>
      if decide (if_true = index target) then
        do known <- GetResolvedType object;
        if is_non_nullable known
        then block_is_unreachable_Add (index target)
        else RefineTypeKnowledge object (ToNullSentinel type) ;;; ret tt
      else
        RefineTypeKnowledge object (AsNonNull type) ;;; ret tt
  | _ => ret tt
  end.

(** The types the predecessors of the active snapshot contribute to the
    inputs of a phi: for input [i], counted from [i], the type of the
    resolved input in predecessor [i]. *)
Fixpoint phi_contributed_types (t : TypeSnapshotTable) (inputs : list OpIndex)
    (i : nat) : option (list ValueType) :=
  match inputs with
  | [] => Some []
  | input :: inputs' =>
      resolved ← ResolveAliases graph_ input;
      type ← table_GetPredecessorValue resolved i t;
      types ← phi_contributed_types t inputs' (S i);
      Some (type :: types)
  end.

(** One step of the union of a phi: a bottom accumulator contributes
    nothing, as a bottom input does. *)
Definition phi_accumulate (union_type input_type : ValueType) : ValueType :=
  if decide (union_type = kWasmBottom) then input_type
  else Union union_type input_type.

(** The merge of a phi as the spec words it: no result ([None]) when some
    contributed type is unknown; otherwise start from the type predecessor 0
    contributes, skip every later type that is bottom and accumulate the
    others by union. *)
Definition phi_union (types : list ValueType) : option ValueType :=
  match types with
  | [] => None
  | first :: rest =>
      if decide (kWasmVoid ∈ types) then None
      else Some (foldl phi_accumulate first
                   (filter (λ t, t ≠ kWasmBottom) rest))
  end.

(** The dispatch of [ProcessOperations] on one operation. *)
Definition ProcessOperation (op_idx : OpIndex) : M unit :=
  match Get graph_ op_idx with
  | WasmTypeCastOp object config_to => ProcessTypeCast op_idx object config_to
  | WasmTypeCheckOp object _ => ProcessTypeCheck op_idx object
  | AssertNotNullOp object type => ProcessAssertNotNull op_idx object type
  | NullOp type => ProcessNull op_idx type
  | IsNullOp object _ => ProcessIsNull op_idx object
  | ParameterOp parameter_index => ProcessParameter op_idx parameter_index
  | StructGetOp object type field_index =>
      ProcessStructGet op_idx object type field_index
  | StructSetOp object => ProcessStructSet op_idx object
  | ArrayLengthOp array => ProcessArrayLength op_idx array
  | GlobalGetOp global_type => ProcessGlobalGet op_idx global_type
  | WasmRefFuncOp function_index => ProcessRefFunc op_idx function_index
  | WasmAllocateArrayOp rtt => ProcessAllocateArray op_idx rtt
  | WasmAllocateStructOp rtt => ProcessAllocateStruct op_idx rtt
  | PhiOp inputs => ProcessPhi op_idx inputs
  | WasmTypeAnnotationOp value type => ProcessTypeAnnotation value type
  | BranchOp _ _ _ | RttCanonOp _ | GotoOp _ | Other => ret tt
  end.

Fixpoint ProcessOperations_loop (op_indices : list OpIndex) : M unit :=
  match op_indices with
  | [] => ret tt
  | op_idx :: rest => ProcessOperation op_idx ;;; ProcessOperations_loop rest
  end.

(** [WasmGCTypeAnalyzer::ProcessOperations] *)
Definition ProcessOperations (block : Block) : M unit :=
  ProcessOperations_loop (OperationIndices block).

(** *** Merging predecessor snapshots *)

(** The first loop of the merge callback: the type of the first reachable
    predecessor that is not bottom, and the predecessors after it (the
    position of [i] when the loop is left); [kWasmBottom] and nothing left
    when there is none.  The two vectors are walked in step. *)
Fixpoint merge_first (l : list (bool * ValueType))
  : ValueType * list (bool * ValueType) :=
  match l with
  | [] => (kWasmBottom, [])
  | (reachable_i, predecessor_i) :: l' =>
      if reachable_i && bool_decide (predecessor_i ≠ kWasmBottom)
      then (predecessor_i, l')
      else merge_first l'
  end.

(** The second loop of the merge callback over the remaining predecessors,
    with the running [res] and [types_are_equivalent]. *)
Fixpoint merge_rest (first : ValueType) (l : list (bool * ValueType))
    (res : ValueType) (types_are_equivalent : bool) : ValueType * bool :=
  match l with
  | [] => (res, types_are_equivalent)
  | (reachable_i, type) :: l' =>
      if negb reachable_i then merge_rest first l' res types_are_equivalent
      else if decide (type = kWasmBottom)
      then merge_rest first l' res types_are_equivalent
      else
        let types_are_equivalent :=
          types_are_equivalent && bool_decide (first = type) in
        if decide (res = kWasmVoid ∨ type = kWasmVoid)
        then merge_rest first l' kWasmVoid types_are_equivalent
        else merge_rest first l' (Union res type) types_are_equivalent
  end.

(** The callback [CreateMergeSnapshot] passes to the table.  It captures
    [reachable] by value and [types_are_equivalent] by reference. *)
Definition merge_callback (reachable : list bool) (key : OpIndex)
    (predecessors : list ValueType) (types_are_equivalent : bool)
  : ValueType * bool :=
  let '(first, rest) := merge_first (zip reachable predecessors) in
  merge_rest first rest first types_are_equivalent.

(** The types that take part in the merge of one key: those of the
    reachable predecessors that are not bottom, in the order of the
    predecessors. *)
Definition merge_live (l : list (bool * ValueType)) : list ValueType :=
  (filter (λ p, p.1 = true ∧ p.2 ≠ kWasmBottom) l).*2.

(** One step of the union of the merge callback: no type knowledge on
    either side leaves none. *)
Definition merge_accumulate (res type : ValueType) : ValueType :=
  if decide (res = kWasmVoid ∨ type = kWasmVoid) then kWasmVoid
  else Union res type.

(** The union of the types that take part, bottom when there are none. *)
Definition merge_union (live : list ValueType) : ValueType :=
  match live with
  | [] => kWasmBottom
  | first :: rest => foldl merge_accumulate first rest
  end.

(** The types the predecessors hold for [key], each with the reachability
    of its predecessor. *)
Definition merge_inputs (predecessors : list Snapshot) (reachable : list bool)
    (key : OpIndex) : list (bool * ValueType) :=
  zip reachable ((λ p, snapshot_Get p key) <$> predecessors).

(** The snapshot a merge starts: for every key of the merge, the union of
    the types that take part. *)
Definition merged_snapshot (predecessors : list Snapshot)
    (reachable : list bool) : Snapshot :=
  list_to_map
    ((λ key, (key, merge_union
                     (merge_live (merge_inputs predecessors reachable key))))
       <$> elements (merge_keys predecessors)).

(** The types that take part in the merge of [key] are all the same. *)
Definition key_equivalent (predecessors : list Snapshot)
    (reachable : list bool) (key : OpIndex) : bool :=
  match merge_live (merge_inputs predecessors reachable key) with
  | [] => true
  | first :: rest => forallb (λ t, bool_decide (first = t)) rest
  end.

(** [WasmGCTypeAnalyzer::CreateMergeSnapshot(predecessors, reachable)] *)
Definition CreateMergeSnapshot (predecessors : list Snapshot)
    (reachable : list bool) : M bool :=
  do t <- gets types_table_;
  do '(types_are_equivalent, t') <-
    optional_value
      (table_StartNewSnapshot_merge predecessors (merge_callback reachable)
         true t);
  modify (set_types_table t') ;;;
  ret (negb types_are_equivalent).

(** The loop of [CreateMergeSnapshot(block)] that collects the snapshot and
    the reachability of each predecessor, in the order of the iteration. *)
Fixpoint collect_predecessors (predecessors : list BlockIndex)
  : M (list Snapshot * list bool) :=
  match predecessors with
  | [] => ret ([], [])
  | predecessor :: rest =>
      do maybe_snapshot <- gets (λ s, block_to_snapshot_ s !! predecessor);
      do snapshot <- optional_value maybe_snapshot;
      do reachable <- gets (λ s, IsReachable s predecessor);
      do '(snapshots, reachables) <- collect_predecessors rest;
      ret (snapshot :: snapshots, reachable :: reachables)
  end.

(** What [CreateMergeSnapshot(block)] collects for one predecessor: its
    reachability and its snapshot. *)
Definition predecessor_input (s : State) (predecessor : BlockIndex)
  : bool * Snapshot :=
  (IsReachable s predecessor,
   default ∅ (block_to_snapshot_ s !! predecessor)).

(** [WasmGCTypeAnalyzer::CreateMergeSnapshot(block)] *)
Definition CreateMergeSnapshot_block (block : Block) : M unit :=
  do '(snapshots, reachable) <-
    collect_predecessors (PredecessorsIterable block);
  let snapshots := reverse snapshots in
  let reachable := reverse reachable in
  CreateMergeSnapshot snapshots reachable ;;; ret tt.

(** *** The driver *)

(** [WasmGCTypeAnalyzer::StartNewSnapshotFor] *)
Definition StartNewSnapshotFor (block : Block) : M unit :=
  modify (set_is_first_loop_header_evaluation false) ;;;
  block_is_unreachable_Remove (index block) ;;;
  if negb (HasPredecessors block) then
    with_table table_StartNewSnapshot_empty
  else if IsLoop block then
    do last_predecessor <- optional_value (LastPredecessor block);
    do back_edge_snap <- gets (λ s, block_to_snapshot_ s !! last_predecessor);
    match back_edge_snap with
    | Some _ => CreateMergeSnapshot_block block
    | None =>
        modify (set_is_first_loop_header_evaluation true) ;;;
        do forward <- optional_value (NeighboringPredecessor_of_last block);
        do maybe_snapshot <- gets (λ s, block_to_snapshot_ s !! forward);
        do forward_edge_snap <- optional_value maybe_snapshot;
        with_table (table_StartNewSnapshot_from forward_edge_snap)
    end
  else if IsBranchTarget block then
    do last_predecessor <- optional_value (LastPredecessor block);
    do maybe_snapshot <- gets (λ s, block_to_snapshot_ s !! last_predecessor);
    do snapshot <- optional_value maybe_snapshot;
    with_table (table_StartNewSnapshot_from snapshot) ;;;
    do predecessor0 <- optional_value (Predecessors block !! 0);
    do predecessor <- optional_value (GetBlock graph_ predecessor0);
    match LastOperation graph_ predecessor with
    | BranchOp condition if_true if_false =>
        ProcessBranchOnTarget condition if_true if_false block
    | _ => ret tt
    end
  else
    CreateMergeSnapshot_block block.

(** The analyzer after the resets at the head of [StartNewSnapshotFor]. *)
Definition reset_state (block : Block) (s : State) : State :=
  set_block_is_unreachable (block_is_unreachable_ s ∖ {[index block]})
    (set_is_first_loop_header_evaluation false s).

(** The analyzer once [StartNewSnapshotFor] has started the snapshot of a
    block with the single predecessor snapshot [snapshot]. *)
Definition seeded_state (block : Block) (snapshot : Snapshot) (s : State)
  : State :=
  set_types_table
    {| active := Some snapshot; merge_predecessors := [snapshot] |}
    (set_block_is_unreachable (block_is_unreachable_ s ∖ {[index block]})
       (set_is_first_loop_header_evaluation false s)).

(** [WasmGCTypeAnalyzer::ProcessBlock] *)
Definition ProcessBlock (block : Block) : M unit :=
  modify (set_current_block (Some (index block))) ;;;
  StartNewSnapshotFor block ;;;
  ProcessOperations block ;;;
  modify (set_current_block None).

(** Two snapshots of a loop header are told apart by the merge of the two:
    some key has a type in each, neither bottom, and the two differ. *)
Definition snapshots_conflict (old_snapshot snapshot : Snapshot) : Prop :=
  ∃ key,
    snapshot_Get old_snapshot key ≠ kWasmBottom ∧
    snapshot_Get snapshot key ≠ kWasmBottom ∧
    snapshot_Get old_snapshot key ≠ snapshot_Get snapshot key.

(** The re-processing of a loop header in [Run], entered once the block
    that closes the loop has been processed. *)
Definition ReprocessLoopHeader (loop_header : Block) : M unit :=
  ProcessBlock loop_header ;;;
  do maybe_old <- gets (λ s, block_to_snapshot_ s !! index loop_header);
  do old_snapshot <- optional_value maybe_old;
  do snapshot <- types_table_Seal;
  do needs_revisit <-
    CreateMergeSnapshot [old_snapshot; snapshot] [true; true];
  types_table_Seal ;;;
  if (needs_revisit : bool) then
    record_snapshot (index loop_header) snapshot ;;;
    modify (λ s, set_iterator (MarkLoopForRevisitSkipHeader (iterator s)) s)
  else ret tt.

(** "Consider re-processing for loops": the [if] at the end of the body of
    the loop of [Run]. *)
Definition ConsiderLoopReprocessing (block : Block) : M unit :=
  match LastOperation graph_ block with
  | GotoOp destination =>
      do reachable <- gets (λ s, IsReachable s (index block));
      if (reachable : bool) then
        do loop_header <- optional_value (GetBlock graph_ destination);
        if IsLoop loop_header
           && bool_decide (LastPredecessor loop_header = Some (index block))
        then ReprocessLoopHeader loop_header
        else ret tt
      else ret tt
  | _ => ret tt
  end.

(** The first part of the body of the loop of [Run]: the block is
    processed and its snapshot finished and recorded. *)
Definition ProcessAndSeal (block : Block) : M unit :=
  ProcessBlock block ;;;
  do snapshot <- types_table_Seal;
  record_snapshot (index block) snapshot.

(** The body of the [while] loop of [Run] for the block the iterator
    returned. *)
Definition Run_body (block : Block) : M unit :=
  ProcessAndSeal block ;;;
  ConsiderLoopReprocessing block.

(** [iterator.Next()] *)
Definition iterator_Next : M Block :=
  do it <- gets iterator;
  do '(b, it') <- optional_value (Next it);
  modify (set_iterator it') ;;;
  optional_value (GetBlock graph_ b).

(** One turn of the [while] loop of [Run]. *)
Definition Run_iteration : M unit :=
  do block <- iterator_Next;
  Run_body block.

(** The [while] loop of [Run], unrolled [fuel] times. *)
Fixpoint Run_loop (fuel : nat) : M unit :=
  match fuel with
  | 0 => fail
  | S fuel' =>
      do it <- gets iterator;
      if HasNext it then
        Run_iteration ;;;
        Run_loop fuel'
      else ret tt
  end.

(** [WasmGCTypeAnalyzer::Run], for the iterator [Run] constructs. *)
Definition Run (fuel : nat) (analyzer_iterator : Iterator) : M unit :=
  modify (set_iterator analyzer_iterator) ;;;
  Run_loop fuel.

End Analyzer.

(** ** A type oracle over the generic reference types

    Modelled from the spec: the lattice of section 4.2, for the reference
    types of the [any] hierarchy.  [kVoid] is [ValueType()], the value
    without type knowledge. *)

Module WasmTypes.

(** The heap types of the [any] hierarchy, and the two types a small module
    defines: struct type 0 and array type 1. *)
Inductive HeapType :=
  kAny | kEq | kI31 | kStruct | kArray | kNone | kType0 | kType1.

Inductive VT :=
  | kVoid
  | kBottom
  | kRef (heap_type : HeapType)
  | kRefNull (heap_type : HeapType).

#[export] Instance HeapType_eq_dec : EqDecision HeapType.
Proof. solve_decision. Defined.

#[export] Instance VT_eq_dec : EqDecision VT.
Proof. solve_decision. Defined.

(** The declared supertypes of a heap type, nearest first. *)
Definition supertypes (h : HeapType) : list HeapType :=
  match h with
  | kAny => []
  | kEq => [kAny]
  | kI31 | kStruct | kArray => [kEq; kAny]
  | kType0 => [kStruct; kEq; kAny]
  | kType1 => [kArray; kEq; kAny]
  | kNone => [kType0; kType1; kI31; kStruct; kArray; kEq; kAny]
  end.

Definition IsHeapSubtypeOf (sub super : HeapType) : bool :=
  bool_decide (sub = super) || bool_decide (super ∈ supertypes sub).

(** The nearest common supertype of two heap types. *)
Definition heap_union (h1 h2 : HeapType) : HeapType :=
  if IsHeapSubtypeOf h1 h2 then h2
  else if IsHeapSubtypeOf h2 h1 then h1
  else default kAny (head (filter (λ h, IsHeapSubtypeOf h2 h) (supertypes h1))).

(** The widest common subtype of two heap types. *)
Definition heap_intersection (h1 h2 : HeapType) : HeapType :=
  if IsHeapSubtypeOf h1 h2 then h1
  else if IsHeapSubtypeOf h2 h1 then h2
  else kNone.

(** Modelled from the spec: [is_uninhabited(t)], for bottom and for the
    non-null reference to the null type. *)
Definition is_uninhabited (t : VT) : bool :=
  match t with
  | kBottom | kRef kNone => true
  | _ => false
  end.

Definition is_non_nullable (t : VT) : bool :=
  match t with kRef _ => true | _ => false end.

(** Modelled from the spec: [as_non_null(t)]. *)
Definition AsNonNull (t : VT) : VT :=
  match t with kRefNull h => kRef h | _ => t end.

(** Modelled from the spec: [union(a, b)], the nearest common supertype;
    bottom is below every type and a value without type knowledge stays
    without. *)
Definition Union (t1 t2 : VT) : VT :=
  match t1, t2 with
  | kVoid, _ | _, kVoid => kVoid
  | kBottom, t | t, kBottom => t
  | kRef h1, kRef h2 => kRef (heap_union h1 h2)
  | kRef h1, kRefNull h2 | kRefNull h1, kRef h2 | kRefNull h1, kRefNull h2 =>
      kRefNull (heap_union h1 h2)
  end.

(** Modelled from the spec: [intersect(a, b)], the most specific type
    consistent with both, bottom if they are disjoint, and
    [intersect(unknown, t) = t]. *)
Definition Intersection (t1 t2 : VT) : VT :=
  match t1, t2 with
  | kVoid, t | t, kVoid => t
  | kBottom, _ | _, kBottom => kBottom
  | kRefNull h1, kRefNull h2 => kRefNull (heap_intersection h1 h2)
  | kRef h1, kRef h2 | kRef h1, kRefNull h2 | kRefNull h1, kRef h2 =>
      let h := heap_intersection h1 h2 in
      if decide (h = kNone) then kBottom else kRef h
  end.

(** Modelled from the spec: [is_subtype(a, b)]. *)
Definition IsSubtypeOf (t1 t2 : VT) : bool :=
  match t1, t2 with
  | kBottom, _ => true
  | kVoid, kVoid => true
  | kRef h1, kRef h2 | kRef h1, kRefNull h2 | kRefNull h1, kRefNull h2 =>
      IsHeapSubtypeOf h1 h2
  | _, _ => false
  end.

(** Modelled from the spec: [null_sentinel(t)]; the one hierarchy here has
    the one null type. *)
Definition ToNullSentinel (t : VT) : VT := kRefNull kNone.

(** Modelled from the spec: [ValueType::Ref(index)], the non-null
    reference to a type of the module, which defines two. *)
Definition Ref (type_index : nat) : VT :=
  match type_index with
  | 0 => kRef kType0
  | 1 => kRef kType1
  | _ => kBottom
  end.

Definition oracle : TypeOracle := {|
  wasm.ValueType := VT;
  wasm.kWasmVoid := kVoid;
  wasm.kWasmBottom := kBottom;
  wasm.Ref := Ref;
  wasm.AsNonNull := AsNonNull;
  wasm.is_uninhabited := is_uninhabited;
  wasm.is_non_nullable := is_non_nullable;
  wasm.Union := Union;
  wasm.Intersection := Intersection;
  wasm.IsSubtypeOf := IsSubtypeOf;
  wasm.ToNullSentinel := ToNullSentinel;
|}.

End WasmTypes.

(** ** A traversal over a graph with one loop

    Modelled from the spec: an iterator that yields the pending blocks in
    order and, when a loop is marked for revisit, schedules the blocks of
    the loop body again without its header. *)
Module LoopIterator.

Record T := {
  pending : list BlockIndex;
  loop_body : list BlockIndex;
}.

Definition HasNext (it : T) : bool :=
  match pending it with [] => false | _ => true end.

Definition Next (it : T) : option (BlockIndex * T) :=
  match pending it with
  | [] => None
  | b :: rest => Some (b, {| pending := rest; loop_body := loop_body it |})
  end.

Definition MarkLoopForRevisitSkipHeader (it : T) : T :=
  {| pending := loop_body it ++ pending it; loop_body := loop_body it |}.

Definition iterator : AnalyzerIterator :=
  Build_AnalyzerIterator T HasNext Next MarkLoopForRevisitSkipHeader.

End LoopIterator.

(** ** Example graphs *)

Module Examples.
Import WasmTypes.

#[local] Existing Instance WasmTypes.oracle.
#[local] Existing Instance LoopIterator.iterator.

Definition empty_table : TypeSnapshotTable :=
  {| active := None; merge_predecessors := [] |}.

(** The analyzer before [Run] has processed a block. *)
Definition initial_state (it : LoopIterator.T) : State :=
  {| types_table_ := empty_table;
     block_to_snapshot_ := ∅;
     block_is_unreachable_ := ∅;
     input_type_map_ := ∅;
     is_first_loop_header_evaluation_ := false;
     current_block_ := None;
     iterator := it |}.

(** A loop whose body is the null branch of a test on a non-nullable
    parameter.
<<
    B0:  v0 = Parameter 1 : (ref i31)        B1 (loop): v2 = Phi(v0, v5)
         Goto B1                                        v3 = IsNull(v0)
                                                        Branch(v3, B2, B3)
    B2:  v5 = GlobalGet : (ref struct)       B3:        v7 = Return
         Goto B1
>> *)
Definition dead_loop_graph : Graph := {|
  operations :=
    [ ParameterOp 1; GotoOp 1;
      PhiOp [0; 5]; IsNullOp 0 (kRefNull kAny); BranchOp 3 2 3;
      GlobalGetOp (kRef kStruct); GotoOp 1;
      Other ];
  blocks :=
    [ {| index := 0; kind := kMerge; Predecessors := [];
         OperationIndices := [0; 1] |};
      {| index := 1; kind := kLoopHeader; Predecessors := [0; 2];
         OperationIndices := [2; 3; 4] |};
      {| index := 2; kind := kBranchTarget; Predecessors := [1];
         OperationIndices := [5; 6] |};
      {| index := 3; kind := kBranchTarget; Predecessors := [1];
         OperationIndices := [7] |} ];
|}.

Definition dead_loop_signature : list VT := [kRef kI31].

Definition block_of (g : Graph) (b : BlockIndex) : Block :=
  default {| index := b; kind := kMerge; Predecessors := [];
             OperationIndices := [] |} (GetBlock g b).

(** The state a computation ends in, the state it started in when it
    fails. *)
Definition state_after {A} (c : M A) (s : State) : State :=
  match c s with
  | Some (_, s') => s'
  | None => s
  end.

(** The traversal of the four blocks of a loop graph, with the body [B2]. *)
Definition loop_traversal : LoopIterator.T :=
  {| LoopIterator.pending := [0; 1; 2; 3]; LoopIterator.loop_body := [2] |}.

(** The dead loop after the turns of [Run] for [B0] and [B1], and in the
    turn for [B2] once [B2] is processed and sealed. *)
Definition dead_loop_at_B2 : State :=
  Eval vm_compute in
  state_after (iterator_Next dead_loop_graph)
    (state_after (Run_iteration dead_loop_graph dead_loop_signature [])
       (state_after (Run_iteration dead_loop_graph dead_loop_signature [])
          (initial_state loop_traversal))).

Definition dead_loop_sealed_B2 : State :=
  Eval vm_compute in
  state_after (ProcessAndSeal dead_loop_graph dead_loop_signature []
                 (block_of dead_loop_graph 2))
    dead_loop_at_B2.

(** The dead loop if the header were processed again after [B2]. *)
Definition dead_loop_reprocessed : State :=
  Eval vm_compute in
  state_after (ReprocessLoopHeader dead_loop_graph dead_loop_signature []
                 (block_of dead_loop_graph 1))
    dead_loop_sealed_B2.

(** The same graph for a nullable parameter: the null branch [B2] is
    reachable and the loop is live. *)
Definition live_loop_signature : list VT := [kRefNull kI31].

Definition live_loop_sealed_B2 : State :=
  Eval vm_compute in
  state_after (ProcessAndSeal dead_loop_graph live_loop_signature []
                 (block_of dead_loop_graph 2))
    (state_after (iterator_Next dead_loop_graph)
       (state_after (Run_iteration dead_loop_graph live_loop_signature [])
          (state_after (Run_iteration dead_loop_graph live_loop_signature [])
             (initial_state loop_traversal)))).

(** A loop whose header casts its phi to a struct.
<<
    B0:  v0 = Parameter 1 : (ref i31)        B1 (loop): v2 = Phi(v0, v6)
         Goto B1                                        v3 = WasmTypeCast(v2, (ref struct))
                                                        v4
                                                        Branch(v4, B2, B3)
    B2:  v6 = GlobalGet : (ref struct)       B3:        v8 = Return
         Goto B1
>> *)
Definition cast_loop_graph : Graph := {|
  operations :=
    [ ParameterOp 1; GotoOp 1;
      PhiOp [0; 6]; WasmTypeCastOp 2 (kRef kStruct); Other; BranchOp 4 2 3;
      GlobalGetOp (kRef kStruct); GotoOp 1;
      Other ];
  blocks :=
    [ {| index := 0; kind := kMerge; Predecessors := [];
         OperationIndices := [0; 1] |};
      {| index := 1; kind := kLoopHeader; Predecessors := [0; 2];
         OperationIndices := [2; 3; 4; 5] |};
      {| index := 2; kind := kBranchTarget; Predecessors := [1];
         OperationIndices := [6; 7] |};
      {| index := 3; kind := kBranchTarget; Predecessors := [1];
         OperationIndices := [8] |} ];
|}.

(** The cast loop in the turn of [Run] for [B2] once [B2] is sealed, the
    header processed again from there, and after the loop step. *)
Definition cast_loop_sealed_B2 : State :=
  Eval vm_compute in
  state_after (ProcessAndSeal cast_loop_graph dead_loop_signature []
                 (block_of cast_loop_graph 2))
    (state_after (iterator_Next cast_loop_graph)
       (state_after (Run_iteration cast_loop_graph dead_loop_signature [])
          (state_after (Run_iteration cast_loop_graph dead_loop_signature [])
             (initial_state loop_traversal)))).

Definition cast_loop_header_again : State :=
  Eval vm_compute in
  state_after (ProcessBlock cast_loop_graph dead_loop_signature []
                 (block_of cast_loop_graph 1))
    cast_loop_sealed_B2.

Definition cast_loop_after_step : State :=
  Eval vm_compute in
  state_after (ConsiderLoopReprocessing cast_loop_graph dead_loop_signature []
                 (block_of cast_loop_graph 2))
    cast_loop_sealed_B2.

(** The live loop when [Run] has ended. *)
Definition live_loop_final : State :=
  Eval vm_compute in
  state_after (Run_loop dead_loop_graph live_loop_signature [] 6)
    (initial_state loop_traversal).

(** The type a recorded snapshot holds for a key. *)
Definition recorded_type (s : State) (block : BlockIndex) (key : OpIndex)
  : option VT :=
  snapshot ← block_to_snapshot_ s !! block; snapshot !! key.

(** A chain of pass-through operations over a parameter. *)
Definition alias_graph : Graph := {|
  operations :=
    [ ParameterOp 1;
      WasmTypeCastOp 0 (kRef kStruct);
      AssertNotNullOp 1 (kRefNull kStruct);
      WasmTypeAnnotationOp 2 (kRef kStruct);
      StructGetOp 3 [kRefNull kEq; kRef kI31] 0;
      NullOp (kRefNull kAny);
      ArrayLengthOp 5 ];
  blocks :=
    [ {| index := 0; kind := kMerge; Predecessors := [];
         OperationIndices := [0; 1; 2; 3; 4; 5; 6] |} ];
|}.

(** The analyzer inside block [cur] with the active snapshot [m]. *)
Definition state_in_block (cur : BlockIndex) (m : Snapshot)
    (predecessors : list Snapshot) (first_evaluation : bool) : State :=
  {| types_table_ :=
       {| active := Some m; merge_predecessors := predecessors |};
     block_to_snapshot_ := ∅;
     block_is_unreachable_ := ∅;
     input_type_map_ := ∅;
     is_first_loop_header_evaluation_ := first_evaluation;
     current_block_ := Some cur;
     iterator := loop_traversal |}.

(** A phi of two values. *)
Definition phi_graph : Graph := {|
  operations :=
    [ GlobalGetOp (kRef kI31); GlobalGetOp (kRef kStruct); PhiOp [0; 1] ];
  blocks := [];
|}.

Definition phi_predecessors : list Snapshot :=
  [ {[ 0 := kRef kI31 ]}; {[ 1 := kRef kStruct ]} ].

(** A branch on a type check.
<<
    B0:  v0 = Parameter 1
         v1 = WasmTypeCheck(v0, (ref i31))
         Branch(v1, B1, B2)
    B1:  v3                                  B2:  v4
>> *)
Definition type_check_graph : Graph := {|
  operations :=
    [ ParameterOp 1; WasmTypeCheckOp 0 (kRef kI31); BranchOp 1 1 2;
      Other; Other ];
  blocks :=
    [ {| index := 0; kind := kMerge; Predecessors := [];
         OperationIndices := [0; 1; 2] |};
      {| index := 1; kind := kBranchTarget; Predecessors := [0];
         OperationIndices := [3] |};
      {| index := 2; kind := kBranchTarget; Predecessors := [0];
         OperationIndices := [4] |} ];
|}.

(** The analyzer entering a target of the branch, for a parameter of type
    [param]. *)
Definition type_check_at_target (param : VT) (target : BlockIndex) : State :=
  set_current_block (Some target)
    (state_after (Run_body type_check_graph [param] []
                    (block_of type_check_graph 0))
       (initial_state loop_traversal)).

(** A merge block and the same block with its predecessors swapped. *)
Definition merge_block : Block :=
  {| index := 3; kind := kMerge; Predecessors := [1; 2];
     OperationIndices := [] |}.

Definition merge_block_swapped : Block :=
  {| index := 3; kind := kMerge; Predecessors := [2; 1];
     OperationIndices := [] |}.

Definition state_at_merge : State :=
  set_block_to_snapshot
    (<[1 := {[ 0 := kRef kI31 ]}]> (<[2 := {[ 0 := kRef kStruct ]}]> ∅))
    (initial_state loop_traversal).

End Examples.

(** ** Relations between the analyzer before and after a computation *)

Section Frames.
Context `{O : TypeOracle} `{I : AnalyzerIterator}.

(** Every successful run of [c] relates the analyzer before to the
    analyzer after by [P]. *)
Definition keeps {A} (P : State → State → Prop) (c : M A) : Prop :=
  ∀ s a s', c s = Some (a, s') → P s s'.

(** What the transfer functions may do to the analyzer: narrow entries of
    the active snapshot, mark the current block unreachable, and record
    input types for the operations [recorded]; nothing else changes. *)
Definition operations_frame (recorded : list OpIndex) (s s' : State) : Prop :=
  current_block_ s' = current_block_ s ∧
  is_first_loop_header_evaluation_ s' = is_first_loop_header_evaluation_ s ∧
  iterator s' = iterator s ∧
  block_to_snapshot_ s' = block_to_snapshot_ s ∧
  merge_predecessors (types_table_ s') = merge_predecessors (types_table_ s) ∧
  (is_Some (active (types_table_ s)) → is_Some (active (types_table_ s'))) ∧
  block_is_unreachable_ s ⊆ block_is_unreachable_ s' ∧
  (∀ b, b ∈ block_is_unreachable_ s' →
        b ∈ block_is_unreachable_ s ∨ current_block_ s = Some b) ∧
  (∀ idx, idx ∉ recorded →
          input_type_map_ s' !! idx = input_type_map_ s !! idx).

(** What the start of the snapshot of the current block [block] may do
    beside replacing the table and resetting the flag of the first loop
    header evaluation: change the reachability of [block]. *)
Definition start_frame (block : Block) (s s' : State) : Prop :=
  current_block_ s = Some (index block) →
  current_block_ s' = Some (index block) ∧
  iterator s' = iterator s ∧
  block_to_snapshot_ s' = block_to_snapshot_ s ∧
  input_type_map_ s' = input_type_map_ s ∧
  (∀ b, b ≠ index block →
        (b ∈ block_is_unreachable_ s' ↔ b ∈ block_is_unreachable_ s)).

(** A computation leaves the table as it is. *)
Definition same_table (s s' : State) : Prop :=
  types_table_ s' = types_table_ s.

(** A computation starts a snapshot: the table is sealed before and has an
    active snapshot after. *)
Definition starts_snapshot (s s' : State) : Prop :=
  active (types_table_ s) = None ∧ is_Some (active (types_table_ s')).

(** A computation leaves the reachability flags as they are. *)
Definition same_flags (s s' : State) : Prop :=
  block_is_unreachable_ s' = block_is_unreachable_ s.

(** A computation does not seal the table. *)
Definition stays_active (s s' : State) : Prop :=
  is_Some (active (types_table_ s)) → is_Some (active (types_table_ s')).

(** The type an operation that defines a value declares for its result:
    the type its transfer function passes to [RefineTypeKnowledge] for the
    operation itself. *)
Definition declared_result_type (graph_ : Graph) (signature_ : list ValueType)
    (module_functions_sig_index : list nat) (op : Operation)
  : option ValueType :=
  match op with
  | NullOp type => Some (ToNullSentinel type)
  | ParameterOp parameter_index =>
      if decide (parameter_index ≠ kWasmInstanceParameterIndex)
      then signature_ !! (parameter_index - 1)
      else None
  | GlobalGetOp global_type => Some global_type
  | WasmRefFuncOp function_index =>
      Ref <$> module_functions_sig_index !! function_index
  | WasmAllocateArrayOp rtt | WasmAllocateStructOp rtt =>
      match Get graph_ rtt with
      | RttCanonOp type_index => Some (Ref type_index)
      | _ => None
      end
  | _ => None
  end.

End Frames.

(** ** The simplification of loads and stores

    [load-store-simplification-reducer.h] *)

Module LoadStoreSimplification.

(** The operations of the assembler the reducer emits, over the values [V]
    of the output graph.  An [int32_t] or [uint8_t] argument stands for the
    constant it converts to. *)
Class Assembler := {
  V : Type;
  IntPtrConstant : Z → V;
  WordPtrAdd : V → Z → V;
  WordPtrShiftLeft : V → Z → V;
  BitcastHeapObjectToWordPtr : V → V;
  (** [matcher_.MatchIntegralZero] *)
  MatchIntegralZero : V → bool;
}.

(** [struct LoadStoreSimplificationConfiguration] *)
Record LoadStoreSimplificationConfiguration := {
  kNeedsUntaggedBase : bool;
  kMinOffset : Z;
  kMaxOffset : Z;
  kMaxElementSizeLog2 : Z;
}.

Definition int32_min : Z := (- 2 ^ 31)%Z.
Definition int32_max : Z := (2 ^ 31 - 1)%Z.

(** The configuration of ARM64, ARM, RISCV64, LOONG64, MIPS64 and PPC64. *)
Definition untagged_base_configuration : LoadStoreSimplificationConfiguration :=
  {| kNeedsUntaggedBase := true;
     kMinOffset := 1;
     kMaxOffset := 0;
     kMaxElementSizeLog2 := 0 |}.

(** The configuration of the other architectures. *)
Definition default_configuration : LoadStoreSimplificationConfiguration :=
  {| kNeedsUntaggedBase := false;
     kMinOffset := (int32_min + 1)%Z;
     kMaxOffset := int32_max;
     kMaxElementSizeLog2 := 3 |}.

(** The fields of [LoadOp::Kind] the reducer reads and writes. *)
Record Kind := {
  tagged_base : bool;
  is_atomic : bool;
}.

(** [AtomicWord32PairOp::Kind] *)
Inductive AtomicWord32PairKind :=
  kAdd | kSub | kAnd | kOr | kXor | kExchange | kCompareExchange
| kLoad | kStore.

Section Reducer.
Context `{A : Assembler}.
Local Open Scope Z_scope.

(** The arguments [SimplifyLoadStore] takes by reference. *)
Record Access := {
  base : V;
  index : option V;
  kind : Kind;
  offset : Z;
  element_size_log2 : Z;
}.

Variable configuration : LoadStoreSimplificationConfiguration.
Variable kHeapObjectTag : Z.
Variable lowering_enabled_ : bool.

(** [CanEncodeOffset] *)
Definition CanEncodeOffset (offset : Z) (tagged_base : bool) : bool :=
  let min :=
    kMinOffset configuration + (if tagged_base then kHeapObjectTag else 0) in
  if (min <=? offset) && (offset <=? kMaxOffset configuration)
  then true else false.

(** [CanEncodeAtomic] *)
Definition CanEncodeAtomic (index : option V) (offset : Z) : bool :=
  negb (bool_decide (is_Some index) && bool_decide (offset ≠ 0)).

(** The three parts of [SimplifyLoadStore] after the test of
    [lowering_enabled_]; [None] where a [DCHECK] of the source fails. *)
Definition shift_large_element_size (a : Access) : option Access :=
  if kMaxElementSizeLog2 configuration <? element_size_log2 a then
    index_value ← index a;
    Some {| base := base a;
            index := Some (WordPtrShiftLeft index_value (element_size_log2 a));
            kind := kind a;
            offset := offset a;
            element_size_log2 := 0 |}
  else Some a.

Definition untag_base (a : Access) : option Access :=
  if kNeedsUntaggedBase configuration then
    if tagged_base (kind a) then
      if int32_min + kHeapObjectTag <=? offset a then
        Some {| base := BitcastHeapObjectToWordPtr (base a);
                index := index a;
                kind := {| tagged_base := false;
                           is_atomic := is_atomic (kind a) |};
                offset := offset a - kHeapObjectTag;
                element_size_log2 := element_size_log2 a |}
      else None
    else Some a
  else Some a.

Definition merge_offset_into_index (a : Access) : option Access :=
  if negb (CanEncodeOffset (offset a) (tagged_base (kind a)))
     || (is_atomic (kind a) && negb (CanEncodeAtomic (index a) (offset a)))
  then
    let a1 :=
      if match index a with
         | None => true
         | Some index_value => MatchIntegralZero index_value
         end
      then {| base := base a;
              index := Some (IntPtrConstant (offset a));
              kind := kind a;
              offset := 0;
              element_size_log2 := 0 |}
      else a in
    a2 ←
      (if decide (element_size_log2 a1 ≠ 0) then
         index_value ← index a1;
         Some {| base := base a1;
                 index := Some (WordPtrShiftLeft index_value
                                  (element_size_log2 a1));
                 kind := kind a1;
                 offset := offset a1;
                 element_size_log2 := 0 |}
       else Some a1);
    if decide (offset a2 ≠ 0) then
      index_value ← index a2;
      Some {| base := base a2;
              index := Some (WordPtrAdd index_value (offset a2));
              kind := kind a2;
              offset := 0;
              element_size_log2 := element_size_log2 a2 |}
    else Some a2
  else Some a.

(** [SimplifyLoadStore] *)
Definition SimplifyLoadStore (a : Access) : option Access :=
  if negb lowering_enabled_ then Some a
  else
    a ← shift_large_element_size a;
    a ← untag_base a;
    merge_offset_into_index a.

(** [REDUCE(Load)] and [REDUCE(Store)], for the reduction [Next] of the
    rest of the stack: the simplified arguments are passed on. *)
Definition ReduceLoadStore {R} (Next : Access → R) (a : Access) : option R :=
  Next <$> SimplifyLoadStore a.

(** The arguments [REDUCE(AtomicWord32Pair)] changes. *)
Record AtomicAccess := {
  atomic_base : V;
  atomic_index : option V;
  atomic_kind : AtomicWord32PairKind;
  atomic_offset : Z;
}.

(** [REDUCE(AtomicWord32Pair)], up to the call of [Next]. *)
Definition SimplifyAtomicWord32Pair (a : AtomicAccess) : AtomicAccess :=
  match atomic_kind a with
  | kStore | kLoad =>
      match atomic_index a with
      | None =>
          {| atomic_base := atomic_base a;
             atomic_index := Some (IntPtrConstant (atomic_offset a));
             atomic_kind := atomic_kind a;
             atomic_offset := 0 |}
      | Some index_value =>
          if decide (atomic_offset a ≠ 0) then
            {| atomic_base := atomic_base a;
               atomic_index :=
                 Some (WordPtrAdd index_value (atomic_offset a));
               atomic_kind := atomic_kind a;
               atomic_offset := 0 |}
          else a
      end
  | _ => a
  end.

(** *** The address of an access

    The words the values compute, for a pointer of [width] bits: a load or
    store reads or writes at [base + index * 2^element_size_log2 + offset],
    less the tag of the heap object when the base is tagged (the comments
    of the configuration and of [CanEncodeOffset]). *)
Variable width : Z.
Variable value_of : V → Z.

Definition same_word (x y : Z) : Prop := x mod 2 ^ width = y mod 2 ^ width.

Definition address (a : Access) : Z :=
  value_of (base a)
  + match index a with
    | Some index_value => value_of index_value * 2 ^ element_size_log2 a
    | None => 0
    end
  + offset a
  - (if tagged_base (kind a) then kHeapObjectTag else 0).

Definition atomic_address (a : AtomicAccess) : Z :=
  value_of (atomic_base a)
  + match atomic_index a with
    | Some index_value => value_of index_value
    | None => 0
    end
  + atomic_offset a.

(** The assembler computes on words of [width] bits. *)
Definition word_semantics : Prop :=
  (∀ c, same_word (value_of (IntPtrConstant c)) c) ∧
  (∀ v c, same_word (value_of (WordPtrAdd v c)) (value_of v + c)) ∧
  (∀ v k, 0 ≤ k < width →
          same_word (value_of (WordPtrShiftLeft v k)) (value_of v * 2 ^ k)) ∧
  (∀ v, same_word (value_of (BitcastHeapObjectToWordPtr v)) (value_of v)) ∧
  (∀ v, MatchIntegralZero v = true → same_word (value_of v) 0).

End Reducer.

(** The assembler of a machine with words of 64 bits, a value being the
    word it computes. *)
Module Word64.

Definition wrap (x : Z) : Z := (x mod 2 ^ 64)%Z.

Definition assembler : Assembler := {|
  V := Z;
  IntPtrConstant c := wrap c;
  WordPtrAdd v c := wrap (v + c)%Z;
  WordPtrShiftLeft v k := wrap (v * 2 ^ k)%Z;
  BitcastHeapObjectToWordPtr v := v;
  MatchIntegralZero v := bool_decide (v = 0%Z);
|}.

(** The word a value computes. *)
Definition value_of (v : @V assembler) : Z := v.

End Word64.

End LoadStoreSimplification.

(** ** Further example graphs and states *)

Module MoreExamples.
Import WasmTypes Examples.

#[local] Existing Instance WasmTypes.oracle.
#[local] Existing Instance LoopIterator.iterator.
#[local] Existing Instance LoadStoreSimplification.Word64.assembler.

(** Two operations with an implicit null check on one parameter, the
    second through an annotation.
<<
    B0:  v0 = Parameter 1
         v1 = StructSet(v0)
         v2 = WasmTypeAnnotation(v0, (ref null any))
         v3 = ArrayLength(v2)
>> *)
Definition null_check_graph : Graph := {|
  operations :=
    [ ParameterOp 1; StructSetOp 0; WasmTypeAnnotationOp 0 (kRefNull kAny);
      ArrayLengthOp 2 ];
  blocks :=
    [ {| index := 0; kind := kMerge; Predecessors := [];
         OperationIndices := [0; 1; 2; 3] |} ];
|}.

(** The analyzer in block 0 of [alias_graph] before and after the
    operations of the block, for a parameter of type [(ref null $0)]. *)
Definition alias_block_start : State :=
  state_in_block 0 ∅ [] false.

Definition alias_block_end : State :=
  Eval vm_compute in
  state_after (ProcessOperations alias_graph [kRefNull kType0] []
                 (block_of alias_graph 0))
    alias_block_start.

(** The branch on a type check once its first block is processed, and
    once the turn of [Run] for that block is over. *)
Definition type_check_processed_B0 : State :=
  Eval vm_compute in
  state_after (ProcessBlock type_check_graph [kRefNull kAny] []
                 (block_of type_check_graph 0))
    (initial_state loop_traversal).

Definition type_check_after_B0 : State :=
  Eval vm_compute in
  state_after (Run_body type_check_graph [kRefNull kAny] []
                 (block_of type_check_graph 0))
    (initial_state loop_traversal).

(** The dead loop entering [B2], the true target of the null test. *)
Definition dead_loop_entering_B2 : State :=
  Eval vm_compute in set_current_block (Some 2) dead_loop_at_B2.

(** The snapshot recorded for the header of the dead loop. *)
Definition dead_loop_header_snapshot : Snapshot :=
  Eval vm_compute in default ∅ (block_to_snapshot_ dead_loop_at_B2 !! 1).

Definition dead_loop_started_B2 : State :=
  Eval vm_compute in
  state_after (StartNewSnapshotFor dead_loop_graph (block_of dead_loop_graph 2))
    dead_loop_entering_B2.

(** The dead loop after the turn of [Run] for [B0], before the header. *)
Definition dead_loop_after_B0 : State :=
  Eval vm_compute in
  state_after (Run_iteration dead_loop_graph dead_loop_signature [])
    (initial_state loop_traversal).

Definition dead_loop_entry_snapshot : Snapshot :=
  Eval vm_compute in default ∅ (block_to_snapshot_ dead_loop_after_B0 !! 0).

(** The cast loop entering [B2], a target of a branch on a value that is
    neither a type check nor a null test. *)
Definition cast_loop_at_B2 : State :=
  Eval vm_compute in
  state_after (iterator_Next cast_loop_graph)
    (state_after (Run_iteration cast_loop_graph dead_loop_signature [])
       (state_after (Run_iteration cast_loop_graph dead_loop_signature [])
          (initial_state loop_traversal))).

Definition cast_loop_header_snapshot : Snapshot :=
  Eval vm_compute in default ∅ (block_to_snapshot_ cast_loop_at_B2 !! 1).

(** The live loop when [Run] has ended. *)
Definition live_loop_end : State :=
  Eval vm_compute in
  state_after (Run dead_loop_graph live_loop_signature [] 6 loop_traversal)
    (initial_state loop_traversal).

(** The traversal of the six blocks of a loop behind a branch, with the
    body [B4]. *)
Definition dead_entry_traversal : LoopIterator.T :=
  {| LoopIterator.pending := [0; 1; 2; 3; 4; 5];
     LoopIterator.loop_body := [4] |}.

(** A loop whose forward edge comes from the null branch of a test on a
    non-nullable parameter, and whose phi takes a value without type
    knowledge from the back edge.
<<
    B0:  v0 = Parameter 1 : (ref i31)
         v1 = IsNull(v0)
         Branch(v1, B1, B2)
    B1:  Goto B3                             B2:  v4
    B3 (loop): v5 = Phi(v0, v6)
               v6
               Branch(v6, B4, B5)
    B4:  Goto B3                             B5:  v9
>> *)
Definition stale_phi_graph : Graph := {|
  operations :=
    [ ParameterOp 1; IsNullOp 0 (kRefNull kAny); BranchOp 1 1 2;
      GotoOp 3;
      Other;
      PhiOp [0; 6]; Other; BranchOp 6 4 5;
      GotoOp 3;
      Other ];
  blocks :=
    [ {| index := 0; kind := kMerge; Predecessors := [];
         OperationIndices := [0; 1; 2] |};
      {| index := 1; kind := kBranchTarget; Predecessors := [0];
         OperationIndices := [3] |};
      {| index := 2; kind := kBranchTarget; Predecessors := [0];
         OperationIndices := [4] |};
      {| index := 3; kind := kLoopHeader; Predecessors := [1; 4];
         OperationIndices := [5; 6; 7] |};
      {| index := 4; kind := kBranchTarget; Predecessors := [3];
         OperationIndices := [8] |};
      {| index := 5; kind := kBranchTarget; Predecessors := [3];
         OperationIndices := [9] |} ];
|}.

(** The analyzer after the turns of [Run] for [B0] to [B3] of such a loop,
    when [B4] is taken from the iterator. *)
Definition entering_B4 (g : Graph) : State :=
  state_after (iterator_Next g)
    (state_after (Run_iteration g dead_loop_signature [])
       (state_after (Run_iteration g dead_loop_signature [])
          (state_after (Run_iteration g dead_loop_signature [])
             (state_after (Run_iteration g dead_loop_signature [])
                (initial_state dead_entry_traversal))))).

(** The loop of the phi in the turn of [Run] for [B4]: once [B4] is
    sealed, once the snapshot of the header is started again, and once the
    header is processed again. *)
Definition stale_phi_at_B4 : State :=
  Eval vm_compute in entering_B4 stale_phi_graph.

Definition stale_phi_sealed_B4 : State :=
  Eval vm_compute in
  state_after (ProcessAndSeal stale_phi_graph dead_loop_signature []
                 (block_of stale_phi_graph 4))
    stale_phi_at_B4.

Definition stale_phi_header_started : State :=
  Eval vm_compute in
  state_after (StartNewSnapshotFor stale_phi_graph (block_of stale_phi_graph 3))
    (set_current_block (Some 3) stale_phi_sealed_B4).

Definition stale_phi_header_again : State :=
  Eval vm_compute in
  state_after (ProcessBlock stale_phi_graph dead_loop_signature []
                 (block_of stale_phi_graph 3))
    stale_phi_sealed_B4.

(** A loop behind the same dead forward edge whose header reads a field of
    an object that is annotated only after the read, and casts what it
    read.
<<
    B0:  v0 = Parameter 1 : (ref i31)
         v1
         v2 = IsNull(v0)
         Branch(v2, B1, B2)
    B1:  Goto B3                             B2:  v5
    B3 (loop): v6 = StructGet(v1) : (ref null eq)
               v7 = WasmTypeCast(v6, (ref i31))
               v8 = WasmTypeAnnotation(v1, (ref null $0))
               v9
               Branch(v9, B4, B5)
    B4:  Goto B3                             B5:  v12
>> *)
Definition stale_result_graph : Graph := {|
  operations :=
    [ ParameterOp 1; Other; IsNullOp 0 (kRefNull kAny); BranchOp 2 1 2;
      GotoOp 3;
      Other;
      StructGetOp 1 [kRefNull kEq] 0; WasmTypeCastOp 6 (kRef kI31);
      WasmTypeAnnotationOp 1 (kRefNull kType0); Other; BranchOp 9 4 5;
      GotoOp 3;
      Other ];
  blocks :=
    [ {| index := 0; kind := kMerge; Predecessors := [];
         OperationIndices := [0; 1; 2; 3] |};
      {| index := 1; kind := kBranchTarget; Predecessors := [0];
         OperationIndices := [4] |};
      {| index := 2; kind := kBranchTarget; Predecessors := [0];
         OperationIndices := [5] |};
      {| index := 3; kind := kLoopHeader; Predecessors := [1; 4];
         OperationIndices := [6; 7; 8; 9; 10] |};
      {| index := 4; kind := kBranchTarget; Predecessors := [3];
         OperationIndices := [11] |};
      {| index := 5; kind := kBranchTarget; Predecessors := [3];
         OperationIndices := [12] |} ];
|}.

(** The loop of the field read in the turn of [Run] for [B4]: once [B4] is
    sealed, once the snapshot of the header is started again, once the
    field is read again, and once the header is processed again. *)
Definition stale_result_at_B4 : State :=
  Eval vm_compute in entering_B4 stale_result_graph.

Definition stale_result_sealed_B4 : State :=
  Eval vm_compute in
  state_after (ProcessAndSeal stale_result_graph dead_loop_signature []
                 (block_of stale_result_graph 4))
    stale_result_at_B4.

Definition stale_result_header_started : State :=
  Eval vm_compute in
  state_after (StartNewSnapshotFor stale_result_graph
                 (block_of stale_result_graph 3))
    (set_current_block (Some 3) stale_result_sealed_B4).

Definition stale_result_read_again : State :=
  Eval vm_compute in
  state_after (ProcessOperation stale_result_graph dead_loop_signature [] 6)
    stale_result_header_started.

Definition stale_result_header_again : State :=
  Eval vm_compute in
  state_after (ProcessBlock stale_result_graph dead_loop_signature []
                 (block_of stale_result_graph 3))
    stale_result_sealed_B4.

(** A tagged access with an index, an offset and elements of 8 bytes. *)
Definition tagged_access : LoadStoreSimplification.Access :=
  {| LoadStoreSimplification.base := 1000%Z;
     LoadStoreSimplification.index := Some 5%Z;
     LoadStoreSimplification.kind :=
       {| LoadStoreSimplification.tagged_base := true;
          LoadStoreSimplification.is_atomic := false |};
     LoadStoreSimplification.offset := 16%Z;
     LoadStoreSimplification.element_size_log2 := 3%Z |}.

(** The access the reducer makes of it where the base is to be untagged. *)
Definition untagged_access : LoadStoreSimplification.Access :=
  {| LoadStoreSimplification.base := 1000%Z;
     LoadStoreSimplification.index := Some 55%Z;
     LoadStoreSimplification.kind :=
       {| LoadStoreSimplification.tagged_base := false;
          LoadStoreSimplification.is_atomic := false |};
     LoadStoreSimplification.offset := 0%Z;
     LoadStoreSimplification.element_size_log2 := 0%Z |}.

(** An atomic load of a pair at an offset from an index. *)
Definition atomic_pair_load : LoadStoreSimplification.AtomicAccess :=
  {| LoadStoreSimplification.atomic_base := 1000%Z;
     LoadStoreSimplification.atomic_index := Some 40%Z;
     LoadStoreSimplification.atomic_kind := LoadStoreSimplification.kLoad;
     LoadStoreSimplification.atomic_offset := 8%Z |}.

End MoreExamples.

(** * Properties *)

(** ** Alias resolution *)

Section AliasResolution.
Context `{O : TypeOracle}.
Implicit Types (g : Graph) (v w r : nat).

Lemma alias_chain_has_len g v r :
  alias_chain g v r → ∃ n, alias_chain_len g n v r.
Proof.
  induction 1 as [v Hv | v w r Hv _ [n IH]].
  - exists 0. by constructor.
  - exists (S n). by econstructor.
Qed.

Lemma alias_chain_len_chain g n v r :
  alias_chain_len g n v r → alias_chain g v r.
Proof. induction 1; [by constructor | by econstructor]. Qed.

Lemma alias_chain_len_det g n m v r r' :
  alias_chain_len g n v r → alias_chain_len g m v r' → n = m ∧ r = r'.
Proof.
  intros H. revert m r'.
  induction H as [v Hv | n v w r Hv _ IH]; intros m r'; inversion 1; subst;
    try congruence; auto.
  assert (w = w0) as -> by congruence.
  destruct (IH _ _ ltac:(eassumption)) as [-> ->]. done.
Qed.

Lemma alias_chain_end_not_pass_through g v r :
  alias_chain g v r → pass_through_object (Get g r) = None.
Proof. induction 1; auto. Qed.

Lemma pass_through_in_buffer g v w :
  pass_through_object (Get g v) = Some w → v < length (operations g).
Proof.
  unfold Get. intros H. apply lookup_lt_is_Some.
  destruct (operations g !! v); [eauto | discriminate].
Qed.

Lemma ResolveAliases_loop_len g n v r fuel :
  alias_chain_len g n v r → n < fuel → ResolveAliases_loop fuel g v = Some r.
Proof.
  intros H. revert fuel.
  induction H as [v Hv | n v w r Hv _ IH]; intros [|fuel] Hlt; try lia;
    simpl; rewrite Hv; [done |].
  apply IH. lia.
Qed.

Lemma ResolveAliases_loop_sound g fuel v r :
  ResolveAliases_loop fuel g v = Some r → alias_chain g v r.
Proof.
  revert v. induction fuel as [|fuel IH]; intros v; simpl; [done |].
  destruct (pass_through_object (Get g v)) as [w|] eqn:Hv.
  - intros H. eapply alias_chain_step; eauto.
  - intros [= <-]. by constructor.
Qed.

(** The pass-through operations of a chain are distinct entries of the
    buffer. *)
Lemma alias_chain_len_nodes g n v r :
  alias_chain_len g n v r →
  ∃ l : list nat,
    length l = n ∧ NoDup l ∧
    ∀ x, x ∈ l →
      x < length (operations g) ∧ ∃ k, k ≤ n ∧ 0 < k ∧ alias_chain_len g k x r.
Proof.
  induction 1 as [v Hv | n v w r Hv Hw (l & Hlen & Hnd & Hl)].
  - exists []. split_and!; [done | constructor |]. intros x Hx. inversion Hx.
  - exists (v :: l). split_and!.
    + simpl. by rewrite Hlen.
    + constructor; [| done]. intros Hin.
      destruct (Hl _ Hin) as (_ & k & Hk & _ & Hchain).
      destruct (alias_chain_len_det g k (S n) v r r Hchain) as [? _];
        [by econstructor | lia].
    + intros x [-> | Hin]%elem_of_cons.
      * split; [by eapply pass_through_in_buffer |].
        exists (S n). split_and!; [lia | lia | by econstructor].
      * destruct (Hl _ Hin) as (? & k & ? & ? & ?).
        split; [done |]. exists k. split_and!; [lia | done | done].
Qed.

Lemma alias_chain_len_bound g n v r :
  alias_chain_len g n v r → n ≤ length (operations g).
Proof.
  intros (l & <- & Hnd & Hl)%alias_chain_len_nodes.
  rewrite <- (length_seq (length (operations g)) 0).
  apply NoDup_incl_length; [by apply NoDup_ListNoDup |].
  intros x Hx%list_elem_of_In. apply in_seq.
  destruct (Hl _ Hx). lia.
Qed.

Lemma ResolveAliases_complete g v r :
  alias_chain g v r → ResolveAliases g v = Some r.
Proof.
  intros [n Hn]%alias_chain_has_len.
  eapply ResolveAliases_loop_len; [done |].
  apply alias_chain_len_bound in Hn. lia.
Qed.

Lemma ResolveAliases_sound g v r :
  ResolveAliases g v = Some r → alias_chain g v r.
Proof. apply ResolveAliases_loop_sound. Qed.

Lemma ResolveAliases_fixed g r :
  pass_through_object (Get g r) = None → ResolveAliases g r = Some r.
Proof. intros H. unfold ResolveAliases. simpl. by rewrite H. Qed.

(** C8.  When the chain of pass-through operations (cast, non-null
    assertion, type annotation) that starts at [v] is finite and ends in
    [r], [ResolveAliases] returns [r], the first value of the chain whose
    operation is not pass-through, and resolving the result again returns
    it unchanged: [resolve (resolve v) = resolve v]. *)
Theorem ResolveAliases_terminates_idempotent g v r :
  alias_chain g v r →
  ResolveAliases g v = Some r ∧
  pass_through_object (Get g r) = None ∧
  (ResolveAliases g v ≫= ResolveAliases g) = ResolveAliases g v.
Proof.
  intros Hchain.
  pose proof (ResolveAliases_complete g v r Hchain) as Hv.
  pose proof (alias_chain_end_not_pass_through g v r Hchain) as Hr.
  split_and!; [done | done |].
  rewrite Hv. simpl. by apply ResolveAliases_fixed.
Qed.

End AliasResolution.

(** ** The narrowing primitives *)

(** Unfolds the plumbing of a computation down to matches on the state. *)
Ltac unfold_M :=
  cbv beta iota zeta delta
    [bind ret gets modify optional_value fail with_table
     types_table_Get types_table_Set types_table_GetPredecessorValue
     types_table_Seal block_is_unreachable_Add block_is_unreachable_Remove
     record_snapshot record_input_type table_Get table_Set table_Seal
     table_GetPredecessorValue].

Section Narrowing.
Context `{O : TypeOracle} `{I : AnalyzerIterator}.
Variable graph_ : Graph.
Implicit Types (s : State) (m : Snapshot).

Lemma RefineTypeKnowledge_run s object new_type r m cur :
  ResolveAliases graph_ object = Some r →
  active (types_table_ s) = Some m →
  current_block_ s = Some cur →
  RefineTypeKnowledge graph_ object new_type s =
    Some (snapshot_Get m r,
          refined_state r (refine_intersection (snapshot_Get m r) new_type)
            (is_uninhabited (refine_intersection (snapshot_Get m r) new_type))
            cur m s).
Proof.
  intros Hr Hm Hcur.
  unfold RefineTypeKnowledge, refined_state, refine_intersection.
  unfold_M. rewrite Hr. simpl. rewrite Hm. simpl.
  destruct (is_uninhabited _); simpl;
    repeat (first [rewrite Hcur | rewrite Hm]; simpl); done.
Qed.

Lemma RefineTypeKnowledgeNotNull_run s object r m cur :
  ResolveAliases graph_ object = Some r →
  active (types_table_ s) = Some m →
  current_block_ s = Some cur →
  RefineTypeKnowledgeNotNull graph_ object s =
    Some (snapshot_Get m r,
          refined_state r (AsNonNull (snapshot_Get m r))
            (is_uninhabited (snapshot_Get m r)) cur m s).
Proof.
  intros Hr Hm Hcur.
  unfold RefineTypeKnowledgeNotNull, refined_state.
  unfold_M. rewrite Hr. simpl. rewrite Hm. simpl.
  destruct (is_uninhabited _); simpl;
    repeat (first [rewrite Hcur | rewrite Hm]; simpl); done.
Qed.

Lemma snapshot_Get_insert m key key' v :
  snapshot_Get (<[key := v]> m) key' =
    if decide (key = key') then v else snapshot_Get m key'.
Proof.
  unfold snapshot_Get. rewrite lookup_insert. by case_decide.
Qed.

Lemma IsReachable_refined_state r stored mark cur m s b :
  IsReachable (refined_state r stored mark cur m s) b =
    IsReachable s b && negb (mark && bool_decide (b = cur)).
Proof.
  unfold IsReachable, refined_state. destruct mark; simpl.
  - destruct (decide (b = cur)) as [-> | Hne].
    + rewrite (bool_decide_eq_true_2 (cur = cur)) by done.
      rewrite andb_false_r. apply bool_decide_eq_false_2. set_solver.
    + rewrite (bool_decide_eq_false_2 (b = cur)) by done.
      rewrite andb_true_r. apply bool_decide_ext. set_solver.
  - by rewrite andb_true_r.
Qed.

(** C3.  [RefineTypeKnowledge(v, P)] resolves [v] through its alias chain
    to [r], returns the type [r] had before the call, stores for [r] the
    intersection of that type with [P] (which is [P] itself when nothing
    was known), leaves every other key as it was, and succeeds; the current
    block is marked unreachable by the call exactly when the stored
    intersection is uninhabited, and no other block's flag changes. *)
Theorem RefineTypeKnowledge_spec s v P r m cur :
  ResolveAliases graph_ v = Some r →
  active (types_table_ s) = Some m →
  current_block_ s = Some cur →
  let previous := snapshot_Get m r in
  let stored :=
    if decide (previous = kWasmVoid) then P else Intersection previous P in
  ∃ s',
    RefineTypeKnowledge graph_ v P s = Some (previous, s') ∧
    table_Get r (types_table_ s') = Some stored ∧
    (∀ key, key ≠ r →
       table_Get key (types_table_ s') = table_Get key (types_table_ s)) ∧
    (block_is_unreachable_ s' =
       if is_uninhabited stored
       then {[cur]} ∪ block_is_unreachable_ s
       else block_is_unreachable_ s) ∧
    (IsReachable s' cur = IsReachable s cur && negb (is_uninhabited stored)) ∧
    (∀ b, b ≠ cur → IsReachable s' b = IsReachable s b).
Proof.
  intros Hr Hm Hcur previous stored.
  eexists. split; [by apply RefineTypeKnowledge_run |].
  fold previous. change (refine_intersection previous P) with stored.
  split_and!.
  - unfold table_Get, refined_state. simpl.
    by rewrite snapshot_Get_insert, decide_True.
  - intros key Hne. unfold table_Get, refined_state. simpl. rewrite Hm. simpl.
    by rewrite snapshot_Get_insert, decide_False.
  - unfold refined_state. by destruct (is_uninhabited stored).
  - rewrite IsReachable_refined_state.
    by rewrite (bool_decide_eq_true_2 (cur = cur)), andb_true_r.
  - intros b Hne. rewrite IsReachable_refined_state.
    by rewrite (bool_decide_eq_false_2 (b = cur)), andb_false_r, andb_true_r.
Qed.

(** C9.  [RefineTypeKnowledgeNotNull] returns the type [previous] the
    resolved object had, stores [AsNonNull previous] for it without
    intersecting, and marks the current block unreachable exactly when
    [previous] was uninhabited already.  So for a [previous] that is
    inhabited while its non-null version is not, as a null sentinel is, the
    stored type is uninhabited and the call marks no block. *)
Theorem RefineTypeKnowledgeNotNull_spec s v r m cur :
  ResolveAliases graph_ v = Some r →
  active (types_table_ s) = Some m →
  current_block_ s = Some cur →
  let previous := snapshot_Get m r in
  ∃ s',
    RefineTypeKnowledgeNotNull graph_ v s = Some (previous, s') ∧
    table_Get r (types_table_ s') = Some (AsNonNull previous) ∧
    (cur ∈ block_is_unreachable_ s' ↔
       cur ∈ block_is_unreachable_ s ∨ is_uninhabited previous = true) ∧
    (block_is_unreachable_ s' =
       if is_uninhabited previous
       then {[cur]} ∪ block_is_unreachable_ s
       else block_is_unreachable_ s) ∧
    (∀ t, previous = ToNullSentinel t →
       is_uninhabited previous = false →
       is_uninhabited (AsNonNull previous) = true →
       (∃ stored, table_Get r (types_table_ s') = Some stored ∧
                  is_uninhabited stored = true) ∧
       block_is_unreachable_ s' = block_is_unreachable_ s).
Proof.
  intros Hr Hm Hcur previous.
  eexists. split; [by apply RefineTypeKnowledgeNotNull_run |].
  fold previous. split_and!.
  - unfold table_Get, refined_state. simpl.
    by rewrite snapshot_Get_insert, decide_True.
  - unfold refined_state. destruct (is_uninhabited previous); simpl.
    + set_solver.
    + split; [auto | by intros [? | ?]].
  - unfold refined_state. by destruct (is_uninhabited previous).
  - intros t _ Hinh Hnn. split.
    + exists (AsNonNull previous). split; [| done].
      unfold table_Get, refined_state. simpl.
      by rewrite snapshot_Get_insert, decide_True.
    + unfold refined_state. by rewrite Hinh.
Qed.

End Narrowing.

(** ** Transfer functions *)

Section TransferFunctions.
Context `{O : TypeOracle} `{I : AnalyzerIterator}.
Variable graph_ : Graph.
Variable signature_ : list ValueType.
Variable module_functions_sig_index : list nat.
Implicit Types (s : State) (m : Snapshot).

Lemma bind_run {A B} (c : M A) (k : A → M B) s a s' :
  c s = Some (a, s') → bind c k s = k a s'.
Proof. unfold bind. by intros ->. Qed.

Lemma active_refined_state r stored mark cur m s :
  active (types_table_ (refined_state r stored mark cur m s)) =
    Some (<[r := stored]> m).
Proof. done. Qed.

Lemma current_block_refined_state r stored mark cur m s :
  current_block_ (refined_state r stored mark cur m s) = current_block_ s.
Proof. unfold refined_state. by destruct mark. Qed.

Lemma input_type_map_refined_state r stored mark cur m s :
  input_type_map_ (refined_state r stored mark cur m s) = input_type_map_ s.
Proof. unfold refined_state. by destruct mark. Qed.

(** C7 (amended).  A struct field read [idx = StructGet(object)] whose
    object is known to have type [T] before the read (in particular a
    nullable [S?]) records [T], the type before the implicit null check
    narrows it, as its input type, leaves the object with [AsNonNull T], and
    refines its result with the declared field type [F]: the result ends
    with the intersection of [F] and the type [prior] known for it before,
    and with [F] itself when nothing was known for it.  Only the entries of
    the object and of the result change, so that the type of the result
    does not depend on what the snapshot knows about any other value. *)
Theorem ProcessStructGet_spec s idx object struct_type field_index r m cur T F :
  Get graph_ idx = StructGetOp object struct_type field_index →
  ResolveAliases graph_ object = Some r →
  active (types_table_ s) = Some m →
  current_block_ s = Some cur →
  snapshot_Get m r = T →
  struct_type !! field_index = Some F →
  let prior := snapshot_Get (<[r := AsNonNull T]> m) idx in
  let stored := refine_intersection prior F in
  ∃ s',
    ProcessOperation graph_ signature_ module_functions_sig_index idx s =
      Some (tt, s') ∧
    input_type_map_ s' !! idx = Some T ∧
    active (types_table_ s') =
      Some (<[idx := stored]> (<[r := AsNonNull T]> m)) ∧
    table_Get idx (types_table_ s') = Some stored ∧
    (r ≠ idx →
     prior = snapshot_Get m idx ∧
     table_Get r (types_table_ s') = Some (AsNonNull T)) ∧
    (T ≠ kWasmVoid → snapshot_Get m idx = kWasmVoid →
     table_Get idx (types_table_ s') = Some F ∧
     table_Get r (types_table_ s') = Some (AsNonNull T)).
Proof.
  intros Hop Hr Hm Hcur HT Hfield prior stored.
  assert (ResolveAliases graph_ idx = Some idx) as Hidx
    by (apply ResolveAliases_fixed; by rewrite Hop).
  unfold ProcessOperation. rewrite Hop. unfold ProcessStructGet.
  erewrite bind_run by (by apply RefineTypeKnowledgeNotNull_run).
  rewrite HT.
  set (s1 := refined_state r (AsNonNull T) (is_uninhabited T) cur m s).
  unfold record_input_type at 1, modify at 1.
  unfold bind at 1. rewrite Hfield.
  unfold_M.
  set (s2 := set_input_type_map _ s1).
  erewrite (RefineTypeKnowledge_run graph_ s2 idx F idx (<[r := AsNonNull T]> m) cur);
    [| done | done | by rewrite <- Hcur; apply current_block_refined_state ].
  simpl. eexists. split; [done |].
  fold prior. fold stored.
  assert (table_Get idx
            (types_table_
               (refined_state idx stored (is_uninhabited stored) cur
                  (<[r := AsNonNull T]> m) s2)) = Some stored) as Hresult.
  { unfold table_Get. rewrite active_refined_state. simpl.
    by rewrite snapshot_Get_insert, decide_True. }
  assert (r ≠ idx →
          prior = snapshot_Get m idx ∧
          table_Get r
            (types_table_
               (refined_state idx stored (is_uninhabited stored) cur
                  (<[r := AsNonNull T]> m) s2)) = Some (AsNonNull T))
    as Hobject.
  { intros Hne. split.
    - unfold prior. by rewrite snapshot_Get_insert, decide_False.
    - unfold table_Get. rewrite active_refined_state. simpl.
      rewrite snapshot_Get_insert, decide_False by done.
      by rewrite snapshot_Get_insert, decide_True. }
  split_and!.
  - rewrite input_type_map_refined_state. apply lookup_insert_eq.
  - apply active_refined_state.
  - exact Hresult.
  - exact Hobject.
  - intros Hknown Hfresh.
    assert (r ≠ idx) as Hne by (intros ->; congruence).
    destruct (Hobject Hne) as [Hprior Hnarrowed].
    split; [| exact Hnarrowed]. etrans; [exact Hresult |]. f_equal.
    unfold stored, refine_intersection.
    by rewrite Hprior, Hfresh, decide_True.
Qed.

Lemma types_table_GetPredecessorValue_run s key i t :
  table_GetPredecessorValue key i (types_table_ s) = Some t →
  types_table_GetPredecessorValue key i s = Some (t, s).
Proof. unfold types_table_GetPredecessorValue. unfold_M. by intros ->. Qed.

Lemma ProcessPhi_loop_run s inputs i union_type types :
  phi_contributed_types graph_ (types_table_ s) inputs i = Some types →
  ProcessPhi_loop graph_ inputs i union_type s =
    Some (if decide (kWasmVoid ∈ types) then None
          else Some (foldl phi_accumulate union_type
                       (filter (λ t, t ≠ kWasmBottom) types)),
          s).
Proof.
  revert i union_type types.
  induction inputs as [|input inputs IH]; intros i union_type types; simpl.
  - intros [= <-]. rewrite decide_False by set_solver. done.
  - destruct (ResolveAliases graph_ input) as [resolved|] eqn:Hres;
      simpl; [| done].
    destruct (table_GetPredecessorValue resolved i (types_table_ s))
      as [type|] eqn:Htype; simpl; [| done].
    destruct (phi_contributed_types graph_ (types_table_ s) inputs (S i))
      as [types'|] eqn:Htypes; simpl; [| done].
    intros [= <-].
    rewrite (bind_run _ _ s resolved s) by done.
    erewrite bind_run by (by apply types_table_GetPredecessorValue_run).
    destruct (decide (type = kWasmVoid)) as [-> | Hvoid].
    { rewrite decide_True by set_solver. done. }
    destruct (decide (type = kWasmBottom)) as [-> | Hbottom].
    { rewrite (IH _ _ _ Htypes), filter_cons_False by naive_solver.
      do 2 case_decide; set_solver. }
    rewrite filter_cons_True by done. simpl.
    change (phi_accumulate union_type type)
      with (if decide (union_type = kWasmBottom) then type
            else Union union_type type).
    destruct (decide (union_type = kWasmBottom));
      rewrite (IH _ _ _ Htypes); do 2 case_decide; set_solver.
Qed.

(** C4 (amended).  A phi [idx = Phi(input0, ...)] is processed as follows.
    On the first, optimistic evaluation of a loop header its result is
    refined with the type of input 0 and nothing else.  Otherwise the merge
    of the types its predecessors contribute is computed: it starts from
    the type predecessor 0 contributes, skips every later input whose
    contributed type is bottom, and accumulates the others by union; if a
    contributed type is unknown the merge has no result and the analyzer
    is left as it is, the entry of the phi included, which keeps the type
    the snapshot started with; else the result of the phi is refined with
    the merge. *)
Theorem ProcessPhi_spec s idx input0 inputs m cur :
  Get graph_ idx = PhiOp (input0 :: inputs) →
  active (types_table_ s) = Some m →
  current_block_ s = Some cur →
  (is_first_loop_header_evaluation_ s = true →
   ∀ r0, ResolveAliases graph_ input0 = Some r0 →
     let stored :=
       refine_intersection (snapshot_Get m idx) (snapshot_Get m r0) in
     ProcessOperation graph_ signature_ module_functions_sig_index idx s =
       Some (tt, refined_state idx stored (is_uninhabited stored) cur m s)) ∧
  (is_first_loop_header_evaluation_ s = false →
   ∀ types,
     phi_contributed_types graph_ (types_table_ s) (input0 :: inputs) 0 =
       Some types →
     ProcessOperation graph_ signature_ module_functions_sig_index idx s =
       match phi_union types with
       | None => Some (tt, s)
       | Some union_type =>
           let stored := refine_intersection (snapshot_Get m idx) union_type in
           Some (tt, refined_state idx stored (is_uninhabited stored) cur m s)
       end).
Proof.
  intros Hop Hm Hcur.
  assert (ResolveAliases graph_ idx = Some idx) as Hidx
    by (apply ResolveAliases_fixed; by rewrite Hop).
  unfold ProcessOperation. rewrite Hop. unfold ProcessPhi.
  split; intros Hfirst.
  - intros r0 Hr0.
    unfold bind at 1, gets at 1. rewrite Hfirst.
    unfold GetResolvedType.
    rewrite (bind_run _ _ s (snapshot_Get m r0) s).
    2:{ rewrite (bind_run _ _ s r0 s) by (by rewrite Hr0).
        unfold_M. by rewrite Hm. }
    by erewrite bind_run by (by apply RefineTypeKnowledge_run).
  - intros types Htypes.
    unfold bind at 1, gets at 1. rewrite Hfirst.
    simpl in Htypes.
    destruct (ResolveAliases graph_ input0) as [r0|] eqn:Hr0;
      simpl in Htypes; [| done].
    destruct (table_GetPredecessorValue r0 0 (types_table_ s))
      as [first|] eqn:Hfirst_type; simpl in Htypes; [| done].
    destruct (phi_contributed_types graph_ (types_table_ s) inputs 1)
      as [rest|] eqn:Hrest; simpl in Htypes; [| done].
    injection Htypes as <-.
    rewrite (bind_run _ _ s r0 s) by done.
    erewrite bind_run by (by apply types_table_GetPredecessorValue_run).
    unfold phi_union.
    destruct (decide (first = kWasmVoid)) as [-> | Hvoid].
    { rewrite decide_True by set_solver. done. }
    erewrite bind_run by (by apply ProcessPhi_loop_run).
    destruct (decide (kWasmVoid ∈ rest)) as [Hin | Hnotin].
    { rewrite decide_True by set_solver. done. }
    rewrite decide_False by set_solver.
    by erewrite bind_run by (by apply RefineTypeKnowledge_run).
Qed.

Lemma StartNewSnapshotFor_branch_target s target pred predecessor snapshot :
  kind target = kBranchTarget →
  Predecessors target = [pred] →
  GetBlock graph_ pred = Some predecessor →
  block_to_snapshot_ s !! pred = Some snapshot →
  active (types_table_ s) = None →
  StartNewSnapshotFor graph_ target s =
    match LastOperation graph_ predecessor with
    | BranchOp condition if_true if_false =>
        ProcessBranchOnTarget graph_ condition if_true if_false target
          (seeded_state target snapshot s)
    | _ => Some (tt, seeded_state target snapshot s)
    end.
Proof.
  intros Hkind Hpreds Hpred Hsnap Hsealed.
  unfold StartNewSnapshotFor, HasPredecessors, IsLoop, IsBranchTarget,
    LastPredecessor.
  rewrite Hkind, Hpreds. unfold_M. simpl. rewrite Hsnap. simpl.
  unfold table_StartNewSnapshot_from, table_is_sealed. simpl.
  rewrite Hsealed, Hpred. simpl.
  by destruct (LastOperation graph_ predecessor).
Qed.

(** C5.  Let [target] be a block with the single predecessor [pred], which
    ends in a branch on the type check of [object] against [U], and let
    [known] be the type of the resolved object in the predecessor's
    snapshot, from which the snapshot of [target] starts.  If [target] is
    the true target, the object is refined with [U].  If it is the false
    target and [known] is a subtype of [U], the block is marked unreachable
    and the snapshot stays the predecessor's; if [known] is not a subtype
    of [U], the snapshot stays the predecessor's and the block is not
    marked: nothing is refined on that edge. *)
Theorem type_check_branch_target s target pred predecessor snapshot
    condition if_true if_false object U r :
  kind target = kBranchTarget →
  Predecessors target = [pred] →
  GetBlock graph_ pred = Some predecessor →
  LastOperation graph_ predecessor = BranchOp condition if_true if_false →
  Get graph_ condition = WasmTypeCheckOp object U →
  block_to_snapshot_ s !! pred = Some snapshot →
  active (types_table_ s) = None →
  current_block_ s = Some (index target) →
  ResolveAliases graph_ object = Some r →
  let seeded := seeded_state target snapshot s in
  let known := snapshot_Get snapshot r in
  (if_true = index target →
     let stored := refine_intersection known U in
     StartNewSnapshotFor graph_ target s =
       Some (tt, refined_state r stored (is_uninhabited stored) (index target)
                   snapshot seeded)) ∧
  (if_true ≠ index target → IsSubtypeOf known U = true →
     ∃ s', StartNewSnapshotFor graph_ target s = Some (tt, s') ∧
           active (types_table_ s') = Some snapshot ∧
           IsReachable s' (index target) = false ∧
           s' = set_block_is_unreachable
                  ({[index target]} ∪ block_is_unreachable_ seeded) seeded) ∧
  (if_true ≠ index target → IsSubtypeOf known U = false →
     ∃ s', StartNewSnapshotFor graph_ target s = Some (tt, s') ∧
           active (types_table_ s') = Some snapshot ∧
           IsReachable s' (index target) = true ∧
           s' = seeded).
Proof.
  intros Hkind Hpreds Hpred Hlast Hcond Hsnap Hsealed Hcur Hr seeded known.
  rewrite (StartNewSnapshotFor_branch_target s target pred predecessor snapshot)
    by done.
  rewrite Hlast. unfold ProcessBranchOnTarget. rewrite Hcond.
  assert (GetResolvedType graph_ object seeded = Some (known, seeded)) as Hknown.
  { unfold GetResolvedType. rewrite (bind_run _ _ seeded r seeded)
      by (by rewrite Hr). done. }
  split_and!.
  - intros Htrue. rewrite decide_True by done.
    by erewrite bind_run by (by apply RefineTypeKnowledge_run).
  - intros Hfalse Hsub. rewrite decide_False by done.
    rewrite (bind_run _ _ _ _ _ Hknown), Hsub.
    eexists. split_and!; [done | done | | done].
    unfold IsReachable. simpl. apply bool_decide_eq_false_2. set_solver.
  - intros Hfalse Hsub. rewrite decide_False by done.
    rewrite (bind_run _ _ _ _ _ Hknown), Hsub.
    eexists. split_and!; [done | done | | done].
    unfold IsReachable. simpl. apply bool_decide_eq_true_2. set_solver.
Qed.

End TransferFunctions.

(** ** Merging predecessor snapshots *)

Section Merge.
Context `{O : TypeOracle} `{I : AnalyzerIterator}.
Implicit Types (s : State) (m : Snapshot) (l : list (bool * ValueType)).

(** *** The callback *)

Lemma merge_rest_spec first l res e :
  merge_rest first l res e =
    (foldl merge_accumulate res (merge_live l),
     e && forallb (λ t, bool_decide (first = t)) (merge_live l)).
Proof.
  revert res e. unfold merge_live.
  induction l as [|[r t] l IH]; intros res e; simpl.
  - by rewrite andb_true_r.
  - destruct r; simpl.
    + destruct (decide (t = kWasmBottom)) as [-> | Hne].
      * rewrite filter_cons_False by (simpl; naive_solver). apply IH.
      * rewrite filter_cons_True by done. simpl.
        change (merge_accumulate res t)
          with (if decide (res = kWasmVoid ∨ t = kWasmVoid) then kWasmVoid
                else Union res t).
        destruct (decide (res = kWasmVoid ∨ t = kWasmVoid));
          rewrite IH; by rewrite andb_assoc.
    + rewrite filter_cons_False by (simpl; naive_solver). apply IH.
Qed.

Lemma merge_first_spec l :
  match merge_live l with
  | [] => merge_first l = (kWasmBottom, [])
  | first :: rest =>
      ∃ l', merge_first l = (first, l') ∧ merge_live l' = rest
  end.
Proof.
  unfold merge_live. induction l as [|[r t] l IH]; simpl; [done |].
  destruct r; simpl.
  - destruct (decide (t = kWasmBottom)) as [-> | Hne].
    + rewrite bool_decide_eq_false_2 by naive_solver.
      by rewrite filter_cons_False by (simpl; naive_solver).
    + rewrite bool_decide_eq_true_2 by done.
      rewrite filter_cons_True by done. simpl. eauto.
  - by rewrite filter_cons_False by (simpl; naive_solver).
Qed.

(** The callback returns the union of the types that take part, and clears
    [types_are_equivalent] when one of them differs from the first. *)
Lemma merge_callback_spec reachable key predecessors e :
  merge_callback reachable key predecessors e =
    (merge_union (merge_live (zip reachable predecessors)),
     e && match merge_live (zip reachable predecessors) with
          | [] => true
          | first :: rest => forallb (λ t, bool_decide (first = t)) rest
          end).
Proof.
  unfold merge_callback.
  pose proof (merge_first_spec (zip reachable predecessors)) as H.
  destruct (merge_live (zip reachable predecessors)) as [|first rest].
  - rewrite H. simpl. by rewrite andb_true_r.
  - destruct H as (l' & -> & <-). by rewrite merge_rest_spec.
Qed.

(** *** The table *)

Lemma merge_fold_spec (predecessors : list Snapshot) (reachable : list bool)
    (keys : list nat) (e : bool) :
  foldr (λ key '(m, a),
           let '(value, a') :=
             merge_callback reachable key
               ((λ p, snapshot_Get p key) <$> predecessors) a in
           (<[key := value]> m, a'))
        ((∅ : Snapshot), e) keys =
    ((list_to_map
       ((λ key, (key, merge_union
                        (merge_live (merge_inputs predecessors reachable key))))
          <$> keys) : Snapshot),
     e && forallb (key_equivalent predecessors reachable) keys).
Proof.
  induction keys as [|key keys IH]; simpl.
  - by rewrite andb_true_r.
  - rewrite IH, merge_callback_spec. unfold key_equivalent, merge_inputs.
    f_equal. rewrite <- !andb_assoc. f_equal. apply andb_comm.
Qed.

Lemma table_StartNewSnapshot_merge_spec (predecessors : list Snapshot)
    (reachable : list bool) t :
  active t = None →
  table_StartNewSnapshot_merge predecessors (merge_callback reachable) true t =
    Some (forallb (key_equivalent predecessors reachable)
            (elements (merge_keys predecessors)),
          {| active := Some (merged_snapshot predecessors reachable);
             merge_predecessors := predecessors |}).
Proof.
  intros Hsealed. unfold table_StartNewSnapshot_merge, table_is_sealed.
  rewrite Hsealed, merge_fold_spec. done.
Qed.

Lemma CreateMergeSnapshot_run s (predecessors : list Snapshot)
    (reachable : list bool) :
  active (types_table_ s) = None →
  CreateMergeSnapshot predecessors reachable s =
    Some (negb (forallb (key_equivalent predecessors reachable)
                  (elements (merge_keys predecessors))),
          set_types_table
            {| active := Some (merged_snapshot predecessors reachable);
               merge_predecessors := predecessors |} s).
Proof.
  intros Hsealed. unfold CreateMergeSnapshot. unfold_M.
  by rewrite table_StartNewSnapshot_merge_spec.
Qed.

Lemma lookup_list_to_map_keys {A} (f : nat → A) (keys : list nat) key :
  (list_to_map ((λ k, (k, f k)) <$> keys) : gmap nat A) !! key =
    if decide (key ∈ keys) then Some (f key) else None.
Proof.
  induction keys as [|k keys IH].
  - rewrite decide_False by set_solver. apply lookup_empty.
  - rewrite fmap_cons, list_to_map_cons, lookup_insert.
    destruct (decide (k = key)) as [-> | Hne].
    + by rewrite decide_True by set_solver.
    + rewrite IH. do 2 case_decide; set_solver.
Qed.

Lemma snapshot_Get_merged (predecessors : list Snapshot)
    (reachable : list bool) key :
  snapshot_Get (merged_snapshot predecessors reachable) key =
    if decide (key ∈ merge_keys predecessors)
    then merge_union (merge_live (merge_inputs predecessors reachable key))
    else kWasmVoid.
Proof.
  unfold snapshot_Get, merged_snapshot. rewrite lookup_list_to_map_keys.
  do 2 case_decide; set_solver.
Qed.

Lemma elem_of_merge_keys (predecessors : list Snapshot) key :
  key ∈ merge_keys predecessors ↔
  ∃ p, p ∈ predecessors ∧ is_Some (p !! key).
Proof.
  unfold merge_keys. rewrite elem_of_union_list. split.
  - intros (X & (p & -> & Hp)%list_elem_of_fmap & Hkey).
    exists p. split; [done |]. by apply elem_of_dom.
  - intros (p & Hp & Hkey). exists (dom p). split.
    + apply list_elem_of_fmap. eauto.
    + by apply elem_of_dom.
Qed.

(** Outside the keys of the merge no predecessor knows a type. *)
Lemma merge_live_outside_keys (predecessors : list Snapshot)
    (reachable : list bool) key t :
  key ∉ merge_keys predecessors →
  t ∈ merge_live (merge_inputs predecessors reachable key) →
  t = kWasmVoid.
Proof.
  intros Hkey. unfold merge_live, merge_inputs.
  intros ([r t'] & -> & [_ Hin%elem_of_zip_r]%list_elem_of_filter)%list_elem_of_fmap.
  apply list_elem_of_fmap in Hin as (p & -> & Hp). simpl.
  unfold snapshot_Get. destruct (p !! key) eqn:Hlookup; [| done].
  exfalso. apply Hkey, elem_of_merge_keys. eauto.
Qed.

Lemma key_equivalent_false (predecessors : list Snapshot)
    (reachable : list bool) key :
  key_equivalent predecessors reachable key = false ↔
  ∃ t1 t2,
    t1 ∈ merge_live (merge_inputs predecessors reachable key) ∧
    t2 ∈ merge_live (merge_inputs predecessors reachable key) ∧
    t1 ≠ t2.
Proof.
  unfold key_equivalent.
  destruct (merge_live _) as [|first rest].
  - split; [done |]. intros (t1 & _ & Hin & _). inversion Hin.
  - rewrite <- not_true_iff_false, forallb_forall. split.
    + intros Hnot.
      destruct (decide (Forall (λ t, first = t) rest)) as [Hall | Hex].
      * destruct Hnot. intros t Hin%list_elem_of_In.
        apply bool_decide_eq_true_2. by eapply Forall_forall in Hall.
      * apply not_Forall_Exists, Exists_exists in Hex as (t & Hin & Hne);
          [| solve_decision].
        exists first, t. set_solver.
    + intros (t1 & t2 & Hin1 & Hin2 & Hne) Hall.
      assert (∀ t, t ∈ first :: rest → t = first) as Heq.
      { intros t [-> | Hin%list_elem_of_In]%elem_of_cons; [done |].
        apply Hall, bool_decide_eq_true_1 in Hin. done. }
      rewrite (Heq t1), (Heq t2) in Hne; done.
Qed.

Lemma merge_flag_iff (predecessors : list Snapshot) (reachable : list bool) :
  negb (forallb (key_equivalent predecessors reachable)
          (elements (merge_keys predecessors))) = true ↔
  ∃ key t1 t2,
    t1 ∈ merge_live (merge_inputs predecessors reachable key) ∧
    t2 ∈ merge_live (merge_inputs predecessors reachable key) ∧
    t1 ≠ t2.
Proof.
  rewrite negb_true_iff, <- not_true_iff_false, forallb_forall. split.
  - intros Hnot.
    destruct (decide (Forall (λ key, key_equivalent predecessors reachable key
                                     = true)
                        (elements (merge_keys predecessors)))) as [Hall | Hex].
    + destruct Hnot. intros key Hin%list_elem_of_In.
      by eapply Forall_forall in Hall.
    + apply not_Forall_Exists, Exists_exists in Hex as (key & _ & Hne);
        [| solve_decision].
      exists key. by apply key_equivalent_false, not_true_iff_false.
  - intros (key & Hdiffer) Hall.
    destruct (decide (key ∈ merge_keys predecessors)) as [Hin | Hout].
    + apply key_equivalent_false in Hdiffer.
      rewrite Hall in Hdiffer; [done |].
      by apply list_elem_of_In, elem_of_elements.
    + destruct Hdiffer as (t1 & t2 & Hin1 & Hin2 & Hne).
      apply (merge_live_outside_keys _ _ _ _ Hout) in Hin1, Hin2. congruence.
Qed.

(** For the pair of an old and a new snapshot, both reachable, the merge
    tells them apart exactly when they conflict. *)
Lemma merge_flag_pair (old_snapshot snapshot : Snapshot) :
  negb (forallb (key_equivalent [old_snapshot; snapshot] [true; true])
          (elements (merge_keys [old_snapshot; snapshot]))) = true ↔
  snapshots_conflict old_snapshot snapshot.
Proof.
  rewrite merge_flag_iff. unfold snapshots_conflict.
  apply exist_proper. intros key.
  unfold merge_inputs, merge_live. simpl.
  set (a := snapshot_Get old_snapshot key).
  set (b := snapshot_Get snapshot key).
  split.
  - intros (t1 & t2 & Hin1 & Hin2 & Hne).
    destruct (decide (a = kWasmBottom)), (decide (b = kWasmBottom));
      [rewrite !filter_cons_False in Hin1, Hin2 by naive_solver
      |rewrite filter_cons_False, filter_cons_True in Hin1, Hin2
         by naive_solver
      |rewrite filter_cons_True, filter_cons_False in Hin1, Hin2
         by naive_solver
      |rewrite !filter_cons_True in Hin1, Hin2 by naive_solver];
      simpl in *; set_solver.
  - intros (Ha & Hb & Hne). exists a, b.
    rewrite !filter_cons_True by naive_solver. simpl. set_solver.
Qed.

(** C2 (amended).  The boolean [CreateMergeSnapshot] returns does not
    compare with an earlier merge: it is true exactly when, for some key,
    two of the types that take part in this merge (the types of the
    reachable predecessors that are not bottom) differ. *)
Theorem CreateMergeSnapshot_returns s (predecessors : list Snapshot)
    (reachable : list bool) :
  active (types_table_ s) = None →
  ∃ needs_revisit s',
    CreateMergeSnapshot predecessors reachable s = Some (needs_revisit, s') ∧
    (needs_revisit = true ↔
     ∃ key t1 t2,
       t1 ∈ merge_live (merge_inputs predecessors reachable key) ∧
       t2 ∈ merge_live (merge_inputs predecessors reachable key) ∧
       t1 ≠ t2).
Proof.
  intros Hsealed. eexists _, _. split; [by apply CreateMergeSnapshot_run |].
  apply merge_flag_iff.
Qed.

(** *** Independence of the order of the predecessors *)

Section OrderIndependence.
Hypothesis Union_comm : ∀ a b, Union a b = Union b a.
Hypothesis Union_assoc : ∀ a b c, Union a (Union b c) = Union (Union a b) c.
Hypothesis Union_known :
  ∀ a b, a ≠ kWasmVoid → b ≠ kWasmVoid → Union a b ≠ kWasmVoid.

Lemma merge_accumulate_comm a b :
  merge_accumulate a b = merge_accumulate b a.
Proof.
  unfold merge_accumulate. rewrite (Union_comm a b).
  do 2 case_decide; naive_solver.
Qed.

Lemma merge_accumulate_void_l a : merge_accumulate kWasmVoid a = kWasmVoid.
Proof. unfold merge_accumulate. rewrite decide_True; auto. Qed.

Lemma merge_accumulate_void_r a : merge_accumulate a kWasmVoid = kWasmVoid.
Proof. unfold merge_accumulate. rewrite decide_True; auto. Qed.

Lemma merge_accumulate_known a b :
  a ≠ kWasmVoid → b ≠ kWasmVoid →
  merge_accumulate a b = Union a b ∧ merge_accumulate a b ≠ kWasmVoid.
Proof.
  intros Ha Hb. unfold merge_accumulate.
  rewrite decide_False by naive_solver. auto.
Qed.

Lemma merge_accumulate_assoc a b c :
  merge_accumulate (merge_accumulate a b) c =
  merge_accumulate a (merge_accumulate b c).
Proof.
  destruct (decide (a = kWasmVoid)) as [-> | Ha].
  { by rewrite !merge_accumulate_void_l. }
  destruct (decide (b = kWasmVoid)) as [-> | Hb].
  { by rewrite merge_accumulate_void_r, !merge_accumulate_void_l,
      merge_accumulate_void_r. }
  destruct (decide (c = kWasmVoid)) as [-> | Hc].
  { by rewrite !merge_accumulate_void_r. }
  destruct (merge_accumulate_known a b Ha Hb) as [Hab Hab'].
  destruct (merge_accumulate_known b c Hb Hc) as [Hbc Hbc'].
  rewrite (proj1 (merge_accumulate_known _ c Hab' Hc)).
  rewrite (proj1 (merge_accumulate_known a _ Ha Hbc')).
  by rewrite Hab, Hbc, Union_assoc.
Qed.

Lemma foldl_merge_accumulate_perm a (live live' : list ValueType) :
  live ≡ₚ live' →
  foldl merge_accumulate a live = foldl merge_accumulate a live'.
Proof.
  intros Hperm. revert a.
  induction Hperm as [|x l l' _ IH|x y l|l l' l'' _ IH1 _ IH2]; intros a; simpl.
  - done.
  - apply IH.
  - f_equal. rewrite !merge_accumulate_assoc.
    by rewrite (merge_accumulate_comm y x).
  - by rewrite IH1.
Qed.

Lemma merge_union_perm (live live' : list ValueType) :
  live ≡ₚ live' → merge_union live = merge_union live'.
Proof.
  induction 1 as [|x l l' Hperm _|x y l|l l' l'' _ IH1 _ IH2]; simpl.
  - done.
  - by apply foldl_merge_accumulate_perm.
  - by rewrite merge_accumulate_comm.
  - by rewrite IH1.
Qed.

Lemma merge_live_perm l l' : l ≡ₚ l' → merge_live l ≡ₚ merge_live l'.
Proof. intros Hperm. unfold merge_live. by rewrite Hperm. Qed.

Lemma merge_inputs_pairs (pairs : list (bool * Snapshot)) key :
  merge_inputs pairs.*2 pairs.*1 key =
    (λ rp, (rp.1, snapshot_Get rp.2 key)) <$> pairs.
Proof.
  unfold merge_inputs. induction pairs as [|[r p] pairs IH]; simpl; [done |].
  f_equal. exact IH.
Qed.

Lemma merge_keys_perm (predecessors predecessors' : list Snapshot) key :
  predecessors ≡ₚ predecessors' →
  key ∈ merge_keys predecessors ↔ key ∈ merge_keys predecessors'.
Proof.
  intros Hperm. rewrite !elem_of_merge_keys.
  by setoid_rewrite Hperm.
Qed.

(** The merged type of every key is the same for the predecessors in
    another order. *)
Lemma merged_snapshot_perm (pairs pairs' : list (bool * Snapshot)) key :
  pairs ≡ₚ pairs' →
  snapshot_Get (merged_snapshot pairs.*2 pairs.*1) key =
  snapshot_Get (merged_snapshot pairs'.*2 pairs'.*1) key.
Proof.
  intros Hperm. rewrite !snapshot_Get_merged.
  assert (pairs.*2 ≡ₚ pairs'.*2) as Hpreds by (by rewrite Hperm).
  pose proof (merge_keys_perm _ _ key Hpreds) as Hkeys.
  rewrite !merge_inputs_pairs.
  destruct (decide (key ∈ merge_keys pairs.*2)) as [Hin | Hout].
  - rewrite decide_True by (by apply Hkeys).
    apply merge_union_perm, merge_live_perm. by rewrite Hperm.
  - rewrite decide_False by (by rewrite <- Hkeys). done.
Qed.

End OrderIndependence.

(** *** The merge for a block *)

Lemma collect_predecessors_run s (predecessors : list nat) :
  (∀ p, p ∈ predecessors → is_Some (block_to_snapshot_ s !! p)) →
  collect_predecessors predecessors s =
    Some (((predecessor_input s <$> predecessors).*2,
           (predecessor_input s <$> predecessors).*1), s).
Proof.
  induction predecessors as [|p ps IH]; intros Hsnaps; simpl; [done |].
  destruct (Hsnaps p) as [snapshot Hsnapshot]; [set_solver |].
  unfold_M. rewrite Hsnapshot. simpl.
  rewrite IH by set_solver. simpl.
  done.
Qed.

Lemma CreateMergeSnapshot_block_run s block :
  (∀ p, p ∈ Predecessors block → is_Some (block_to_snapshot_ s !! p)) →
  active (types_table_ s) = None →
  let pairs := predecessor_input s <$> Predecessors block in
  CreateMergeSnapshot_block block s =
    Some (tt, set_types_table
                {| active := Some (merged_snapshot pairs.*2 pairs.*1);
                   merge_predecessors := pairs.*2 |} s).
Proof.
  intros Hsnaps Hsealed pairs. unfold CreateMergeSnapshot_block.
  erewrite bind_run.
  2:{ apply collect_predecessors_run. unfold PredecessorsIterable.
      intros p Hp. rewrite elem_of_reverse in Hp. auto. }
  unfold PredecessorsIterable.
  rewrite !fmap_reverse, !reverse_involutive.
  erewrite bind_run by (by apply CreateMergeSnapshot_run). done.
Qed.

End Merge.

(** ** The driver *)

Section Driver.
Context `{O : TypeOracle} `{I : AnalyzerIterator}.
Variable graph_ : Graph.
Variable signature_ : list ValueType.
Variable module_functions_sig_index : list nat.
Implicit Types (s : State) (block : Block).

Lemma StartNewSnapshotFor_merge s block :
  kind block = kMerge →
  Predecessors block ≠ [] →
  StartNewSnapshotFor graph_ block s =
    CreateMergeSnapshot_block block (reset_state block s).
Proof.
  intros Hkind Hpreds.
  unfold StartNewSnapshotFor, HasPredecessors, IsLoop, IsBranchTarget.
  rewrite Hkind. by destruct (Predecessors block).
Qed.

(** C6.  A merge block (two or more predecessors, not a loop header)
    starts its snapshot with the same type for every key whatever the order
    of its predecessors: for a block with the same predecessors in another
    order, each with its snapshot and its reachability, [get] returns the
    same type for every key.  The union of the oracle is commutative and
    associative and gives a known type for known types. *)
Theorem merge_block_order_independent s block block' :
  (∀ a b, Union a b = Union b a) →
  (∀ a b c, Union a (Union b c) = Union (Union a b) c) →
  (∀ a b, a ≠ kWasmVoid → b ≠ kWasmVoid → Union a b ≠ kWasmVoid) →
  kind block = kMerge →
  kind block' = kMerge →
  index block' = index block →
  2 ≤ length (Predecessors block) →
  Predecessors block ≡ₚ Predecessors block' →
  active (types_table_ s) = None →
  (∀ p, p ∈ Predecessors block → is_Some (block_to_snapshot_ s !! p)) →
  ∃ s1 s2,
    StartNewSnapshotFor graph_ block s = Some (tt, s1) ∧
    StartNewSnapshotFor graph_ block' s = Some (tt, s2) ∧
    ∀ key, table_Get key (types_table_ s1) = table_Get key (types_table_ s2).
Proof.
  intros Hcomm Hassoc Hknown Hkind Hkind' Hindex Hlen Hperm Hsealed Hsnaps.
  assert (Predecessors block ≠ []) as Hne
    by (intros Hnil; rewrite Hnil in Hlen; simpl in Hlen; lia).
  assert (Predecessors block' ≠ []) as Hne'.
  { intros Hnil. rewrite Hnil in Hperm.
    by apply Permutation_nil_r in Hperm. }
  rewrite !StartNewSnapshotFor_merge by done.
  unfold reset_state. rewrite Hindex.
  set (s0 := set_block_is_unreachable _ _).
  rewrite !CreateMergeSnapshot_block_run;
    [| by intros p Hp; apply Hsnaps; rewrite Hperm | done | done | done ].
  eexists _, _. split_and!; [done | done |].
  intros key. unfold table_Get. simpl. f_equal.
  apply merged_snapshot_perm; [done | done | done |]. by rewrite Hperm.
Qed.

(** *** What processing a block leaves alone

    Only [Run] itself records snapshots and moves the iterator. *)

Lemma preserves_ret {A} (a : A) : preserves_driver_state (ret a).
Proof. by intros s a' s' [= <- <-]. Qed.

Lemma preserves_fail {A} : preserves_driver_state (@fail O I A).
Proof. by intros s a s'. Qed.

Lemma preserves_gets {A} (f : State → A) : preserves_driver_state (gets f).
Proof. by intros s a' s' [= <- <-]. Qed.

Lemma preserves_optional_value {A} (o : option A) :
  preserves_driver_state (optional_value o).
Proof. destruct o; [apply preserves_ret | apply preserves_fail]. Qed.

Lemma preserves_modify (f : State → State) :
  (∀ s, iterator (f s) = iterator s ∧
        block_to_snapshot_ (f s) = block_to_snapshot_ s) →
  preserves_driver_state (modify f).
Proof. intros Hf s a s' [= <- <-]. apply Hf. Qed.

Lemma preserves_with_table f : preserves_driver_state (with_table f).
Proof.
  intros s a s'. unfold with_table.
  destruct (f (types_table_ s)); [| done]. by intros [= <- <-].
Qed.

Lemma preserves_bind {A B} (c : M A) (k : A → M B) :
  preserves_driver_state c →
  (∀ a, preserves_driver_state (k a)) →
  preserves_driver_state (bind c k).
Proof.
  intros Hc Hk s b s'. unfold bind.
  destruct (c s) as [[a s1]|] eqn:Hrun; [| done].
  intros Hrun'. destruct (Hc _ _ _ Hrun) as [<- <-]. by eapply Hk.
Qed.

Create HintDb preserves.

#[local] Hint Resolve preserves_ret preserves_fail preserves_gets
  preserves_optional_value preserves_with_table : preserves.

Ltac preserves_step :=
  first
    [ apply preserves_bind; [| intros ?]
    | apply preserves_modify; done
    | solve [auto with preserves]
    | match goal with
      | |- preserves_driver_state (match ?x with _ => _ end) => destruct x
      | |- preserves_driver_state (if ?x then _ else _) => destruct x
      end ].

Ltac preserves := repeat preserves_step.

Lemma preserves_types_table_Get key :
  preserves_driver_state (types_table_Get key).
Proof. unfold types_table_Get. preserves. Qed.

Lemma preserves_types_table_Set key v :
  preserves_driver_state (types_table_Set key v).
Proof. unfold types_table_Set. preserves. Qed.

Lemma preserves_types_table_GetPredecessorValue key i :
  preserves_driver_state (types_table_GetPredecessorValue key i).
Proof. unfold types_table_GetPredecessorValue. preserves. Qed.

Lemma preserves_block_is_unreachable_Add id :
  preserves_driver_state (block_is_unreachable_Add id).
Proof. unfold block_is_unreachable_Add. preserves. Qed.

Lemma preserves_block_is_unreachable_Remove id :
  preserves_driver_state (block_is_unreachable_Remove id).
Proof. unfold block_is_unreachable_Remove. preserves. Qed.

Lemma preserves_record_input_type idx t :
  preserves_driver_state (record_input_type idx t).
Proof. unfold record_input_type. preserves. Qed.

#[local] Hint Resolve preserves_types_table_Get preserves_types_table_Set
  preserves_types_table_GetPredecessorValue preserves_block_is_unreachable_Add
  preserves_block_is_unreachable_Remove preserves_record_input_type
  : preserves.

Lemma preserves_GetResolvedType object :
  preserves_driver_state (GetResolvedType graph_ object).
Proof. unfold GetResolvedType. preserves. Qed.

Lemma preserves_RefineTypeKnowledge object new_type :
  preserves_driver_state (RefineTypeKnowledge graph_ object new_type).
Proof. unfold RefineTypeKnowledge. preserves. Qed.

Lemma preserves_RefineTypeKnowledgeNotNull object :
  preserves_driver_state (RefineTypeKnowledgeNotNull graph_ object).
Proof. unfold RefineTypeKnowledgeNotNull. preserves. Qed.

#[local] Hint Resolve preserves_GetResolvedType preserves_RefineTypeKnowledge
  preserves_RefineTypeKnowledgeNotNull : preserves.

Lemma preserves_ProcessPhi_loop inputs i union_type :
  preserves_driver_state (ProcessPhi_loop graph_ inputs i union_type).
Proof.
  revert i union_type.
  induction inputs as [|input inputs IH]; intros i union_type; simpl;
    preserves.
Qed.

#[local] Hint Resolve preserves_ProcessPhi_loop : preserves.

Lemma preserves_ProcessBranchOnTarget condition if_true if_false target :
  preserves_driver_state
    (ProcessBranchOnTarget graph_ condition if_true if_false target).
Proof. unfold ProcessBranchOnTarget. preserves. Qed.

Lemma preserves_ProcessOperation op_idx :
  preserves_driver_state
    (ProcessOperation graph_ signature_ module_functions_sig_index op_idx).
Proof.
  unfold ProcessOperation, ProcessTypeCast, ProcessTypeCheck,
    ProcessAssertNotNull, ProcessNull, ProcessIsNull, ProcessParameter,
    ProcessStructGet, ProcessStructSet, ProcessArrayLength, ProcessGlobalGet,
    ProcessRefFunc, ProcessAllocateArray, ProcessAllocateStruct,
    rtt_type_index, ProcessPhi, ProcessTypeAnnotation.
  preserves.
Qed.

Lemma preserves_ProcessOperations_loop op_indices :
  preserves_driver_state
    (ProcessOperations_loop graph_ signature_ module_functions_sig_index
       op_indices).
Proof.
  induction op_indices as [|op_idx rest IH]; simpl; preserves.
  apply preserves_ProcessOperation.
Qed.

Lemma preserves_CreateMergeSnapshot predecessors reachable :
  preserves_driver_state (CreateMergeSnapshot predecessors reachable).
Proof. unfold CreateMergeSnapshot. preserves. Qed.

Lemma preserves_collect_predecessors predecessors :
  preserves_driver_state (collect_predecessors predecessors).
Proof. induction predecessors as [|p ps IH]; simpl; preserves. Qed.

#[local] Hint Resolve preserves_ProcessBranchOnTarget
  preserves_ProcessOperations_loop preserves_CreateMergeSnapshot
  preserves_collect_predecessors : preserves.

Lemma preserves_CreateMergeSnapshot_block block :
  preserves_driver_state (CreateMergeSnapshot_block block).
Proof. unfold CreateMergeSnapshot_block. preserves. Qed.

#[local] Hint Resolve preserves_CreateMergeSnapshot_block : preserves.

Lemma preserves_StartNewSnapshotFor block :
  preserves_driver_state (StartNewSnapshotFor graph_ block).
Proof. unfold StartNewSnapshotFor. preserves. Qed.

Lemma preserves_ProcessBlock block :
  preserves_driver_state
    (ProcessBlock graph_ signature_ module_functions_sig_index block).
Proof.
  pose proof preserves_StartNewSnapshotFor.
  unfold ProcessBlock, ProcessOperations. preserves.
Qed.

(** *** The loop protocol *)

Lemma types_table_Seal_run s snapshot :
  active (types_table_ s) = Some snapshot →
  types_table_Seal s =
    Some (snapshot,
          set_types_table {| active := None; merge_predecessors := [] |} s).
Proof. intros Hactive. unfold_M. by rewrite Hactive. Qed.

Lemma ReprocessLoopHeader_run s loop_header s1 old_snapshot snapshot :
  ProcessBlock graph_ signature_ module_functions_sig_index loop_header s =
    Some (tt, s1) →
  block_to_snapshot_ s1 !! index loop_header = Some old_snapshot →
  active (types_table_ s1) = Some snapshot →
  let sealed :=
    set_types_table {| active := None; merge_predecessors := [] |} s1 in
  ReprocessLoopHeader graph_ signature_ module_functions_sig_index loop_header
    s =
    Some (tt,
          if negb (forallb (key_equivalent [old_snapshot; snapshot] [true; true])
                     (elements (merge_keys [old_snapshot; snapshot])))
          then set_iterator (MarkLoopForRevisitSkipHeader (iterator s1))
                 (set_block_to_snapshot
                    (<[index loop_header := snapshot]> (block_to_snapshot_ s1))
                    sealed)
          else sealed).
Proof.
  intros Hprocess Hold Hactive sealed. unfold ReprocessLoopHeader.
  rewrite (bind_run _ _ _ _ _ Hprocess).
  rewrite (bind_run _ _ s1 (Some old_snapshot) s1)
    by (unfold gets; by rewrite Hold).
  rewrite (bind_run _ _ s1 old_snapshot s1) by done.
  erewrite bind_run by (by apply types_table_Seal_run).
  erewrite bind_run by (by apply CreateMergeSnapshot_run).
  erewrite bind_run by (by apply types_table_Seal_run).
  by destruct (negb _).
Qed.

(** C1 (amended).  Let [block] end in a goto to the loop header
    [loop_header], be its last predecessor and be reachable once its
    snapshot is sealed.  Then the driver processes the header again, seals
    the snapshot [snapshot] this gives, merges it with the snapshot
    [old_snapshot] recorded for the header and drops the merged snapshot.
    If the merge tells the two apart (some key has a type in each, neither
    bottom, and the two differ), [snapshot] becomes the recorded snapshot
    of the header and the iterator is told once to revisit the loop without
    its header; if not, the recorded snapshots and the iterator stay as
    they were. *)
Theorem loop_revisit_protocol s block destination loop_header s1
    old_snapshot snapshot :
  LastOperation graph_ block = GotoOp destination →
  GetBlock graph_ destination = Some loop_header →
  IsLoop loop_header = true →
  LastPredecessor loop_header = Some (index block) →
  IsReachable s (index block) = true →
  block_to_snapshot_ s !! index loop_header = Some old_snapshot →
  ProcessBlock graph_ signature_ module_functions_sig_index loop_header s =
    Some (tt, s1) →
  active (types_table_ s1) = Some snapshot →
  ∃ s',
    ConsiderLoopReprocessing graph_ signature_ module_functions_sig_index
      block s = Some (tt, s') ∧
    active (types_table_ s') = None ∧
    (snapshots_conflict old_snapshot snapshot →
       block_to_snapshot_ s' =
         <[index loop_header := snapshot]> (block_to_snapshot_ s) ∧
       iterator s' = MarkLoopForRevisitSkipHeader (iterator s)) ∧
    (¬ snapshots_conflict old_snapshot snapshot →
       block_to_snapshot_ s' = block_to_snapshot_ s ∧
       iterator s' = iterator s).
Proof.
  intros Hlast Hdest Hloop Hpred Hreach Hold Hprocess Hactive.
  destruct (preserves_ProcessBlock _ _ _ _ Hprocess) as [Hit Hsnaps].
  unfold ConsiderLoopReprocessing. rewrite Hlast. unfold_M.
  rewrite Hreach, Hdest, Hloop.
  rewrite bool_decide_eq_true_2 by done. simpl.
  erewrite ReprocessLoopHeader_run; [| done | by rewrite Hsnaps | done].
  eexists. split; [done |].
  pose proof (merge_flag_pair old_snapshot snapshot) as Hflag.
  destruct (negb _).
  - split_and!; [done | | ].
    + intros _. simpl. by rewrite Hsnaps, Hit.
    + intros Hno. destruct Hno. by apply Hflag.
  - split_and!; [done | |].
    + intros Hconflict. apply Hflag in Hconflict. done.
    + intros _. simpl. by rewrite Hsnaps, Hit.
Qed.

(** C10.  The loop step at the end of the body of [Run] does nothing for a
    block that is marked unreachable, for a block that does not end in a
    goto, and for a goto whose destination is not a loop header or has
    another last predecessor; the header is re-processed only from a
    reachable block that ends in a goto to it and is its last predecessor.
    In particular, when the block is marked unreachable once its snapshot
    is sealed, the whole body of [Run] is the processing and sealing of the
    block. *)
Theorem loop_step_needs_reachable_back_edge s block :
  (IsReachable s (index block) = false →
     ConsiderLoopReprocessing graph_ signature_ module_functions_sig_index
       block s = Some (tt, s)) ∧
  ((∀ destination, LastOperation graph_ block ≠ GotoOp destination) →
     ConsiderLoopReprocessing graph_ signature_ module_functions_sig_index
       block s = Some (tt, s)) ∧
  (∀ destination loop_header,
     LastOperation graph_ block = GotoOp destination →
     GetBlock graph_ destination = Some loop_header →
     IsLoop loop_header = false ∨
       LastPredecessor loop_header ≠ Some (index block) →
     ConsiderLoopReprocessing graph_ signature_ module_functions_sig_index
       block s = Some (tt, s)) ∧
  (∀ destination loop_header,
     LastOperation graph_ block = GotoOp destination →
     GetBlock graph_ destination = Some loop_header →
     IsLoop loop_header = true →
     LastPredecessor loop_header = Some (index block) →
     IsReachable s (index block) = true →
     ConsiderLoopReprocessing graph_ signature_ module_functions_sig_index
       block s =
     ReprocessLoopHeader graph_ signature_ module_functions_sig_index
       loop_header s) ∧
  (∀ s0,
     ProcessAndSeal graph_ signature_ module_functions_sig_index block s0 =
       Some (tt, s) →
     IsReachable s (index block) = false →
     Run_body graph_ signature_ module_functions_sig_index block s0 =
       Some (tt, s)).
Proof.
  assert (IsReachable s (index block) = false →
          ConsiderLoopReprocessing graph_ signature_
            module_functions_sig_index block s = Some (tt, s)) as Hdead.
  { intros Hdead. unfold ConsiderLoopReprocessing.
    destruct (LastOperation graph_ block); try done.
    unfold_M. by rewrite Hdead. }
  split_and!.
  - done.
  - intros Hlast. unfold ConsiderLoopReprocessing.
    destruct (LastOperation graph_ block); try done. by destruct (Hlast destination).
  - intros destination loop_header Hlast Hdest Hother.
    unfold ConsiderLoopReprocessing. rewrite Hlast. unfold_M.
    destruct (IsReachable s (index block)); [| done].
    rewrite Hdest.
    destruct Hother as [-> | Hpred]; [done |].
    rewrite bool_decide_eq_false_2 by done. by rewrite andb_false_r.
  - intros destination loop_header Hlast Hdest Hloop Hpred Hreach.
    unfold ConsiderLoopReprocessing. rewrite Hlast. unfold_M.
    rewrite Hreach, Hdest, Hloop.
    by rewrite bool_decide_eq_true_2 by done.
  - intros s0 Hseal Hunreachable. unfold Run_body.
    rewrite (bind_run _ _ _ _ _ Hseal). by apply Hdead.
Qed.

End Driver.

(** ** The oracle over the generic reference types *)

Section GenericOracle.
Import WasmTypes.

Lemma generic_Union_comm (a b : VT) : Union a b = Union b a.
Proof. destruct a as [| |[]|[]], b as [| |[]|[]]; reflexivity. Qed.

Lemma generic_Union_assoc (a b c : VT) :
  Union a (Union b c) = Union (Union a b) c.
Proof.
  destruct a as [| |[]|[]], b as [| |[]|[]], c as [| |[]|[]]; reflexivity.
Qed.

Lemma generic_Union_known (a b : VT) :
  a ≠ kVoid → b ≠ kVoid → Union a b ≠ kVoid.
Proof. destruct a as [| |[]|[]], b as [| |[]|[]]; done. Qed.

End GenericOracle.

(** ** The properties on the example graphs *)

Section OnExamples.
Import WasmTypes Examples MoreExamples.
#[local] Existing Instance WasmTypes.oracle.
#[local] Existing Instance LoopIterator.iterator.

(** Closes an equation between closed terms by evaluating both sides. *)
Ltac by_computation :=
  lazymatch goal with
  | |- ?x = ?y => vm_cast_no_check (@eq_refl _ y)
  end.

(** An annotation of an asserted cast of a parameter resolves to the
    parameter. *)
Lemma ResolveAliases_terminates_idempotent_witness :
  alias_chain alias_graph 3 0 ∧
  ResolveAliases alias_graph 3 = Some 0 ∧
  pass_through_object (Get alias_graph 0) = None ∧
  (ResolveAliases alias_graph 3 ≫= ResolveAliases alias_graph) =
    ResolveAliases alias_graph 3.
Proof.
  assert (alias_chain alias_graph 3 0) as Hchain.
  { do 3 (eapply alias_chain_step; [reflexivity |]).
    apply alias_chain_end. reflexivity. }
  split; [exact Hchain |].
  exact (ResolveAliases_terminates_idempotent alias_graph 3 0 Hchain).
Defined.

(** Refining the annotated value with [(ref struct)] narrows the parameter
    from [(ref null any)] and returns [(ref null any)]. *)
Lemma RefineTypeKnowledge_spec_witness :
  let s := state_in_block 0 {[ 0 := kRefNull kAny ]} [] false in
  ResolveAliases alias_graph 3 = Some 0 ∧
  ∃ s',
    RefineTypeKnowledge alias_graph 3 (kRef kStruct) s =
      Some (kRefNull kAny, s') ∧
    table_Get 0 (types_table_ s') = Some (kRef kStruct) ∧
    block_is_unreachable_ s' = block_is_unreachable_ s.
Proof.
  intros s. split; [reflexivity |].
  destruct (RefineTypeKnowledge_spec alias_graph s 3 (kRef kStruct) 0
              {[ 0 := kRefNull kAny ]} 0 eq_refl eq_refl eq_refl)
    as (s' & Hrun & Hget & _ & Hset & _).
  exists s'. split_and!; [exact Hrun | exact Hget | exact Hset].
Defined.

(** The implicit null check of [array.len] on a null literal: the null
    sentinel [(ref null none)] is inhabited, the [(ref none)] stored for it
    is not, and no block is marked. *)
Lemma RefineTypeKnowledgeNotNull_spec_witness :
  let s := state_in_block 0 {[ 5 := kRefNull kNone ]} [] false in
  ToNullSentinel (kRefNull kAny) = kRefNull kNone ∧
  ∃ s',
    RefineTypeKnowledgeNotNull alias_graph 5 s = Some (kRefNull kNone, s') ∧
    table_Get 5 (types_table_ s') = Some (kRef kNone) ∧
    is_uninhabited (kRef kNone) = true ∧
    block_is_unreachable_ s' = block_is_unreachable_ s.
Proof.
  intros s. split; [reflexivity |].
  destruct (RefineTypeKnowledgeNotNull_spec alias_graph s 5 5
              {[ 5 := kRefNull kNone ]} 0 eq_refl eq_refl eq_refl)
    as (s' & Hrun & Hget & _ & _ & Hnull).
  destruct (Hnull (kRefNull kAny) eq_refl eq_refl eq_refl) as [_ Hsame].
  exists s'. split_and!; [exact Hrun | exact Hget | reflexivity | exact Hsame].
Defined.

(** A field read through the annotated value of a parameter of type
    [(ref null $0)]: nothing is known for the result, which ends with the
    declared [(ref null eq)]. *)
Lemma ProcessStructGet_spec_witness :
  let m : Snapshot := {[ 0 := kRefNull kType0 ]} in
  let s := state_in_block 0 m [] false in
  snapshot_Get m 0 = kRefNull kType0 ∧
  snapshot_Get m 4 = kVoid ∧
  ∃ s',
    ProcessOperation alias_graph [] [] 4 s = Some (tt, s') ∧
    input_type_map_ s' !! 4 = Some (kRefNull kType0) ∧
    active (types_table_ s') =
      Some (<[4 := kRefNull kEq]> (<[0 := kRef kType0]> m)) ∧
    table_Get 4 (types_table_ s') = Some (kRefNull kEq) ∧
    table_Get 0 (types_table_ s') = Some (kRef kType0).
Proof.
  intros m s. split_and!; [reflexivity | reflexivity |].
  destruct (ProcessStructGet_spec alias_graph [] [] s 4 3
              [kRefNull kEq; kRef kI31] 0 0 m 0 (kRefNull kType0)
              (kRefNull kEq) eq_refl eq_refl eq_refl eq_refl eq_refl eq_refl)
    as (s' & Hrun & Hinput & Hactive & Hresult & Hobject & _).
  assert (0 ≠ 4) as Hne by discriminate.
  exists s'.
  split_and!;
    [exact Hrun | exact Hinput | exact Hactive | exact Hresult
    | exact (proj2 (Hobject Hne)) ].
Defined.

(** C7, as stated, fails.  The header [B3] of the loop of the field read
    is processed again after [B4]; its forward edge is unreachable, so the
    snapshot starts from that of [B4], where the object [v1] is annotated
    as [(ref null $0)] and the result [v6] of the read was cast to
    [(ref i31)].  The read records [(ref null $0)] and leaves its result
    with [(ref i31)], not with the declared [(ref null eq)]. *)
Lemma field_read_keeps_narrower_result :
  let B3 := block_of stale_result_graph 3 in
  let B4 := block_of stale_result_graph 4 in
  Get stale_result_graph 6 = StructGetOp 1 [kRefNull kEq] 0 ∧
  ProcessAndSeal stale_result_graph dead_loop_signature [] B4
    stale_result_at_B4 = Some (tt, stale_result_sealed_B4) ∧
  IsReachable stale_result_sealed_B4 1 = false ∧
  IsReachable stale_result_sealed_B4 4 = true ∧
  StartNewSnapshotFor stale_result_graph B3
    (set_current_block (Some 3) stale_result_sealed_B4) =
    Some (tt, stale_result_header_started) ∧
  table_Get 1 (types_table_ stale_result_header_started) =
    Some (kRefNull kType0) ∧
  table_Get 6 (types_table_ stale_result_header_started) =
    Some (kRef kI31) ∧
  ProcessOperation stale_result_graph dead_loop_signature [] 6
    stale_result_header_started = Some (tt, stale_result_read_again) ∧
  input_type_map_ stale_result_read_again !! 6 = Some (kRefNull kType0) ∧
  table_Get 1 (types_table_ stale_result_read_again) = Some (kRef kType0) ∧
  table_Get 6 (types_table_ stale_result_read_again) = Some (kRef kI31) ∧
  kRef kI31 ≠ kRefNull kEq ∧
  ProcessBlock stale_result_graph dead_loop_signature [] B3
    stale_result_sealed_B4 = Some (tt, stale_result_header_again) ∧
  table_Get 6 (types_table_ stale_result_header_again) = Some (kRef kI31).
Proof.
  intros B3 B4. split_and!; try by_computation. discriminate.
Qed.

(** A phi of an [i31] and a struct: the first evaluation of a loop header
    takes the type of input 0, a merge takes the union [(ref eq)]. *)
Lemma ProcessPhi_spec_witness :
  let m0 : Snapshot := {[ 0 := kRef kI31 ]} in
  let first := state_in_block 1 m0 [m0] true in
  let m := merged_snapshot phi_predecessors [true; true] in
  let s := state_in_block 1 m phi_predecessors false in
  ProcessOperation phi_graph [] [] 2 first =
    Some (tt, refined_state 2 (kRef kI31) false 1 m0 first) ∧
  phi_contributed_types phi_graph (types_table_ s) [0; 1] 0 =
    Some [kRef kI31; kRef kStruct] ∧
  phi_union [kRef kI31; kRef kStruct] = Some (kRef kEq) ∧
  ProcessOperation phi_graph [] [] 2 s =
    Some (tt, refined_state 2 (kRef kEq) false 1 m s).
Proof.
  intros m0 first m s. split_and!.
  - exact (proj1 (ProcessPhi_spec phi_graph [] [] first 2 0 [1] m0 1
                    eq_refl eq_refl eq_refl) eq_refl 0 eq_refl).
  - reflexivity.
  - reflexivity.
  - exact (proj2 (ProcessPhi_spec phi_graph [] [] s 2 0 [1] m 1
                    eq_refl eq_refl eq_refl) eq_refl
             [kRef kI31; kRef kStruct] eq_refl).
Defined.

(** C4, as stated, fails.  The header [B3] of the loop of the phi is
    processed again after [B4]; its forward edge is unreachable, so the
    snapshot starts from that of [B4], which holds [(ref i31)] for the phi
    from the first evaluation.  This is not a first evaluation, and the
    back edge contributes no type knowledge for input 1: the phi is left as
    it is and keeps [(ref i31)], it does not become unknown. *)
Lemma phi_keeps_type_on_unknown_input :
  let B3 := block_of stale_phi_graph 3 in
  let B4 := block_of stale_phi_graph 4 in
  Get stale_phi_graph 5 = PhiOp [0; 6] ∧
  ProcessAndSeal stale_phi_graph dead_loop_signature [] B4 stale_phi_at_B4 =
    Some (tt, stale_phi_sealed_B4) ∧
  IsReachable stale_phi_sealed_B4 1 = false ∧
  IsReachable stale_phi_sealed_B4 4 = true ∧
  StartNewSnapshotFor stale_phi_graph B3
    (set_current_block (Some 3) stale_phi_sealed_B4) =
    Some (tt, stale_phi_header_started) ∧
  is_first_loop_header_evaluation_ stale_phi_header_started = false ∧
  phi_contributed_types stale_phi_graph (types_table_ stale_phi_header_started)
    [0; 6] 0 = Some [kRef kI31; kVoid] ∧
  table_Get 5 (types_table_ stale_phi_header_started) = Some (kRef kI31) ∧
  ProcessOperation stale_phi_graph dead_loop_signature [] 5
    stale_phi_header_started = Some (tt, stale_phi_header_started) ∧
  kRef kI31 ≠ kVoid ∧
  ProcessBlock stale_phi_graph dead_loop_signature [] B3 stale_phi_sealed_B4 =
    Some (tt, stale_phi_header_again) ∧
  table_Get 5 (types_table_ stale_phi_header_again) = Some (kRef kI31).
Proof.
  intros B3 B4. split_and!; try by_computation. discriminate.
Qed.

(** The targets of a branch on [WasmTypeCheck(v0, (ref i31))]: on the true
    target the parameter is narrowed to [(ref i31)]; the false target is
    unreachable for a parameter that is an [(ref i31)] already, and starts
    from the predecessor's snapshot, reachable, for one of type
    [(ref null any)]. *)
Lemma type_check_branch_target_witness :
  (∃ refined,
     StartNewSnapshotFor type_check_graph (block_of type_check_graph 1)
       (type_check_at_target (kRefNull kAny) 1) = Some (tt, refined) ∧
     table_Get 0 (types_table_ refined) = Some (kRef kI31)) ∧
  (IsSubtypeOf (kRef kI31) (kRef kI31) = true ∧
   ∃ dead,
     StartNewSnapshotFor type_check_graph (block_of type_check_graph 2)
       (type_check_at_target (kRef kI31) 2) = Some (tt, dead) ∧
     active (types_table_ dead) = Some {[ 0 := kRef kI31 ]} ∧
     IsReachable dead 2 = false) ∧
  (IsSubtypeOf (kRefNull kAny) (kRef kI31) = false ∧
   ∃ unrefined,
     StartNewSnapshotFor type_check_graph (block_of type_check_graph 2)
       (type_check_at_target (kRefNull kAny) 2) = Some (tt, unrefined) ∧
     active (types_table_ unrefined) = Some {[ 0 := kRefNull kAny ]} ∧
     IsReachable unrefined 2 = true).
Proof.
  split; [| split].
  - eexists. split.
    + exact (proj1 (type_check_branch_target type_check_graph
                      (type_check_at_target (kRefNull kAny) 1)
                      (block_of type_check_graph 1) 0
                      (block_of type_check_graph 0) {[ 0 := kRefNull kAny ]}
                      1 1 2 0 (kRef kI31) 0
                      eq_refl eq_refl eq_refl eq_refl eq_refl eq_refl eq_refl
                      eq_refl eq_refl) eq_refl).
    + reflexivity.
  - split; [reflexivity |].
    destruct (proj1 (proj2 (type_check_branch_target type_check_graph
                      (type_check_at_target (kRef kI31) 2)
                      (block_of type_check_graph 2) 0
                      (block_of type_check_graph 0) {[ 0 := kRef kI31 ]}
                      1 1 2 0 (kRef kI31) 0
                      eq_refl eq_refl eq_refl eq_refl eq_refl eq_refl eq_refl
                      eq_refl eq_refl)) ltac:(discriminate) eq_refl)
      as (dead & Hrun & Hactive & Hdead & _).
    exists dead. split_and!; [exact Hrun | exact Hactive | exact Hdead].
  - split; [reflexivity |].
    destruct (proj2 (proj2 (type_check_branch_target type_check_graph
                      (type_check_at_target (kRefNull kAny) 2)
                      (block_of type_check_graph 2) 0
                      (block_of type_check_graph 0) {[ 0 := kRefNull kAny ]}
                      1 1 2 0 (kRef kI31) 0
                      eq_refl eq_refl eq_refl eq_refl eq_refl eq_refl eq_refl
                      eq_refl eq_refl)) ltac:(discriminate) eq_refl)
      as (unrefined & Hrun & Hactive & Hlive & _).
    exists unrefined. split_and!; [exact Hrun | exact Hactive | exact Hlive].
Defined.

(** A merge block with the predecessors [B1; B2] and with [B2; B1]. *)
Lemma merge_block_order_independent_witness :
  Predecessors merge_block ≡ₚ Predecessors merge_block_swapped ∧
  ∃ s1 s2,
    StartNewSnapshotFor dead_loop_graph merge_block state_at_merge =
      Some (tt, s1) ∧
    StartNewSnapshotFor dead_loop_graph merge_block_swapped state_at_merge =
      Some (tt, s2) ∧
    ∀ key, table_Get key (types_table_ s1) = table_Get key (types_table_ s2).
Proof.
  assert (Predecessors merge_block ≡ₚ Predecessors merge_block_swapped)
    as Hperm by apply perm_swap.
  split; [exact Hperm |].
  apply (merge_block_order_independent dead_loop_graph state_at_merge
           merge_block merge_block_swapped
           generic_Union_comm generic_Union_assoc generic_Union_known
           eq_refl eq_refl eq_refl);
    [simpl; lia | exact Hperm | reflexivity |].
  intros p [-> | [-> | Hp]%elem_of_cons]%elem_of_cons.
  - exists {[ 0 := kRef kI31 ]}. reflexivity.
  - exists {[ 0 := kRef kStruct ]}. reflexivity.
  - inversion Hp.
Defined.

(** The merge of the two predecessors of the phi reports a difference: for
    key 0 one predecessor holds [(ref i31)] and the other nothing. *)
Lemma CreateMergeSnapshot_returns_witness :
  ∃ needs_revisit s',
    CreateMergeSnapshot phi_predecessors [true; true]
      (initial_state loop_traversal) = Some (needs_revisit, s') ∧
    (needs_revisit = true ↔
     ∃ key t1 t2,
       t1 ∈ merge_live (merge_inputs phi_predecessors [true; true] key) ∧
       t2 ∈ merge_live (merge_inputs phi_predecessors [true; true] key) ∧
       t1 ≠ t2).
Proof.
  exact (CreateMergeSnapshot_returns (initial_state loop_traversal)
           phi_predecessors [true; true] eq_refl).
Defined.

(** C2, as stated, fails.  The same two predecessor snapshots are merged
    twice at one site: the second merge computes for every key the type
    the first one produced, [(ref eq)], and returns true all the same.  And
    the merge of an old snapshot that holds bottom for a key with a new one
    that holds [(ref i31)] returns false, although it computes
    [(ref i31)]. *)
Lemma merge_flag_ignores_prior_merge :
  let s := initial_state loop_traversal in
  let predecessors : list Snapshot :=
    [ {[ 0 := kRef kI31 ]}; {[ 0 := kRef kStruct ]} ] in
  let prior : Snapshot := {[ 0 := kRef kEq ]} in
  let first_merge :=
    state_after (CreateMergeSnapshot predecessors [true; true]) s in
  let sealed := state_after types_table_Seal first_merge in
  let second_merge :=
    state_after (CreateMergeSnapshot predecessors [true; true]) sealed in
  let old_snapshot : Snapshot := {[ 0 := kBottom ]} in
  let snapshot : Snapshot := {[ 0 := kRef kI31 ]} in
  let pair_merge :=
    state_after (CreateMergeSnapshot [old_snapshot; snapshot] [true; true]) s in
  CreateMergeSnapshot predecessors [true; true] s = Some (true, first_merge) ∧
  types_table_Seal first_merge = Some (prior, sealed) ∧
  CreateMergeSnapshot predecessors [true; true] sealed =
    Some (true, second_merge) ∧
  active (types_table_ second_merge) = Some prior ∧
  CreateMergeSnapshot [old_snapshot; snapshot] [true; true] s =
    Some (false, pair_merge) ∧
  active (types_table_ pair_merge) = Some snapshot.
Proof. split_and!; by_computation. Qed.

(** In the live loop the header is processed again after [B2]: the phi
    goes from [(ref null i31)] to [(ref null eq)], the new snapshot is
    recorded and the body is scheduled once more. *)
Lemma loop_revisit_protocol_witness :
  let s := live_loop_sealed_B2 in
  let old_snapshot := default ∅ (block_to_snapshot_ s !! 1) in
  let s1 :=
    state_after (ProcessBlock dead_loop_graph live_loop_signature []
                   (block_of dead_loop_graph 1)) s in
  let snapshot := default ∅ (active (types_table_ s1)) in
  IsReachable s 2 = true ∧
  snapshots_conflict old_snapshot snapshot ∧
  ∃ s',
    ConsiderLoopReprocessing dead_loop_graph live_loop_signature []
      (block_of dead_loop_graph 2) s = Some (tt, s') ∧
    block_to_snapshot_ s' = <[1 := snapshot]> (block_to_snapshot_ s) ∧
    iterator s' = MarkLoopForRevisitSkipHeader (iterator s).
Proof.
  intros s old_snapshot s1 snapshot.
  assert (snapshots_conflict old_snapshot snapshot) as Hconflict.
  { exists 2. vm_compute. split_and!; discriminate. }
  split_and!; [by_computation | exact Hconflict |].
  destruct (loop_revisit_protocol dead_loop_graph live_loop_signature [] s
              (block_of dead_loop_graph 2) 1 (block_of dead_loop_graph 1) s1
              old_snapshot snapshot)
    as (s' & Hrun & _ & Hrevisit & _); try by_computation.
  exists s'. split; [exact Hrun |]. exact (Hrevisit Hconflict).
Defined.

(** C1, as stated, fails.  In the dead loop [B2] ends in a goto to the
    loop header [B1] and is its last predecessor, but it is marked
    unreachable: the body of [Run] for [B2] is done once [B2] is sealed.
    The header is not processed again, although that would record
    [(ref eq)] instead of [(ref i31)] for the phi and schedule [B2]
    again. *)
Lemma loop_header_not_reprocessed_from_dead_block :
  let B1 := block_of dead_loop_graph 1 in
  let B2 := block_of dead_loop_graph 2 in
  LastOperation dead_loop_graph B2 = GotoOp 1 ∧
  GetBlock dead_loop_graph 1 = Some B1 ∧
  IsLoop B1 = true ∧
  LastPredecessor B1 = Some (index B2) ∧
  Run_body dead_loop_graph dead_loop_signature [] B2 dead_loop_at_B2 =
    Some (tt, dead_loop_sealed_B2) ∧
  ConsiderLoopReprocessing dead_loop_graph dead_loop_signature [] B2
    dead_loop_sealed_B2 = Some (tt, dead_loop_sealed_B2) ∧
  ReprocessLoopHeader dead_loop_graph dead_loop_signature [] B1
    dead_loop_sealed_B2 = Some (tt, dead_loop_reprocessed) ∧
  recorded_type dead_loop_sealed_B2 1 2 = Some (kRef kI31) ∧
  recorded_type dead_loop_reprocessed 1 2 = Some (kRef kEq) ∧
  LoopIterator.pending (iterator dead_loop_sealed_B2) = [3] ∧
  LoopIterator.pending (iterator dead_loop_reprocessed) = [2; 3].
Proof. intros B1 B2. split_and!; by_computation. Qed.

(** In the cast loop the first evaluation of the header leaves bottom for
    the phi, which is an [i31] cast to a struct; processed again after
    [B2], the header ends with [(ref struct)] for it.  The merge of the two
    snapshots skips the bottom and reports no difference: the recorded
    snapshot stays the old one and nothing is scheduled. *)
Example header_change_from_bottom_not_recorded :
  IsReachable cast_loop_sealed_B2 2 = true ∧
  recorded_type cast_loop_sealed_B2 1 2 = Some kBottom ∧
  (active (types_table_ cast_loop_header_again) ≫= λ m : Snapshot, m !! 2) =
    Some (kRef kStruct) ∧
  ConsiderLoopReprocessing cast_loop_graph dead_loop_signature []
    (block_of cast_loop_graph 2) cast_loop_sealed_B2 =
    Some (tt, cast_loop_after_step) ∧
  recorded_type cast_loop_after_step 1 2 = Some kBottom ∧
  iterator cast_loop_after_step = iterator cast_loop_sealed_B2.
Proof. split_and!; by_computation. Qed.

(** In the dead loop nothing follows the sealing of [B2]; in the live loop
    the step after [B2] is the re-processing of the header. *)
Lemma loop_step_needs_reachable_back_edge_witness :
  let B1 := block_of dead_loop_graph 1 in
  let B2 := block_of dead_loop_graph 2 in
  (IsReachable dead_loop_sealed_B2 2 = false ∧
   Run_body dead_loop_graph dead_loop_signature [] B2 dead_loop_at_B2 =
     Some (tt, dead_loop_sealed_B2)) ∧
  (IsReachable live_loop_sealed_B2 2 = true ∧
   ConsiderLoopReprocessing dead_loop_graph live_loop_signature [] B2
     live_loop_sealed_B2 =
   ReprocessLoopHeader dead_loop_graph live_loop_signature [] B1
     live_loop_sealed_B2).
Proof.
  intros B1 B2. split.
  - split; [by_computation |].
    apply (proj2 (proj2 (proj2 (proj2
             (loop_step_needs_reachable_back_edge dead_loop_graph
                dead_loop_signature [] dead_loop_sealed_B2 B2))))
             dead_loop_at_B2); by_computation.
  - split; [by_computation |].
    apply (proj1 (proj2 (proj2 (proj2
             (loop_step_needs_reachable_back_edge dead_loop_graph
                live_loop_signature [] live_loop_sealed_B2 B2))))
             1 B1); by_computation.
Defined.

(** Scenario D on the live loop: the phi is [(ref null i31)] after the first
    evaluation of the header, the revisit after [B2] makes it
    [(ref null eq)], and the second time round the header comes out the
    same: [Run] ends after five turns with nothing pending. *)
Example live_loop_reaches_fixpoint :
  Run_loop dead_loop_graph live_loop_signature [] 6
    (initial_state loop_traversal) = Some (tt, live_loop_final) ∧
  Run_loop dead_loop_graph live_loop_signature [] 5
    (initial_state loop_traversal) = None ∧
  recorded_type live_loop_sealed_B2 1 2 = Some (kRefNull kI31) ∧
  recorded_type live_loop_final 1 2 = Some (kRefNull kEq) ∧
  LoopIterator.pending (iterator live_loop_final) = [].
Proof. split_and!; by_computation. Qed.

End OnExamples.

(** * Further properties of the analyzer *)

(** ** Aliases share one key *)

Section AliasSharing.
Context `{O : TypeOracle} `{I : AnalyzerIterator}.
Variable graph_ : Graph.
Variable signature_ : list ValueType.
Variable module_functions_sig_index : list nat.
Implicit Types (s : State) (m : Snapshot).

Lemma ResolveAliases_loop_more_fuel g fuel v r :
  ResolveAliases_loop fuel g v = Some r →
  ResolveAliases_loop (S fuel) g v = Some r.
Proof.
  revert v. induction fuel as [|fuel IH]; intros v; [done |].
  intros Hrun. simpl in Hrun. change (ResolveAliases_loop (S (S fuel)) g v)
    with (match pass_through_object (Get g v) with
          | Some object' => ResolveAliases_loop (S fuel) g object'
          | None => Some v
          end).
  destruct (pass_through_object (Get g v)); [by apply IH | done].
Qed.

Lemma ResolveAliases_step g v w :
  pass_through_object (Get g v) = Some w →
  ResolveAliases g v = ResolveAliases g w.
Proof.
  intros Hstep.
  destruct (ResolveAliases g w) as [r|] eqn:Hw.
  - apply ResolveAliases_complete. eapply alias_chain_step; [done |].
    by apply ResolveAliases_sound.
  - unfold ResolveAliases in *. simpl. rewrite Hstep.
    destruct (ResolveAliases_loop (length (operations g)) g w) as [r|] eqn:Hr;
      [| done].
    apply ResolveAliases_loop_more_fuel in Hr. congruence.
Qed.

(** X1.  A cast, a non-null assertion and a type annotation resolve to what
    their operand resolves to, so the analyzer reads and narrows one and
    the same entry through the operation and through its operand. *)
Theorem pass_through_shares_key idx object :
  pass_through_object (Get graph_ idx) = Some object →
  ResolveAliases graph_ idx = ResolveAliases graph_ object ∧
  (∀ s, GetResolvedType graph_ idx s = GetResolvedType graph_ object s) ∧
  (∀ new_type s,
     RefineTypeKnowledge graph_ idx new_type s =
     RefineTypeKnowledge graph_ object new_type s) ∧
  (∀ s,
     RefineTypeKnowledgeNotNull graph_ idx s =
     RefineTypeKnowledgeNotNull graph_ object s).
Proof.
  intros Hstep%ResolveAliases_step.
  unfold GetResolvedType, RefineTypeKnowledge, RefineTypeKnowledgeNotNull.
  rewrite Hstep. done.
Qed.

(** X2.  [ResolveAliases] has a result exactly when the chain of
    pass-through operations ends, and the result is the end of the chain:
    the bound on the loop never cuts a chain that ends, and a chain that
    runs in a cycle has no result. *)
Theorem ResolveAliases_result_iff_chain_ends v :
  (∀ r, ResolveAliases graph_ v = Some r ↔ alias_chain graph_ v r) ∧
  (ResolveAliases graph_ v = None ↔ ∀ r, ¬ alias_chain graph_ v r).
Proof.
  assert (∀ r, ResolveAliases graph_ v = Some r ↔ alias_chain graph_ v r)
    as Hiff.
  { intros r. split; [apply ResolveAliases_sound | apply ResolveAliases_complete]. }
  split; [done |]. split.
  - intros Hnone r Hchain%Hiff. congruence.
  - intros Hno. destruct (ResolveAliases graph_ v) as [r|] eqn:Hr; [| done].
    destruct (Hno r). by apply Hiff.
Qed.

Lemma GetResolvedType_run s object r m :
  ResolveAliases graph_ object = Some r →
  active (types_table_ s) = Some m →
  GetResolvedType graph_ object s = Some (snapshot_Get m r, s).
Proof.
  intros Hr Hm. unfold GetResolvedType. unfold_M. by rewrite Hr, Hm.
Qed.

(** X3.  A cast to [U] and a non-null assertion of type [U] record, as the
    input type of the operation, the type the object had before; after it
    the narrowed type is what the analyzer knows for the operation and for
    its object alike. *)
Theorem cast_records_input_and_narrows s idx object U r m cur :
  Get graph_ idx = WasmTypeCastOp object U ∨
    Get graph_ idx = AssertNotNullOp object U →
  ResolveAliases graph_ object = Some r →
  active (types_table_ s) = Some m →
  current_block_ s = Some cur →
  let target :=
    match Get graph_ idx with AssertNotNullOp _ _ => AsNonNull U | _ => U end in
  let stored := refine_intersection (snapshot_Get m r) target in
  ∃ s',
    ProcessOperation graph_ signature_ module_functions_sig_index idx s =
      Some (tt, s') ∧
    input_type_map_ s' !! idx = Some (snapshot_Get m r) ∧
    GetResolvedType graph_ idx s' = Some (stored, s') ∧
    GetResolvedType graph_ object s' = Some (stored, s').
Proof.
  intros Hop Hr Hm Hcur target stored.
  assert (pass_through_object (Get graph_ idx) = Some object) as Hpass
    by (destruct Hop as [-> | ->]; done).
  assert (ResolveAliases graph_ idx = Some r) as Hidx
    by (by rewrite (ResolveAliases_step _ _ _ Hpass)).
  assert (ProcessOperation graph_ signature_ module_functions_sig_index idx s =
          Some (tt, set_input_type_map
                      (<[idx := snapshot_Get m r]>
                         (input_type_map_
                            (refined_state r stored (is_uninhabited stored)
                               cur m s)))
                      (refined_state r stored (is_uninhabited stored) cur m s)))
    as Hrun.
  { unfold ProcessOperation, stored, target.
    destruct Hop as [-> | ->];
      unfold ProcessTypeCast, ProcessAssertNotNull;
      by erewrite bind_run by (by apply RefineTypeKnowledge_run). }
  eexists. split; [exact Hrun |]. split_and!.
  - apply lookup_insert_eq.
  - rewrite (GetResolvedType_run _ idx r (<[r := stored]> m)) by done.
    by rewrite snapshot_Get_insert, decide_True.
  - rewrite (GetResolvedType_run _ object r (<[r := stored]> m)) by done.
    by rewrite snapshot_Get_insert, decide_True.
Qed.

End AliasSharing.

(** ** What processing a block leaves alone *)

Section KeepsRules.
Context `{O : TypeOracle} `{I : AnalyzerIterator}.
Variable P : State → State → Prop.
Hypothesis P_refl : ∀ s, P s s.
Hypothesis P_trans : ∀ s1 s2 s3, P s1 s2 → P s2 s3 → P s1 s3.

Lemma keeps_ret {A} (a : A) : keeps P (ret a).
Proof. intros s a' s' [= <- <-]. apply P_refl. Qed.

Lemma keeps_fail {A} : keeps P (@fail O I A).
Proof. by intros s a s'. Qed.

Lemma keeps_gets {A} (f : State → A) : keeps P (gets f).
Proof. intros s a' s' [= <- <-]. apply P_refl. Qed.

Lemma keeps_optional_value {A} (o : option A) : keeps P (optional_value o).
Proof. destruct o; [apply keeps_ret | apply keeps_fail]. Qed.

Lemma keeps_modify (f : State → State) :
  (∀ s, P s (f s)) → keeps P (modify f).
Proof. intros Hf s a s' [= <- <-]. apply Hf. Qed.

Lemma keeps_bind {A B} (c : M A) (k : A → M B) :
  keeps P c → (∀ a, keeps P (k a)) → keeps P (bind c k).
Proof.
  intros Hc Hk s b s'. unfold bind.
  destruct (c s) as [[a s1]|] eqn:Hrun; [| done].
  intros Hrun'. eapply P_trans; [by eapply Hc | by eapply Hk].
Qed.

End KeepsRules.

Section OperationsFrame.
Context `{O : TypeOracle} `{I : AnalyzerIterator}.
Variable graph_ : Graph.
Variable signature_ : list ValueType.
Variable module_functions_sig_index : list nat.
Implicit Types (s : State) (recorded : list nat).

Lemma operations_frame_refl recorded s : operations_frame recorded s s.
Proof. unfold operations_frame. split_and!; auto. Qed.

Lemma operations_frame_trans recorded s1 s2 s3 :
  operations_frame recorded s1 s2 → operations_frame recorded s2 s3 →
  operations_frame recorded s1 s3.
Proof.
  unfold operations_frame.
  intros (Hc & Hf & Hi & Hb & Hp & Ha & Hu & Hm & Hr)
         (Hc' & Hf' & Hi' & Hb' & Hp' & Ha' & Hu' & Hm' & Hr').
  split_and!; try congruence; auto.
  - set_solver.
  - intros b Hb3. destruct (Hm' b Hb3) as [? | Hcur]; [auto |].
    right. congruence.
  - intros idx Hidx. rewrite Hr', Hr; auto.
Qed.

Lemma operations_frame_mono recorded recorded' s s' :
  recorded ⊆ recorded' →
  operations_frame recorded s s' → operations_frame recorded' s s'.
Proof.
  unfold operations_frame. intros Hsub (? & ? & ? & ? & ? & ? & ? & ? & Hr).
  split_and!; auto.
Qed.

Lemma frame_types_table_Get recorded key :
  keeps (operations_frame recorded) (types_table_Get key).
Proof.
  intros s a s'. unfold types_table_Get. unfold_M.
  destruct (active (types_table_ s)); simpl; [| done].
  intros [= <- <-]. apply operations_frame_refl.
Qed.

Lemma frame_types_table_GetPredecessorValue recorded key i :
  keeps (operations_frame recorded) (types_table_GetPredecessorValue key i).
Proof.
  intros s a s'. unfold types_table_GetPredecessorValue. unfold_M.
  destruct (active (types_table_ s)); simpl; [| done].
  destruct (merge_predecessors (types_table_ s) !! i); simpl; [| done].
  intros [= <- <-]. apply operations_frame_refl.
Qed.

Lemma frame_types_table_Set recorded key v :
  keeps (operations_frame recorded) (types_table_Set key v).
Proof.
  intros s a s'. unfold types_table_Set. unfold_M.
  destruct (active (types_table_ s)) eqn:Hactive; simpl; [| done].
  intros [= <- <-]. unfold operations_frame. simpl.
  split_and!; auto.
Qed.

Lemma frame_mark_current recorded :
  keeps (operations_frame recorded)
    (bind (gets current_block_)
       (λ current,
          bind (optional_value current)
            (λ current, block_is_unreachable_Add current))).
Proof.
  intros s a s'. unfold_M.
  destruct (current_block_ s) as [cur|] eqn:Hcur; simpl; [| done].
  intros [= <- <-]. unfold operations_frame. simpl.
  split_and!; auto; set_solver.
Qed.

Lemma frame_record_input_type recorded idx t :
  idx ∈ recorded →
  keeps (operations_frame recorded) (record_input_type idx t).
Proof.
  intros Hidx s a s' [= <- <-]. unfold operations_frame. simpl.
  split_and!; auto.
  intros idx' Hidx'. apply lookup_insert_ne. set_solver.
Qed.

Ltac frame :=
  repeat first
    [ match goal with H : context [keeps] |- _ => apply H end
    | apply frame_types_table_Get
    | apply frame_types_table_GetPredecessorValue
    | apply frame_types_table_Set
    | apply frame_mark_current
    | apply frame_record_input_type; assumption
    | apply (keeps_bind _ (operations_frame_trans _)); [| intros ?]
    | apply (keeps_ret _ (operations_frame_refl _))
    | apply keeps_fail
    | apply (keeps_gets _ (operations_frame_refl _))
    | apply (keeps_optional_value _ (operations_frame_refl _))
    | assumption
    | match goal with
      | |- keeps _ (match ?x with _ => _ end) => destruct x
      | |- keeps _ (if ?x then _ else _) => destruct x
      end ].

Lemma frame_GetResolvedType recorded object :
  keeps (operations_frame recorded) (GetResolvedType graph_ object).
Proof. unfold GetResolvedType. frame. Qed.

Lemma frame_RefineTypeKnowledge recorded object new_type :
  keeps (operations_frame recorded)
    (RefineTypeKnowledge graph_ object new_type).
Proof. unfold RefineTypeKnowledge. frame. Qed.

Lemma frame_RefineTypeKnowledgeNotNull recorded object :
  keeps (operations_frame recorded) (RefineTypeKnowledgeNotNull graph_ object).
Proof. unfold RefineTypeKnowledgeNotNull. frame. Qed.

Lemma frame_ProcessPhi_loop recorded inputs i union_type :
  keeps (operations_frame recorded)
    (ProcessPhi_loop graph_ inputs i union_type).
Proof.
  revert i union_type.
  induction inputs as [|input inputs IH]; intros i union_type; simpl; frame;
    apply IH.
Qed.

Lemma frame_ProcessOperation recorded op_idx :
  op_idx ∈ recorded →
  keeps (operations_frame recorded)
    (ProcessOperation graph_ signature_ module_functions_sig_index op_idx).
Proof.
  intros Hidx.
  pose proof (frame_GetResolvedType recorded).
  pose proof (frame_RefineTypeKnowledge recorded).
  pose proof (frame_RefineTypeKnowledgeNotNull recorded).
  pose proof (frame_ProcessPhi_loop recorded).
  unfold ProcessOperation, ProcessTypeCast, ProcessTypeCheck,
    ProcessAssertNotNull, ProcessNull, ProcessIsNull, ProcessParameter,
    ProcessStructGet, ProcessStructSet, ProcessArrayLength, ProcessGlobalGet,
    ProcessRefFunc, ProcessAllocateArray, ProcessAllocateStruct,
    rtt_type_index, ProcessPhi, ProcessTypeAnnotation.
  frame; auto.
Qed.

Lemma frame_ProcessOperations_loop recorded op_indices :
  op_indices ⊆ recorded →
  keeps (operations_frame recorded)
    (ProcessOperations_loop graph_ signature_ module_functions_sig_index
       op_indices).
Proof.
  induction op_indices as [|op_idx rest IH]; intros Hsub; simpl.
  - apply (keeps_ret _ (operations_frame_refl _)).
  - apply (keeps_bind _ (operations_frame_trans _)).
    + apply frame_ProcessOperation. set_solver.
    + intros _. apply IH. set_solver.
Qed.

End OperationsFrame.

Section BlockFrame.
Context `{O : TypeOracle} `{I : AnalyzerIterator}.
Variable graph_ : Graph.
Variable signature_ : list ValueType.
Variable module_functions_sig_index : list nat.
Implicit Types (s : State) (block : Block).

Lemma keeps_weaken {A} (P Q : State → State → Prop) (c : M A) :
  (∀ s s', P s s' → Q s s') → keeps P c → keeps Q c.
Proof. intros HPQ Hc s a s' Hrun. eapply HPQ, Hc, Hrun. Qed.

Lemma start_frame_refl block s : start_frame block s s.
Proof. unfold start_frame. intros Hcur. split_and!; auto. Qed.

Lemma start_frame_trans block s1 s2 s3 :
  start_frame block s1 s2 → start_frame block s2 s3 → start_frame block s1 s3.
Proof.
  unfold start_frame. intros H12 H23 Hcur.
  destruct (H12 Hcur) as (Hcur2 & Hi & Hb & Hm & Hu).
  destruct (H23 Hcur2) as (Hcur3 & Hi' & Hb' & Hm' & Hu').
  split_and!; try congruence.
  intros b Hb0. rewrite Hu', Hu; auto.
Qed.

Lemma operations_frame_start_frame block s s' :
  operations_frame [] s s' → start_frame block s s'.
Proof.
  unfold operations_frame, start_frame.
  intros (Hc & Hf & Hi & Hb & Hp & Ha & Hu & Hm & Hr) Hcur.
  split_and!; try congruence.
  - apply map_eq. intros idx. apply Hr. set_solver.
  - intros b Hb0. split; [| set_solver].
    intros Hin. destruct (Hm b Hin) as [? | Hcur']; [done | congruence].
Qed.

Lemma operations_frame_stays_active recorded s s' :
  operations_frame recorded s s' → stays_active s s'.
Proof. unfold operations_frame, stays_active. tauto. Qed.

Lemma stays_active_refl s : stays_active s s.
Proof. unfold stays_active. auto. Qed.

Lemma stays_active_trans s1 s2 s3 :
  stays_active s1 s2 → stays_active s2 s3 → stays_active s1 s3.
Proof. unfold stays_active. auto. Qed.

Lemma start_frame_modify block (f : State → State) :
  (∀ s, current_block_ (f s) = current_block_ s) →
  (∀ s, iterator (f s) = iterator s) →
  (∀ s, block_to_snapshot_ (f s) = block_to_snapshot_ s) →
  (∀ s, input_type_map_ (f s) = input_type_map_ s) →
  (∀ s b, b ≠ index block →
          (b ∈ block_is_unreachable_ (f s) ↔ b ∈ block_is_unreachable_ s)) →
  keeps (start_frame block) (modify f).
Proof.
  intros Hc Hi Hb Hm Hu s a s' [= <- <-] Hcur.
  rewrite Hc, Hi, Hb, Hm. split_and!; auto.
Qed.

Lemma start_frame_with_table block f :
  keeps (start_frame block) (with_table f).
Proof.
  intros s a s'. unfold with_table.
  destruct (f (types_table_ s)); [| done].
  intros [= <- <-] Hcur. simpl. split_and!; auto.
Qed.

Ltac start_frame :=
  repeat first
    [ match goal with H : context [keeps] |- _ => apply H end
    | apply start_frame_with_table
    | apply start_frame_modify; [done | done | done | done | simpl; set_solver]
    | apply (keeps_bind _ (start_frame_trans _)); [| intros ?]
    | apply (keeps_ret _ (start_frame_refl _))
    | apply keeps_fail
    | apply (keeps_gets _ (start_frame_refl _))
    | apply (keeps_optional_value _ (start_frame_refl _))
    | assumption
    | match goal with
      | |- keeps _ (match ?x with _ => _ end) => destruct x
      | |- keeps _ (if ?x then _ else _) => destruct x
      | |- keeps _ (let '(_, _) := ?x in _) => destruct x
      end ].

Lemma start_frame_ProcessBranchOnTarget condition if_true if_false block :
  keeps (start_frame block)
    (ProcessBranchOnTarget graph_ condition if_true if_false block).
Proof.
  assert (∀ object, keeps (start_frame block) (GetResolvedType graph_ object))
    by (intros; eapply keeps_weaken;
        [apply operations_frame_start_frame | apply frame_GetResolvedType]).
  assert (∀ object new_type,
            keeps (start_frame block)
              (RefineTypeKnowledge graph_ object new_type))
    by (intros; eapply keeps_weaken;
        [apply operations_frame_start_frame | apply frame_RefineTypeKnowledge]).
  unfold ProcessBranchOnTarget, block_is_unreachable_Add. start_frame; auto.
Qed.

Lemma start_frame_collect_predecessors block predecessors :
  keeps (start_frame block) (collect_predecessors predecessors).
Proof.
  induction predecessors as [|p ps IH]; simpl; start_frame.
Qed.

Lemma start_frame_CreateMergeSnapshot block predecessors reachable :
  keeps (start_frame block) (CreateMergeSnapshot predecessors reachable).
Proof.
  unfold CreateMergeSnapshot. start_frame.
Qed.

Lemma start_frame_StartNewSnapshotFor block :
  keeps (start_frame block) (StartNewSnapshotFor graph_ block).
Proof.
  pose proof (start_frame_ProcessBranchOnTarget).
  pose proof (start_frame_collect_predecessors block).
  pose proof (start_frame_CreateMergeSnapshot block).
  unfold StartNewSnapshotFor, CreateMergeSnapshot_block,
    block_is_unreachable_Remove.
  start_frame; auto.
Qed.

End BlockFrame.

Section TableDiscipline.
Context `{O : TypeOracle} `{I : AnalyzerIterator}.
Variable graph_ : Graph.
Variable signature_ : list ValueType.
Variable module_functions_sig_index : list nat.
Implicit Types (s : State) (block : Block).

Lemma keeps_seq {A B} (P Q R : State → State → Prop) (c : M A) (k : A → M B) :
  (∀ s1 s2 s3, P s1 s2 → Q s2 s3 → R s1 s3) →
  keeps P c → (∀ a, keeps Q (k a)) → keeps R (bind c k).
Proof.
  intros HPQ Hc Hk s b s'. unfold bind.
  destruct (c s) as [[a s1]|] eqn:Hrun; [| done].
  intros Hrun'. eapply HPQ; [by eapply Hc | by eapply Hk].
Qed.

Lemma same_table_refl s : same_table s s.
Proof. done. Qed.

Lemma same_table_trans s1 s2 s3 :
  same_table s1 s2 → same_table s2 s3 → same_table s1 s3.
Proof. unfold same_table. congruence. Qed.

Lemma same_table_starts s1 s2 s3 :
  same_table s1 s2 → starts_snapshot s2 s3 → starts_snapshot s1 s3.
Proof. unfold same_table, starts_snapshot. intros -> ?. done. Qed.

Lemma starts_stays_active s1 s2 s3 :
  starts_snapshot s1 s2 → stays_active s2 s3 → starts_snapshot s1 s3.
Proof. unfold stays_active, starts_snapshot. intros [? ?] ?. auto. Qed.

Lemma same_table_modify (f : State → State) :
  (∀ s, types_table_ (f s) = types_table_ s) → keeps same_table (modify f).
Proof. intros Hf s a s' [= <- <-]. apply Hf. Qed.

Ltac same_table :=
  repeat first
    [ match goal with H : context [keeps] |- _ => apply H end
    | apply same_table_modify; done
    | apply (keeps_bind _ same_table_trans); [| intros ?]
    | apply (keeps_ret _ same_table_refl)
    | apply keeps_fail
    | apply (keeps_gets _ same_table_refl)
    | apply (keeps_optional_value _ same_table_refl)
    | match goal with
      | |- keeps _ (let '(_, _) := ?x in _) => destruct x
      end ].

Lemma same_table_collect_predecessors predecessors :
  keeps same_table (collect_predecessors predecessors).
Proof. induction predecessors as [|p ps IH]; simpl; same_table. Qed.

Lemma starts_with_table_empty :
  keeps starts_snapshot (with_table table_StartNewSnapshot_empty).
Proof.
  intros s a s'. unfold with_table, table_StartNewSnapshot_empty,
    table_is_sealed, starts_snapshot.
  destruct (active (types_table_ s)); [done |].
  intros [= <- <-]. simpl. eauto.
Qed.

Lemma starts_with_table_from parent :
  keeps starts_snapshot (with_table (table_StartNewSnapshot_from parent)).
Proof.
  intros s a s'. unfold with_table, table_StartNewSnapshot_from,
    table_is_sealed, starts_snapshot.
  destruct (active (types_table_ s)); [done |].
  intros [= <- <-]. simpl. eauto.
Qed.

Lemma starts_CreateMergeSnapshot (predecessors : list Snapshot)
    (reachable : list bool) :
  keeps starts_snapshot (CreateMergeSnapshot predecessors reachable).
Proof.
  intros s a s'. unfold starts_snapshot.
  destruct (active (types_table_ s)) as [m|] eqn:Hactive.
  - unfold CreateMergeSnapshot, table_StartNewSnapshot_merge, table_is_sealed.
    unfold_M. by rewrite Hactive.
  - rewrite CreateMergeSnapshot_run by done. intros [= <- <-]. simpl. eauto.
Qed.

Lemma starts_CreateMergeSnapshot_block block :
  keeps starts_snapshot (CreateMergeSnapshot_block block).
Proof.
  unfold CreateMergeSnapshot_block.
  apply (keeps_seq _ _ _ _ _ same_table_starts);
    [apply same_table_collect_predecessors |].
  intros [snapshots reachable].
  apply (keeps_seq _ _ _ _ _ starts_stays_active);
    [apply starts_CreateMergeSnapshot |].
  intros _. apply (keeps_ret _ stays_active_refl).
Qed.

Lemma stays_active_ProcessBranchOnTarget condition if_true if_false block :
  keeps stays_active
    (ProcessBranchOnTarget graph_ condition if_true if_false block).
Proof.
  assert (∀ object, keeps stays_active (GetResolvedType graph_ object))
    by (intros; eapply keeps_weaken;
        [apply (operations_frame_stays_active []) | apply frame_GetResolvedType]).
  assert (∀ object new_type,
            keeps stays_active (RefineTypeKnowledge graph_ object new_type))
    by (intros; eapply keeps_weaken;
        [apply (operations_frame_stays_active [])
        | apply frame_RefineTypeKnowledge]).
  unfold ProcessBranchOnTarget, block_is_unreachable_Add.
  repeat first
    [ match goal with H : context [keeps] |- _ => apply H end
    | apply (keeps_bind _ stays_active_trans); [| intros ?]
    | apply (keeps_ret _ stays_active_refl)
    | apply keeps_modify; intros ?; unfold stays_active; simpl; solve [auto]
    | match goal with
      | |- keeps _ (match ?x with _ => _ end) => destruct x
      | |- keeps _ (if ?x then _ else _) => destruct x
      end ].
Qed.

(** [StartNewSnapshotFor] starts a snapshot whenever it succeeds. *)
Lemma starts_StartNewSnapshotFor block :
  keeps starts_snapshot (StartNewSnapshotFor graph_ block).
Proof.
  pose proof starts_with_table_empty.
  pose proof starts_with_table_from.
  pose proof (starts_CreateMergeSnapshot_block block).
  unfold StartNewSnapshotFor, block_is_unreachable_Remove.
  apply (keeps_seq _ _ _ _ _ same_table_starts); [by same_table | intros _].
  apply (keeps_seq _ _ _ _ _ same_table_starts); [by same_table | intros _].
  destruct (negb _); [done |].
  destruct (IsLoop block).
  { apply (keeps_seq _ _ _ _ _ same_table_starts); [by same_table | intros ?].
    apply (keeps_seq _ _ _ _ _ same_table_starts); [by same_table |].
    intros [?|]; [done |].
    do 4 (apply (keeps_seq _ _ _ _ _ same_table_starts);
          [by same_table | intros ?]).
    done. }
  destruct (IsBranchTarget block); [| done].
  do 3 (apply (keeps_seq _ _ _ _ _ same_table_starts);
        [by same_table | intros ?]).
  apply (keeps_seq _ _ _ _ _ starts_stays_active); [done | intros _].
  do 2 (apply (keeps_bind _ stays_active_trans);
        [apply (keeps_optional_value _ stays_active_refl) | intros ?]).
  destruct (LastOperation _ _);
    first [ apply stays_active_ProcessBranchOnTarget
          | apply (keeps_ret _ stays_active_refl) ].
Qed.

End TableDiscipline.

Section BlockProcessing.
Context `{O : TypeOracle} `{I : AnalyzerIterator}.
Variable graph_ : Graph.
Variable signature_ : list ValueType.
Variable module_functions_sig_index : list nat.
Implicit Types (s : State) (block : Block).

Lemma bind_inv {A B} (c : M A) (k : A → M B) s b s' :
  bind c k s = Some (b, s') →
  ∃ a s1, c s = Some (a, s1) ∧ k a s1 = Some (b, s').
Proof.
  unfold bind. destruct (c s) as [[a s1]|]; [| done]. eauto.
Qed.

Lemma types_table_Seal_inv s snapshot s' :
  types_table_Seal s = Some (snapshot, s') →
  active (types_table_ s) = Some snapshot ∧
  s' = set_types_table {| active := None; merge_predecessors := [] |} s.
Proof.
  unfold_M. destruct (active (types_table_ s)); simpl; [| done].
  by intros [= <- <-].
Qed.

(** X4.  The transfer functions of the operations of a block
    ([ProcessOperations]) never clear a reachability flag and set no flag
    but that of the current block; they never seal the table, and they
    record input types for operations of the block only. *)
Theorem ProcessOperations_marks_only_current_block s block s' :
  ProcessOperations graph_ signature_ module_functions_sig_index block s =
    Some (tt, s') →
  (∀ b, IsReachable s b = false → IsReachable s' b = false) ∧
  (∀ b, current_block_ s ≠ Some b → IsReachable s' b = IsReachable s b) ∧
  current_block_ s' = current_block_ s ∧
  (is_Some (active (types_table_ s)) → is_Some (active (types_table_ s'))) ∧
  (∀ idx, idx ∉ OperationIndices block →
          input_type_map_ s' !! idx = input_type_map_ s !! idx).
Proof.
  intros Hrun.
  apply (frame_ProcessOperations_loop graph_ signature_
           module_functions_sig_index (OperationIndices block)) in Hrun;
    [| done].
  destruct Hrun as (Hc & _ & _ & _ & _ & Ha & Hu & Hm & Hr).
  unfold IsReachable. split_and!; auto.
  - intros b. rewrite !bool_decide_eq_false. set_solver.
  - intros b Hb. apply bool_decide_ext. split; intros Hn Hin; apply Hn.
    + by apply Hu.
    + by destruct (Hm b Hin).
Qed.

Lemma ProcessBlock_inv s block s' :
  ProcessBlock graph_ signature_ module_functions_sig_index block s =
    Some (tt, s') →
  ∃ s1 s2,
    let s0 := set_current_block (Some (index block)) s in
    start_frame block s0 s1 ∧ starts_snapshot s0 s1 ∧
    operations_frame (OperationIndices block) s1 s2 ∧
    s' = set_current_block None s2.
Proof.
  unfold ProcessBlock. intros Hrun.
  apply bind_inv in Hrun as ([] & s0 & [= <-] & Hrun).
  apply bind_inv in Hrun as ([] & s1 & Hstart & Hrun).
  apply bind_inv in Hrun as ([] & s2 & Hops & [= <-]).
  exists s1, s2. split_and!; [| | | done].
  - by eapply start_frame_StartNewSnapshotFor.
  - by eapply starts_StartNewSnapshotFor.
  - eapply frame_ProcessOperations_loop; [| exact Hops]. done.
Qed.

(** X5.  [ProcessBlock] succeeds only from a sealed table and leaves the
    snapshot it started active; it leaves no current block behind.  It
    never touches the recorded snapshots or the iterator, it changes the
    reachability of no block but its own, and it records input types for
    the operations of its block only. *)
Theorem ProcessBlock_frame s block s' :
  ProcessBlock graph_ signature_ module_functions_sig_index block s =
    Some (tt, s') →
  active (types_table_ s) = None ∧
  is_Some (active (types_table_ s')) ∧
  current_block_ s' = None ∧
  block_to_snapshot_ s' = block_to_snapshot_ s ∧
  iterator s' = iterator s ∧
  (∀ b, b ≠ index block → IsReachable s' b = IsReachable s b) ∧
  (∀ idx, idx ∉ OperationIndices block →
          input_type_map_ s' !! idx = input_type_map_ s !! idx).
Proof.
  intros Hrun.
  apply ProcessBlock_inv in Hrun as (s1 & s2 & Hstart & [Hs Ha] & Hops & ->).
  destruct (Hstart eq_refl) as (Hcur & Hi & Hb & Hm & Hu).
  destruct Hops as (Hc' & _ & Hi' & Hb' & _ & Ha' & Hu' & Hm' & Hr').
  simpl in *. split_and!; auto; try congruence.
  - intros b Hne. unfold IsReachable. apply bool_decide_ext.
    rewrite <- (Hu b Hne).
    split; intros Hn Hin; apply Hn.
    + by apply Hu'.
    + destruct (Hm' b Hin) as [? | Hcur']; [done | congruence].
  - intros idx Hidx. rewrite Hr' by done. by rewrite Hm.
Qed.

(** What the driver relies on after [ProcessBlock]. *)
Lemma ProcessBlock_driver s block s' :
  ProcessBlock graph_ signature_ module_functions_sig_index block s =
    Some (tt, s') →
  active (types_table_ s) = None ∧
  current_block_ s' = None ∧
  block_to_snapshot_ s' = block_to_snapshot_ s.
Proof.
  intros Hrun. pose proof Hrun as Hinv.
  apply ProcessBlock_inv in Hinv as (s1 & s2 & _ & [Hs _] & _ & ->).
  apply preserves_ProcessBlock in Hrun as [_ Hb].
  by split_and!.
Qed.

Lemma ReprocessLoopHeader_inv s loop_header s' :
  ReprocessLoopHeader graph_ signature_ module_functions_sig_index loop_header
    s = Some (tt, s') →
  active (types_table_ s') = None ∧
  current_block_ s' = None ∧
  dom (block_to_snapshot_ s) ⊆ dom (block_to_snapshot_ s') ∧
  is_Some (block_to_snapshot_ s !! index loop_header).
Proof.
  unfold ReprocessLoopHeader. intros Hrun.
  apply bind_inv in Hrun as ([] & s1 & Hblock & Hrun).
  apply ProcessBlock_driver in Hblock as (_ & Hcur & Hb).
  apply bind_inv in Hrun as (maybe_old & ? & [= <- <-] & Hrun).
  apply bind_inv in Hrun as (old_snapshot & ? & Hold & Hrun).
  destruct (block_to_snapshot_ s1 !! index loop_header) eqn:Hlookup;
    [| done].
  injection Hold as <- <-.
  apply bind_inv in Hrun as (snapshot & s2 & Hseal & Hrun).
  apply types_table_Seal_inv in Hseal as [_ ->].
  apply bind_inv in Hrun as (needs_revisit & s3 & Hmerge & Hrun).
  rewrite CreateMergeSnapshot_run in Hmerge by done.
  injection Hmerge as _ <-.
  apply bind_inv in Hrun as (? & s4 & Hseal & Hrun).
  apply types_table_Seal_inv in Hseal as [_ ->].
  rewrite <- Hb, Hlookup.
  destruct needs_revisit.
  - apply bind_inv in Hrun as ([] & ? & [= <-] & [= <-]). simpl.
    split_and!; [done | done | set_solver | eauto].
  - injection Hrun as <-. simpl. split_and!; [done | done | done | eauto].
Qed.

(** The two parts of a turn of the loop of [Run]: the block is processed,
    its snapshot sealed and recorded; then the analyzer is left as it is or
    a loop header is processed again. *)
Lemma Run_body_inv s block s' :
  Run_body graph_ signature_ module_functions_sig_index block s =
    Some (tt, s') →
  ∃ s1 snapshot,
    ProcessBlock graph_ signature_ module_functions_sig_index block s =
      Some (tt, s1) ∧
    let recorded :=
      set_block_to_snapshot
        (<[index block := snapshot]> (block_to_snapshot_ s1))
        (set_types_table {| active := None; merge_predecessors := [] |} s1) in
    s' = recorded ∨
    ∃ loop_header,
      ReprocessLoopHeader graph_ signature_ module_functions_sig_index
        loop_header recorded = Some (tt, s').
Proof.
  unfold Run_body, ProcessAndSeal. intros Hrun.
  apply bind_inv in Hrun as ([] & s3 & Hseal & Hloop).
  apply bind_inv in Hseal as ([] & s1 & Hblock & Hseal).
  apply bind_inv in Hseal as (snapshot & s2 & Hseal & [= <-]).
  apply types_table_Seal_inv in Hseal as [_ ->].
  exists s1, snapshot. split; [done |]. simpl.
  unfold ConsiderLoopReprocessing in Hloop.
  destruct (LastOperation graph_ block);
    try (injection Hloop as <-; by left).
  apply bind_inv in Hloop as (reachable & ? & [= <- <-] & Hloop).
  destruct (IsReachable _ (index block));
    [| injection Hloop as <-; by left].
  apply bind_inv in Hloop as (loop_header & ? & Hheader & Hloop).
  destruct (GetBlock graph_ destination); [| done].
  injection Hheader as <- <-.
  destruct (_ && _); [eauto | injection Hloop as <-; by left].
Qed.

(** X6.  One turn of the loop of [Run] on a block succeeds only from a
    sealed table and leaves the table sealed, with no current block; it
    records a snapshot for the block and drops no recorded snapshot. *)
Theorem Run_body_seals_and_records s block s' :
  Run_body graph_ signature_ module_functions_sig_index block s =
    Some (tt, s') →
  active (types_table_ s) = None ∧
  active (types_table_ s') = None ∧
  current_block_ s' = None ∧
  is_Some (block_to_snapshot_ s' !! index block) ∧
  dom (block_to_snapshot_ s) ⊆ dom (block_to_snapshot_ s').
Proof.
  intros (s1 & snapshot & Hblock & Hrest)%Run_body_inv.
  apply ProcessBlock_driver in Hblock as (Hsealed & Hcur & Hb).
  split; [done |].
  destruct Hrest as [-> | [loop_header Hre]]; simpl.
  - rewrite lookup_insert_eq, Hb. split_and!; [done | done | eauto |].
    set_solver.
  - apply ReprocessLoopHeader_inv in Hre as (? & ? & Hdom & _).
    simpl in Hdom. split_and!; [done | done | |].
    + apply elem_of_dom, Hdom. set_solver.
    + rewrite <- Hb. set_solver.
Qed.

Lemma iterator_Next_inv s block s' :
  iterator_Next graph_ s = Some (block, s') →
  ∃ b it',
    Next (iterator s) = Some (b, it') ∧ GetBlock graph_ b = Some block ∧
    s' = set_iterator it' s.
Proof.
  unfold iterator_Next. intros Hrun.
  apply bind_inv in Hrun as (it & ? & [= <- <-] & Hrun).
  apply bind_inv in Hrun as ([b0 it0] & ? & Hnext & Hrun).
  destruct (Next (iterator s)) as [[b it']|] eqn:Hn; [| done].
  injection Hnext as <- <- <-.
  apply bind_inv in Hrun as ([] & ? & [= <-] & Hrun).
  destruct (GetBlock graph_ b) eqn:Hblock; [| done].
  injection Hrun as <- <-. eauto.
Qed.

(** A turn of the loop of [Run] ends with a sealed table and drops no
    recorded snapshot. *)
Lemma Run_iteration_post s s' :
  Run_iteration graph_ signature_ module_functions_sig_index s =
    Some (tt, s') →
  active (types_table_ s') = None ∧
  dom (block_to_snapshot_ s) ⊆ dom (block_to_snapshot_ s').
Proof.
  unfold Run_iteration. intros Hrun.
  apply bind_inv in Hrun as (block & s0 & Hnext & Hbody).
  apply iterator_Next_inv in Hnext as (b & it' & _ & _ & ->).
  apply Run_body_inv in Hbody as (s1 & snapshot & Hblock & Hrest).
  apply ProcessBlock_driver in Hblock as (_ & _ & Hb). simpl in Hb.
  destruct Hrest as [-> | [loop_header Hre]]; simpl.
  - split; [done |]. rewrite Hb. set_solver.
  - apply ReprocessLoopHeader_inv in Hre as (? & _ & Hdom & _).
    simpl in Hdom. split; [done |]. rewrite <- Hb. set_solver.
Qed.

(** X7.  When [Run] returns, the iterator has no block left, a table that
    was sealed is sealed again, and every snapshot that was recorded for a
    block is still recorded for it, if with another value.  The bound on
    the turns of the loop takes no part in the result. *)
Theorem Run_ends_exhausted_and_sealed fuel analyzer_iterator s s' :
  Run graph_ signature_ module_functions_sig_index fuel analyzer_iterator s =
    Some (tt, s') →
  HasNext (iterator s') = false ∧
  (active (types_table_ s) = None → active (types_table_ s') = None) ∧
  dom (block_to_snapshot_ s) ⊆ dom (block_to_snapshot_ s') ∧
  ∀ fuel', fuel ≤ fuel' →
    Run graph_ signature_ module_functions_sig_index fuel' analyzer_iterator
      s = Some (tt, s').
Proof.
  unfold Run. intros Hrun.
  apply bind_inv in Hrun as ([] & s0 & [= <-] & Hrun).
  assert (∀ fuel s0 s',
            Run_loop graph_ signature_ module_functions_sig_index fuel s0 =
              Some (tt, s') →
            HasNext (iterator s') = false ∧
            (active (types_table_ s0) = None →
             active (types_table_ s') = None) ∧
            dom (block_to_snapshot_ s0) ⊆ dom (block_to_snapshot_ s') ∧
            ∀ fuel', fuel ≤ fuel' →
              Run_loop graph_ signature_ module_functions_sig_index fuel' s0 =
                Some (tt, s')) as Hloop.
  { clear. induction fuel as [|fuel IH]; intros s0 s' Hrun; [done |].
    simpl in Hrun.
    apply bind_inv in Hrun as (it & ? & [= <- <-] & Hrun).
    destruct (HasNext (iterator s0)) eqn:Hnext.
    - apply bind_inv in Hrun as ([] & s2 & Hturn & Hrest).
      destruct (Run_iteration_post _ _ Hturn) as [Hs Hdom].
      destruct (IH _ _ Hrest) as (Hend & Hs' & Hdom' & Hfuel).
      split_and!; [done | auto | set_solver |].
      intros [|fuel'] Hle; [lia |]. simpl.
      rewrite (bind_run _ _ s0 (iterator s0) s0) by done.
      rewrite Hnext. rewrite (bind_run _ _ _ _ _ Hturn).
      apply Hfuel. lia.
    - injection Hrun as <-. split_and!; [done | done | done |].
      intros [|fuel'] Hle; [lia |]. simpl.
      rewrite (bind_run _ _ s0 (iterator s0) s0) by done.
      by rewrite Hnext. }
  destruct (Hloop _ _ _ Hrun) as (Hend & Hs & Hdom & Hfuel).
  split_and!; [done | done | done |].
  intros fuel' Hle.
  rewrite (bind_run _ _ s tt (set_iterator analyzer_iterator s)) by done.
  by apply Hfuel.
Qed.

End BlockProcessing.

(** ** The transfer functions, operation by operation *)

Section Operations.
Context `{O : TypeOracle} `{I : AnalyzerIterator}.
Variable graph_ : Graph.
Variable signature_ : list ValueType.
Variable module_functions_sig_index : list nat.
Implicit Types (s : State) (m : Snapshot).

(** X8.  A type check and a null test only record the type known for
    their operand as their input type: the snapshot, the reachability flags
    and everything else stay as they are. *)
Theorem type_test_only_records_input s idx object U r m :
  Get graph_ idx = WasmTypeCheckOp object U ∨
  Get graph_ idx = IsNullOp object U →
  ResolveAliases graph_ object = Some r →
  active (types_table_ s) = Some m →
  ProcessOperation graph_ signature_ module_functions_sig_index idx s =
    Some (tt, set_input_type_map
                (<[idx := snapshot_Get m r]> (input_type_map_ s)) s).
Proof.
  intros Hop Hr Hm. unfold ProcessOperation.
  destruct Hop as [-> | ->]; unfold ProcessTypeCheck, ProcessIsNull;
    by rewrite (bind_run _ _ _ _ _ (GetResolvedType_run graph_ s object r m
                                      Hr Hm)).
Qed.

(** X9.  An operation that defines a value of a declared type (a null
    literal, a parameter of the signature, a global read, a function
    reference, an allocation) is its own key, and its transfer function
    narrows that key with the declared type and touches nothing else: a
    result without type knowledge ends with exactly the declared type, and
    no input type is recorded. *)
Theorem defining_operation_seeds_result s idx T m cur :
  declared_result_type graph_ signature_ module_functions_sig_index
    (Get graph_ idx) = Some T →
  active (types_table_ s) = Some m →
  current_block_ s = Some cur →
  let stored := refine_intersection (snapshot_Get m idx) T in
  ResolveAliases graph_ idx = Some idx ∧
  ProcessOperation graph_ signature_ module_functions_sig_index idx s =
    Some (tt, refined_state idx stored (is_uninhabited stored) cur m s) ∧
  (snapshot_Get m idx = kWasmVoid → stored = T).
Proof.
  intros Hdeclared Hm Hcur stored.
  assert (ResolveAliases graph_ idx = Some idx) as Hr.
  { apply ResolveAliases_fixed.
    by destruct (Get graph_ idx). }
  split_and!; [done | |].
  - unfold ProcessOperation.
    destruct (Get graph_ idx) eqn:Hop; simpl in Hdeclared; try done.
    + injection Hdeclared as <-. unfold ProcessNull.
      by erewrite bind_run by (by apply RefineTypeKnowledge_run).
    + unfold ProcessParameter. case_decide; [| done].
      rewrite Hdeclared. simpl.
      rewrite (bind_run _ _ s T s) by done.
      by erewrite bind_run by (by apply RefineTypeKnowledge_run).
    + injection Hdeclared as <-. unfold ProcessGlobalGet.
      by erewrite bind_run by (by apply RefineTypeKnowledge_run).
    + unfold ProcessRefFunc.
      destruct (module_functions_sig_index !! _) as [sig_index|]; [| done].
      injection Hdeclared as <-.
      rewrite (bind_run _ _ s sig_index s) by done.
      by erewrite bind_run by (by apply RefineTypeKnowledge_run).
    + unfold ProcessAllocateArray, rtt_type_index.
      destruct (Get graph_ rtt); try done.
      injection Hdeclared as <-.
      rewrite (bind_run _ _ s type_index s) by done.
      by erewrite bind_run by (by apply RefineTypeKnowledge_run).
    + unfold ProcessAllocateStruct, rtt_type_index.
      destruct (Get graph_ rtt); try done.
      injection Hdeclared as <-.
      rewrite (bind_run _ _ s type_index s) by done.
      by erewrite bind_run by (by apply RefineTypeKnowledge_run).
  - intros Hfresh. unfold stored, refine_intersection.
    by rewrite decide_True.
Qed.

Lemma null_check_run s idx object r m cur :
  Get graph_ idx = StructSetOp object ∨ Get graph_ idx = ArrayLengthOp object →
  ResolveAliases graph_ object = Some r →
  active (types_table_ s) = Some m →
  current_block_ s = Some cur →
  ProcessOperation graph_ signature_ module_functions_sig_index idx s =
    Some (tt,
          set_input_type_map
            (<[idx := snapshot_Get m r]> (input_type_map_ s))
            (refined_state r (AsNonNull (snapshot_Get m r))
               (is_uninhabited (snapshot_Get m r)) cur m s)).
Proof.
  intros Hop Hr Hm Hcur. unfold ProcessOperation.
  destruct Hop as [-> | ->]; unfold ProcessStructSet, ProcessArrayLength;
    erewrite bind_run by (by apply RefineTypeKnowledgeNotNull_run);
    unfold record_input_type, modify;
    by rewrite input_type_map_refined_state.
Qed.

(** X10.  The implicit null check of a field write or an array length is
    remembered: it records the type [T] its object had as input type and
    leaves the object with [AsNonNull T], so that the next such operation
    on the same object, reached through whatever aliases, records
    [AsNonNull T]. *)
Theorem implicit_null_check_is_remembered s idx1 idx2 object1 object2 r m
    cur :
  Get graph_ idx1 = StructSetOp object1 ∨
  Get graph_ idx1 = ArrayLengthOp object1 →
  Get graph_ idx2 = StructSetOp object2 ∨
  Get graph_ idx2 = ArrayLengthOp object2 →
  ResolveAliases graph_ object1 = Some r →
  ResolveAliases graph_ object2 = Some r →
  active (types_table_ s) = Some m →
  current_block_ s = Some cur →
  idx1 ≠ idx2 →
  let T := snapshot_Get m r in
  ∃ s',
    ProcessOperations_loop graph_ signature_ module_functions_sig_index
      [idx1; idx2] s = Some (tt, s') ∧
    input_type_map_ s' !! idx1 = Some T ∧
    input_type_map_ s' !! idx2 = Some (AsNonNull T) ∧
    table_Get r (types_table_ s') = Some (AsNonNull (AsNonNull T)).
Proof.
  intros Hop1 Hop2 Hr1 Hr2 Hm Hcur Hne T. simpl.
  erewrite bind_run by (by eapply null_check_run).
  set (s1 := set_input_type_map _ _).
  assert (active (types_table_ s1) = Some (<[r := AsNonNull T]> m)) as Hm1
    by done.
  assert (current_block_ s1 = Some cur) as Hcur1
    by exact (eq_trans (current_block_refined_state _ _ _ _ _ _) Hcur).
  erewrite bind_run by (by eapply null_check_run).
  eexists. split; [done |].
  rewrite !snapshot_Get_insert, !decide_True by done.
  subst s1. cbn [input_type_map_ set_input_type_map].
  split_and!.
  - by rewrite lookup_insert_ne, lookup_insert_eq.
  - by rewrite lookup_insert_eq.
  - unfold table_Get. simpl. unfold snapshot_Get. by rewrite lookup_insert_eq.
Qed.

End Operations.

(** ** How the snapshot of a block starts *)

Section SnapshotStart.
Context `{O : TypeOracle} `{I : AnalyzerIterator}.
Variable graph_ : Graph.
Implicit Types (s : State) (block : Block).

(** X11.  Let [target] be a block with the single predecessor [pred],
    which ends in a branch on the null test of [object], a value of
    declared type [T], and let [known] be the type of the resolved object in
    the predecessor's snapshot.  On the true target a non-nullable [known]
    marks the block unreachable and refines nothing; otherwise the object
    is refined with the null sentinel of [T].  On the false target the
    object is refined with [AsNonNull T]. *)
Theorem is_null_branch_target s target pred predecessor snapshot
    condition if_true if_false object T r :
  kind target = kBranchTarget →
  Predecessors target = [pred] →
  GetBlock graph_ pred = Some predecessor →
  LastOperation graph_ predecessor = BranchOp condition if_true if_false →
  Get graph_ condition = IsNullOp object T →
  block_to_snapshot_ s !! pred = Some snapshot →
  active (types_table_ s) = None →
  current_block_ s = Some (index target) →
  ResolveAliases graph_ object = Some r →
  let seeded := seeded_state target snapshot s in
  let known := snapshot_Get snapshot r in
  (if_true = index target → is_non_nullable known = true →
     ∃ s', StartNewSnapshotFor graph_ target s = Some (tt, s') ∧
           active (types_table_ s') = Some snapshot ∧
           IsReachable s' (index target) = false) ∧
  (if_true = index target → is_non_nullable known = false →
     let stored := refine_intersection known (ToNullSentinel T) in
     StartNewSnapshotFor graph_ target s =
       Some (tt, refined_state r stored (is_uninhabited stored) (index target)
                   snapshot seeded)) ∧
  (if_true ≠ index target →
     let stored := refine_intersection known (AsNonNull T) in
     StartNewSnapshotFor graph_ target s =
       Some (tt, refined_state r stored (is_uninhabited stored) (index target)
                   snapshot seeded)).
Proof.
  intros Hkind Hpreds Hpred Hlast Hcond Hsnap Hsealed Hcur Hr seeded known.
  rewrite (StartNewSnapshotFor_branch_target graph_ s target pred predecessor
             snapshot) by done.
  rewrite Hlast. unfold ProcessBranchOnTarget. rewrite Hcond.
  assert (GetResolvedType graph_ object seeded = Some (known, seeded))
    as Hknown by (by apply GetResolvedType_run).
  split_and!.
  - intros Htrue Hnonnull. rewrite decide_True by done.
    rewrite (bind_run _ _ _ _ _ Hknown), Hnonnull.
    eexists. split_and!; [done | done |].
    unfold IsReachable. simpl. apply bool_decide_eq_false_2. set_solver.
  - intros Htrue Hnullable. rewrite decide_True by done.
    rewrite (bind_run _ _ _ _ _ Hknown), Hnullable.
    by erewrite bind_run by (by apply RefineTypeKnowledge_run).
  - intros Hfalse. rewrite decide_False by done.
    by erewrite bind_run by (by apply RefineTypeKnowledge_run).
Qed.

(** X12.  A branch target, that is a block of kind [kBranchTarget] with
    its single predecessor, whose predecessor does not end in a branch on a
    type check or a null test starts from exactly the snapshot recorded for
    the predecessor, reachable, whatever the reachability of the
    predecessor, and changes the reachability of no other block. *)
Theorem plain_target_inherits_snapshot s target pred predecessor snapshot :
  kind target = kBranchTarget →
  Predecessors target = [pred] →
  GetBlock graph_ pred = Some predecessor →
  (∀ condition if_true if_false,
     LastOperation graph_ predecessor = BranchOp condition if_true if_false →
     ∀ object U, Get graph_ condition ≠ WasmTypeCheckOp object U ∧
                 Get graph_ condition ≠ IsNullOp object U) →
  block_to_snapshot_ s !! pred = Some snapshot →
  active (types_table_ s) = None →
  ∃ s',
    StartNewSnapshotFor graph_ target s = Some (tt, s') ∧
    active (types_table_ s') = Some snapshot ∧
    IsReachable s' (index target) = true ∧
    ∀ b, b ≠ index target → IsReachable s' b = IsReachable s b.
Proof.
  intros Hkind Hpreds Hpred Hlast Hsnap Hsealed.
  rewrite (StartNewSnapshotFor_branch_target graph_ s target pred predecessor
             snapshot) by done.
  assert (match LastOperation graph_ predecessor with
          | BranchOp condition if_true if_false =>
              ProcessBranchOnTarget graph_ condition if_true if_false target
                (seeded_state target snapshot s)
          | _ => Some (tt, seeded_state target snapshot s)
          end = Some (tt, seeded_state target snapshot s)) as ->.
  { destruct (LastOperation graph_ predecessor) eqn:Hop; try done.
    pose proof (Hlast _ _ _ eq_refl) as Hcond.
    unfold ProcessBranchOnTarget.
    destruct (Get graph_ condition) eqn:Hget; try done.
    - by destruct (Hcond object config_to) as [? _].
    - by destruct (Hcond object type) as [_ ?]. }
  eexists. split_and!; [done | done | |].
  - unfold IsReachable. simpl. apply bool_decide_eq_true_2. set_solver.
  - intros b Hb. unfold IsReachable. simpl. apply bool_decide_ext. set_solver.
Qed.

Lemma StartNewSnapshotFor_loop s header forward back :
  kind header = kLoopHeader →
  Predecessors header = [forward; back] →
  StartNewSnapshotFor graph_ header s =
    match block_to_snapshot_ s !! back with
    | Some _ => CreateMergeSnapshot_block header (reset_state header s)
    | None =>
        match block_to_snapshot_ s !! forward with
        | Some forward_edge_snap =>
            with_table (table_StartNewSnapshot_from forward_edge_snap)
              (set_is_first_loop_header_evaluation true
                 (reset_state header s))
        | None => None
        end
    end.
Proof.
  intros Hkind Hpreds.
  unfold StartNewSnapshotFor, HasPredecessors, IsLoop, LastPredecessor,
    NeighboringPredecessor_of_last.
  rewrite Hkind, Hpreds. unfold_M. simpl.
  destruct (block_to_snapshot_ s !! back); [done |]. simpl.
  by destruct (block_to_snapshot_ s !! forward).
Qed.

(** X13.  A loop header with the forward predecessor [forward] and the
    back edge from [back] starts, while no snapshot is recorded for [back],
    from the snapshot of [forward] alone, with the flag of the first
    evaluation set; once a snapshot is recorded for [back] it starts from
    the merge of the two, each taken with the reachability of its block,
    with the flag cleared.  In both cases the header is reachable. *)
Theorem loop_header_start s header forward back forward_snapshot :
  kind header = kLoopHeader →
  Predecessors header = [forward; back] →
  block_to_snapshot_ s !! forward = Some forward_snapshot →
  active (types_table_ s) = None →
  ∃ s',
    StartNewSnapshotFor graph_ header s = Some (tt, s') ∧
    IsReachable s' (index header) = true ∧
    match block_to_snapshot_ s !! back with
    | None =>
        is_first_loop_header_evaluation_ s' = true ∧
        active (types_table_ s') = Some forward_snapshot ∧
        merge_predecessors (types_table_ s') = [forward_snapshot]
    | Some back_snapshot =>
        is_first_loop_header_evaluation_ s' = false ∧
        active (types_table_ s') =
          Some (merged_snapshot [forward_snapshot; back_snapshot]
                  [IsReachable (reset_state header s) forward;
                   IsReachable (reset_state header s) back]) ∧
        merge_predecessors (types_table_ s') =
          [forward_snapshot; back_snapshot]
    end.
Proof.
  intros Hkind Hpreds Hforward Hsealed.
  rewrite (StartNewSnapshotFor_loop s header forward back) by done.
  rewrite Hforward.
  destruct (block_to_snapshot_ s !! back) as [back_snapshot|] eqn:Hback.
  - rewrite CreateMergeSnapshot_block_run; [| | done].
    2:{ rewrite Hpreds. intros p Hp. simpl.
        apply elem_of_cons in Hp as [-> | Hp]; [by rewrite Hforward |].
        apply elem_of_cons in Hp as [-> | Hp]; [by rewrite Hback |].
        by apply elem_of_nil in Hp. }
    rewrite Hpreds. eexists. split; [done |]. split.
    + unfold IsReachable. simpl. apply bool_decide_eq_true_2. set_solver.
    + simpl. unfold predecessor_input. simpl. rewrite Hforward, Hback. done.
  - unfold with_table, table_StartNewSnapshot_from, table_is_sealed. simpl.
    rewrite Hsealed. eexists. split; [done |]. split; [| done].
    unfold IsReachable. simpl. apply bool_decide_eq_true_2. set_solver.
Qed.

Lemma same_flags_refl s : same_flags s s.
Proof. done. Qed.

Lemma same_flags_trans s1 s2 s3 :
  same_flags s1 s2 → same_flags s2 s3 → same_flags s1 s3.
Proof. unfold same_flags. congruence. Qed.

Lemma same_flags_with_table f : keeps same_flags (with_table f).
Proof.
  intros s a s'. unfold with_table.
  destruct (f (types_table_ s)); [| done]. by intros [= <- <-].
Qed.

Ltac same_flags :=
  repeat first
    [ match goal with H : context [keeps] |- _ => apply H end
    | apply same_flags_with_table
    | apply keeps_modify; done
    | apply (keeps_bind _ same_flags_trans); [| intros ?]
    | apply (keeps_ret _ same_flags_refl)
    | apply keeps_fail
    | apply (keeps_gets _ same_flags_refl)
    | apply (keeps_optional_value _ same_flags_refl)
    | match goal with
      | |- keeps _ (match ?x with _ => _ end) => destruct x
      | |- keeps _ (let '(_, _) := ?x in _) => destruct x
      end ].

Lemma same_flags_collect_predecessors predecessors :
  keeps same_flags (collect_predecessors predecessors).
Proof. induction predecessors as [|p ps IH]; simpl; same_flags. Qed.

Lemma same_flags_CreateMergeSnapshot_block block :
  keeps same_flags (CreateMergeSnapshot_block block).
Proof.
  pose proof same_flags_collect_predecessors.
  unfold CreateMergeSnapshot_block, CreateMergeSnapshot. same_flags.
Qed.

(** X14.  Only a branch target can start unreachable: the entry block, a
    loop header and a merge block are reachable once their snapshot is
    started, whatever the reachability of their predecessors. *)
Theorem only_branch_targets_start_unreachable s block s' :
  StartNewSnapshotFor graph_ block s = Some (tt, s') →
  IsReachable s' (index block) = false →
  kind block = kBranchTarget ∧ Predecessors block ≠ [].
Proof.
  intros Hrun Hdead.
  cut (¬ (IsBranchTarget block = false ∨ HasPredecessors block = false)).
  { unfold IsBranchTarget, HasPredecessors.
    destruct (kind block), (Predecessors block); intros Hno;
      try (destruct Hno; auto; fail).
    done. }
  intros Hcase.
  assert (keeps same_flags
            (if negb (HasPredecessors block) then
               with_table table_StartNewSnapshot_empty
             else if IsLoop block then
               bind (optional_value (LastPredecessor block))
                 (λ last_predecessor,
                    bind (gets (λ s, block_to_snapshot_ s !! last_predecessor))
                      (λ back_edge_snap,
                         match back_edge_snap with
                         | Some _ => CreateMergeSnapshot_block block
                         | None =>
                             bind (modify
                                     (set_is_first_loop_header_evaluation true))
                               (λ _,
                                  bind (optional_value
                                          (NeighboringPredecessor_of_last
                                             block))
                                    (λ forward,
                                       bind (gets (λ s, block_to_snapshot_ s
                                                        !! forward))
                                         (λ maybe_snapshot,
                                            bind (optional_value maybe_snapshot)
                                              (λ forward_edge_snap,
                                                 with_table
                                                   (table_StartNewSnapshot_from
                                                      forward_edge_snap)))))
                         end))
             else CreateMergeSnapshot_block block)) as Hkeeps.
  { pose proof (same_flags_CreateMergeSnapshot_block block).
    destruct (negb _); [apply same_flags_with_table |].
    destruct (IsLoop block); [| done].
    same_flags. }
  unfold StartNewSnapshotFor in Hrun.
  apply bind_inv in Hrun as ([] & ? & [= <-] & Hrun).
  apply bind_inv in Hrun as ([] & ? & [= <-] & Hrun).
  assert (same_flags (reset_state block s) s') as Hflags.
  { eapply Hkeeps. unfold reset_state.
    destruct Hcase as [Hcase | Hcase]; rewrite Hcase in Hrun |- *;
      simpl in *; [| done].
    destruct (negb _); [done |]. by destruct (IsLoop block). }
  unfold IsReachable in Hdead. apply bool_decide_eq_false in Hdead.
  apply Hdead. rewrite Hflags. simpl. set_solver.
Qed.

End SnapshotStart.

(** ** Edge cases of the merge *)

Section MergeEdges.
Context `{O : TypeOracle} `{I : AnalyzerIterator}.
Implicit Types (s : State) (m : Snapshot) (l : list (bool * ValueType)).

Lemma foldl_merge_accumulate_void (types : list ValueType) :
  foldl merge_accumulate kWasmVoid types = kWasmVoid.
Proof.
  induction types as [|t types IH]; [done |]. simpl.
  unfold merge_accumulate at 2. rewrite decide_True by auto. done.
Qed.

Lemma merge_union_void (live : list ValueType) :
  kWasmVoid ∈ live → merge_union live = kWasmVoid.
Proof.
  destruct live as [|first rest]; [by intros ?%elem_of_nil |].
  simpl. intros Hin. apply elem_of_cons in Hin as [<- | Hin].
  { apply foldl_merge_accumulate_void. }
  revert first. induction rest as [|t rest IH]; intros first.
  { by apply elem_of_nil in Hin. }
  simpl. apply elem_of_cons in Hin as [<- | Hin].
  - unfold merge_accumulate at 2. rewrite decide_True by auto.
    apply foldl_merge_accumulate_void.
  - by apply IH.
Qed.

Lemma merge_live_dead (reachable : list bool) (types : list ValueType) :
  (∀ j, reachable !! j ≠ Some true) →
  merge_live (zip reachable types) = [].
Proof.
  revert types. induction reachable as [|r rs IH]; intros types Hdead;
    [done |].
  destruct types as [|t types]; [done |].
  unfold merge_live. simpl. rewrite filter_cons_False.
  2:{ simpl. intros [-> _]. by apply (Hdead 0). }
  apply IH. intros j. apply (Hdead (S j)).
Qed.

Lemma merge_live_single (reachable : list bool) (types : list ValueType) i t :
  reachable !! i = Some true →
  types !! i = Some t →
  (∀ j, j ≠ i → reachable !! j ≠ Some true) →
  merge_live (zip reachable types) =
    if decide (t = kWasmBottom) then [] else [t].
Proof.
  revert types i. induction reachable as [|r rs IH]; intros types i Hr Ht Hone;
    [done |].
  destruct types as [|t0 types]; [done |].
  destruct i as [|i]; simpl in Hr, Ht.
  - injection Hr as ->. injection Ht as ->.
    assert (merge_live (zip rs types) = []) as Hrest.
    { apply merge_live_dead. intros j. apply (Hone (S j)). done. }
    unfold merge_live in *. simpl. case_decide.
    + rewrite filter_cons_False by (simpl; tauto). done.
    + rewrite filter_cons_True by done. rewrite fmap_cons. f_equal.
      exact Hrest.
  - unfold merge_live. simpl. rewrite filter_cons_False.
    2:{ simpl. intros [-> _]. by apply (Hone 0). }
    apply (IH types i); [done | done |].
    intros j Hj. apply (Hone (S j)). congruence.
Qed.

Lemma merge_inputs_lookup (predecessors : list Snapshot)
    (reachable : list bool) key i p r :
  predecessors !! i = Some p →
  reachable !! i = Some r →
  merge_inputs predecessors reachable key !! i = Some (r, snapshot_Get p key).
Proof.
  intros Hp Hr. unfold merge_inputs.
  rewrite lookup_zip_with, Hr, list_lookup_fmap, Hp. done.
Qed.

(** X15.  No type knowledge in one reachable predecessor is no type
    knowledge after the merge: when a reachable predecessor holds no type
    for a key, the merged snapshot holds none, whatever the other
    predecessors know. *)
Theorem merge_unknown_dominates s (predecessors : list Snapshot)
    (reachable : list bool) i p key :
  kWasmVoid ≠ kWasmBottom →
  active (types_table_ s) = None →
  predecessors !! i = Some p →
  reachable !! i = Some true →
  snapshot_Get p key = kWasmVoid →
  ∃ needs_revisit s',
    CreateMergeSnapshot predecessors reachable s = Some (needs_revisit, s') ∧
    table_Get key (types_table_ s') = Some kWasmVoid.
Proof.
  intros Hvoid Hsealed Hp Hr Hkey.
  rewrite CreateMergeSnapshot_run by done.
  eexists _, _. split; [done |].
  unfold table_Get. simpl. f_equal.
  rewrite snapshot_Get_merged. case_decide; [| done].
  apply merge_union_void. unfold merge_live.
  apply list_elem_of_fmap. exists (true, kWasmVoid). split; [done |].
  apply list_elem_of_filter. split; [done |].
  apply list_elem_of_lookup. exists i.
  rewrite (merge_inputs_lookup _ _ key i p true) by done.
  by rewrite Hkey.
Qed.

Lemma key_equivalent_short (predecessors : list Snapshot)
    (reachable : list bool) :
  (∀ key, length (merge_live (merge_inputs predecessors reachable key)) ≤ 1) →
  negb (forallb (key_equivalent predecessors reachable)
          (elements (merge_keys predecessors))) = false.
Proof.
  intros Hshort. apply negb_false_iff, forallb_forall. intros key _.
  unfold key_equivalent. specialize (Hshort key).
  destruct (merge_live _) as [|first [|second rest]]; [done | done |].
  simpl in Hshort. lia.
Qed.

(** X16.  Unreachable predecessors take no part in a merge.  When exactly
    one predecessor is reachable, the merged snapshot reads as the snapshot
    of that predecessor for every key; when none is, every key of the
    merge is bottom.  In both cases the merge reports no difference. *)
Theorem merge_ignores_unreachable_predecessors s
    (predecessors : list Snapshot) (reachable : list bool) :
  active (types_table_ s) = None →
  (∀ i p,
     predecessors !! i = Some p →
     reachable !! i = Some true →
     (∀ j, j ≠ i → reachable !! j ≠ Some true) →
     ∃ s',
       CreateMergeSnapshot predecessors reachable s = Some (false, s') ∧
       ∀ key,
         table_Get key (types_table_ s') = Some (snapshot_Get p key)) ∧
  ((∀ j, reachable !! j ≠ Some true) →
     ∃ s',
       CreateMergeSnapshot predecessors reachable s = Some (false, s') ∧
       ∀ key, key ∈ merge_keys predecessors →
         table_Get key (types_table_ s') = Some kWasmBottom).
Proof.
  intros Hsealed. split.
  - intros i p Hp Hr Hone.
    assert (∀ key,
              merge_live (merge_inputs predecessors reachable key) =
                if decide (snapshot_Get p key = kWasmBottom) then []
                else [snapshot_Get p key]) as Hlive.
    { intros key. apply (merge_live_single _ _ i); [done | | done].
      by rewrite list_lookup_fmap, Hp. }
    rewrite CreateMergeSnapshot_run by done.
    rewrite key_equivalent_short
      by (intros key; rewrite Hlive; case_decide; simpl; lia).
    eexists. split; [done |].
    intros key. unfold table_Get. simpl. f_equal.
    rewrite snapshot_Get_merged. case_decide as Hkey.
    + rewrite Hlive. by case_decide.
    + unfold snapshot_Get. destruct (p !! key) eqn:Hlookup; [| done].
      destruct Hkey. apply elem_of_merge_keys. exists p.
      split; [by eapply list_elem_of_lookup_2 | eauto].
  - intros Hdead.
    assert (∀ key, merge_live (merge_inputs predecessors reachable key) = [])
      as Hlive by (intros key; by apply merge_live_dead).
    rewrite CreateMergeSnapshot_run by done.
    rewrite key_equivalent_short by (intros key; rewrite Hlive; simpl; lia).
    eexists. split; [done |].
    intros key Hkey. unfold table_Get. simpl. f_equal.
    rewrite snapshot_Get_merged, decide_True by done.
    by rewrite Hlive.
Qed.

Lemma collect_predecessors_fails s (predecessors : list nat) p :
  p ∈ predecessors →
  block_to_snapshot_ s !! p = None →
  collect_predecessors predecessors s = None.
Proof.
  intros Hp Hnone.
  induction predecessors as [|q qs IH]; [by apply elem_of_nil in Hp |].
  simpl. unfold_M.
  destruct (block_to_snapshot_ s !! q) eqn:Hq; simpl; [| done].
  apply elem_of_cons in Hp as [-> | Hp]; [congruence |].
  by rewrite IH.
Qed.

(** X17.  The merge for a block reads the recorded snapshot of every
    predecessor: when a predecessor of a merge block has none, because it
    has not been processed, the analysis does not go on. *)
Theorem merge_needs_every_predecessor_snapshot s block p :
  p ∈ Predecessors block →
  block_to_snapshot_ s !! p = None →
  CreateMergeSnapshot_block block s = None ∧
  (kind block = kMerge →
   ∀ graph_, StartNewSnapshotFor graph_ block s = None).
Proof.
  intros Hp Hnone.
  assert (∀ s0, block_to_snapshot_ s0 = block_to_snapshot_ s →
                CreateMergeSnapshot_block block s0 = None) as Hfails.
  { intros s0 Hsame. unfold CreateMergeSnapshot_block, bind.
    rewrite (collect_predecessors_fails s0 _ p); [done | | by rewrite Hsame].
    unfold PredecessorsIterable. by apply elem_of_reverse. }
  split; [by apply Hfails |].
  intros Hkind graph_.
  rewrite StartNewSnapshotFor_merge; [by apply Hfails | done |].
  intros Hnil. rewrite Hnil in Hp. by apply elem_of_nil in Hp.
Qed.

End MergeEdges.

(** * Properties of the simplification of loads and stores *)

Section LoadStore.
Import LoadStoreSimplification.
Context `{A : Assembler}.
Local Open Scope Z_scope.
Variable configuration : LoadStoreSimplificationConfiguration.
Variable kHeapObjectTag : Z.
Implicit Types (a : Access).

Lemma merge_offset_into_index_Some a :
  ∃ a', merge_offset_into_index configuration kHeapObjectTag a = Some a'.
Proof.
  unfold merge_offset_into_index.
  destruct (_ || _); [| eauto].
  destruct (index a) as [index_value|] eqn:Hindex;
    [destruct (MatchIntegralZero index_value) |];
    simpl; repeat (first [case_decide | rewrite Hindex]; simpl); eauto.
Qed.

Lemma merge_offset_into_index_post a a' :
  merge_offset_into_index configuration kHeapObjectTag a = Some a' →
  kind a' = kind a ∧ base a' = base a ∧
  ((a' = a ∧
    CanEncodeOffset configuration kHeapObjectTag (offset a)
      (tagged_base (kind a)) = true ∧
    (is_atomic (kind a) = true →
     CanEncodeAtomic (index a) (offset a) = true)) ∨
   (offset a' = 0 ∧ element_size_log2 a' = 0 ∧ is_Some (index a') ∧
    (CanEncodeOffset configuration kHeapObjectTag (offset a)
       (tagged_base (kind a)) = false ∨
     is_atomic (kind a) = true))).
Proof.
  unfold merge_offset_into_index.
  destruct (CanEncodeOffset _ _ _ _) eqn:Hoffset; simpl.
  - destruct (is_atomic (kind a)) eqn:Hatomic; simpl.
    + destruct (CanEncodeAtomic _ _) eqn:Hcan; simpl.
      { intros [= <-]. split_and!; auto. }
      destruct (index a) as [index_value|] eqn:Hindex;
        [destruct (MatchIntegralZero index_value) |];
        simpl; repeat (first [case_decide | rewrite Hindex]; simpl);
        intros [= <-]; simpl; split_and!; auto; right;
        split_and!; eauto; lia.
    + intros [= <-]. split_and!; auto. left. split_and!; auto. done.
  - destruct (index a) as [index_value|] eqn:Hindex;
      [destruct (MatchIntegralZero index_value) |];
      simpl; repeat (first [case_decide | rewrite Hindex]; simpl);
      intros [= <-]; simpl; split_and!; auto; right;
      split_and!; eauto; lia.
Qed.

Lemma SimplifyLoadStore_inv a a' :
  SimplifyLoadStore configuration kHeapObjectTag true a = Some a' →
  ∃ a1 a2,
    shift_large_element_size configuration a = Some a1 ∧
    untag_base configuration kHeapObjectTag a1 = Some a2 ∧
    merge_offset_into_index configuration kHeapObjectTag a2 = Some a'.
Proof.
  unfold SimplifyLoadStore. simpl.
  destruct (shift_large_element_size _ a) as [a1|]; [| done]. simpl.
  destruct (untag_base _ _ a1) as [a2|] eqn:Huntag; [| done]. simpl.
  intros Hmerge. by exists a1, a2.
Qed.

(** X18.  What [SimplifyLoadStore] establishes when the lowering is
    enabled: the element size is one the target supports, the base is
    untagged where the target needs it, and either the offset can be
    encoded (and, for an atomic access, not together with an index), or
    offset and element size are zero and everything is in the index, which
    is then present.  Whether the access is atomic does not change. *)
Theorem SimplifyLoadStore_makes_encodable a a' :
  0 ≤ kMaxElementSizeLog2 configuration →
  SimplifyLoadStore configuration kHeapObjectTag true a = Some a' →
  element_size_log2 a' ≤ kMaxElementSizeLog2 configuration ∧
  (kNeedsUntaggedBase configuration = true → tagged_base (kind a') = false) ∧
  is_atomic (kind a') = is_atomic (kind a) ∧
  ((CanEncodeOffset configuration kHeapObjectTag (offset a')
      (tagged_base (kind a')) = true ∧
    (is_atomic (kind a') = true →
     CanEncodeAtomic (index a') (offset a') = true)) ∨
   (offset a' = 0 ∧ element_size_log2 a' = 0 ∧ is_Some (index a'))).
Proof.
  intros Hmax (a1 & a2 & Hshift & Huntag & Hmerge)%SimplifyLoadStore_inv.
  assert (element_size_log2 a1 ≤ kMaxElementSizeLog2 configuration ∧
          kind a1 = kind a) as [Hsize1 Hkind1].
  { unfold shift_large_element_size in Hshift.
    destruct (_ <? _) eqn:Hlt.
    - destruct (index a); [| done]. by injection Hshift as <-.
    - injection Hshift as <-. split; [lia | done]. }
  assert (element_size_log2 a2 = element_size_log2 a1 ∧
          is_atomic (kind a2) = is_atomic (kind a1) ∧
          (kNeedsUntaggedBase configuration = true →
           tagged_base (kind a2) = false)) as (Hsize2 & Hatomic2 & Htag2).
  { unfold untag_base in Huntag.
    destruct (kNeedsUntaggedBase configuration); [| by injection Huntag as <-].
    destruct (tagged_base (kind a1)) eqn:Htagged;
      [| by injection Huntag as <-].
    destruct (_ <=? _); [| done]. by injection Huntag as <-. }
  apply merge_offset_into_index_post in Hmerge
    as (Hkind & _ & [(-> & Hoffset & Hatomic) | (Hoffset & Hsize & Hindex & _)]).
  - split_and!; [lia | done | congruence | by left].
  - rewrite Hkind. split_and!; [lia | done | congruence | by right].
Qed.

(** X19.  With the lowering enabled, [SimplifyLoadStore] stops only at one
    of the two [DCHECK]s of the source: an element size the target does not
    support without an index to shift, or a tagged base to untag at an
    offset from which the tag cannot be subtracted.  The index the fallback
    reads is always present. *)
Theorem SimplifyLoadStore_stops_only_at_DCHECK a :
  SimplifyLoadStore configuration kHeapObjectTag true a = None ↔
  (kMaxElementSizeLog2 configuration < element_size_log2 a ∧ index a = None) ∨
  (kNeedsUntaggedBase configuration = true ∧
   tagged_base (kind a) = true ∧
   offset a < int32_min + kHeapObjectTag).
Proof.
  unfold SimplifyLoadStore, shift_large_element_size, untag_base. simpl.
  destruct (_ <? _) eqn:Hlt; [destruct (index a) eqn:Hindex |]; simpl.
  - destruct (kNeedsUntaggedBase configuration); simpl;
      [destruct (tagged_base (kind a)); simpl;
       [destruct (_ <=? _) eqn:Hle; simpl |] |];
      try (match goal with
           | |- merge_offset_into_index _ _ ?x = None ↔ _ =>
               destruct (merge_offset_into_index_Some x) as [? ->]
           end);
      split; try done; try (intros [[_ [=]] | (? & ? & ?)]; try done; lia).
    intros _. right. split_and!; try done. lia.
  - split; [intros _; left; split; [lia | done] | done].
  - destruct (kNeedsUntaggedBase configuration); simpl;
      [destruct (tagged_base (kind a)); simpl;
       [destruct (_ <=? _) eqn:Hle; simpl |] |];
      try (match goal with
           | |- merge_offset_into_index _ _ ?x = None ↔ _ =>
               destruct (merge_offset_into_index_Some x) as [? ->]
           end);
      split; try done; try (intros [[? _] | (? & ? & ?)]; try done; lia).
    intros _. right. split_and!; try done. lia.
Qed.

(** X20.  With the lowering enabled, a configuration with
    [kMinOffset > kMaxOffset] and a heap object tag that is not negative
    merges every offset, zero included, into the index: the access that
    results has offset zero and element size zero and has an index. *)
Theorem SimplifyLoadStore_merges_every_offset a a' :
  kMaxOffset configuration < kMinOffset configuration →
  0 ≤ kHeapObjectTag →
  SimplifyLoadStore configuration kHeapObjectTag true a = Some a' →
  offset a' = 0 ∧ element_size_log2 a' = 0 ∧ is_Some (index a').
Proof.
  intros Hconfiguration Htag
    (a1 & a2 & _ & _ & Hmerge)%SimplifyLoadStore_inv.
  apply merge_offset_into_index_post in Hmerge
    as (_ & _ & [(_ & Hoffset & _) | (? & ? & ? & _)]); [| done].
  unfold CanEncodeOffset in Hoffset.
  destruct (_ && _) eqn:Hrange; [| done].
  apply andb_true_iff in Hrange as [Hmin Hmax].
  destruct (tagged_base (kind a2)); lia.
Qed.

Section Address.
Variable width : Z.
Variable value_of : V → Z.
Hypothesis semantics : word_semantics width value_of.

Local Notation "x ≡ y" := (same_word width x y) (at level 70).

Lemma same_word_refl x : x ≡ x.
Proof. done. Qed.

Lemma same_word_trans x y z : x ≡ y → y ≡ z → x ≡ z.
Proof. unfold same_word. congruence. Qed.

Lemma same_word_add x x' y y' : x ≡ x' → y ≡ y' → x + y ≡ x' + y'.
Proof.
  unfold same_word. intros Hx Hy.
  rewrite (Zplus_mod x y), (Zplus_mod x' y'). by rewrite Hx, Hy.
Qed.

Lemma same_word_mul x x' y : x ≡ x' → x * y ≡ x' * y.
Proof.
  unfold same_word. intros Hx.
  rewrite (Zmult_mod x y), (Zmult_mod x' y). by rewrite Hx.
Qed.

(** The index after the three steps of the fallback computes
    [index * 2^element_size_log2 + offset]. *)
Lemma merge_offset_into_index_address a a' :
  0 ≤ element_size_log2 a < width →
  merge_offset_into_index configuration kHeapObjectTag a = Some a' →
  address kHeapObjectTag value_of a' ≡ address kHeapObjectTag value_of a.
Proof.
  destruct semantics as (Hconst & Hadd & Hshift & _ & Hzero).
  intros Hsize Hmerge.
  pose proof (merge_offset_into_index_post _ _ Hmerge) as (Hkind & Hbase & _).
  unfold address. rewrite Hkind, Hbase.
  apply same_word_add; [| done].
  rewrite <- !Z.add_assoc. apply same_word_add; [done |].
  revert Hmerge. unfold merge_offset_into_index.
  destruct (_ || _); [| by intros [= <-]].
  destruct (index a) as [index_value|] eqn:Hindex;
    [destruct (MatchIntegralZero index_value) eqn:Hmatch |].
  - apply Hzero in Hmatch. simpl. intros [= <-]. simpl.
    rewrite Z.mul_1_r, Z.add_0_r.
    eapply same_word_trans; [apply Hconst |].
    replace (offset a) with (0 * 2 ^ element_size_log2 a + offset a) at 1
      by lia.
    apply same_word_add; [| done]. apply same_word_mul. by symmetry.
  - simpl. rewrite Hindex.
    destruct (decide (element_size_log2 a ≠ 0)) as [Hne | Heq]; simpl.
    + case_decide; simpl; intros [= <-]; simpl.
      * rewrite Z.mul_1_r, Z.add_0_r.
        eapply same_word_trans; [apply Hadd |].
        apply same_word_add; [| done]. by apply Hshift.
      * rewrite Z.mul_1_r.
        apply same_word_add; [| done]. by apply Hshift.
    + rewrite Hindex. simpl.
      assert (element_size_log2 a = 0) as Hzero_size by lia.
      case_decide; simpl; intros [= <-]; simpl.
      * rewrite Hzero_size, !Z.mul_1_r, Z.add_0_r. apply Hadd.
      * by rewrite Hindex.
  - simpl. intros [= <-]. simpl. rewrite Z.mul_1_r, Z.add_0_r.
    apply Hconst.
Qed.

(** X21.  [SimplifyLoadStore] does not change the address of the access:
    for an assembler that computes on words, the simplified base, index,
    tag, offset and element size address the same word as the given
    ones. *)
Theorem SimplifyLoadStore_keeps_address lowering_enabled_ a a' :
  0 ≤ element_size_log2 a < width →
  SimplifyLoadStore configuration kHeapObjectTag lowering_enabled_ a =
    Some a' →
  address kHeapObjectTag value_of a' ≡ address kHeapObjectTag value_of a.
Proof.
  intros Hsize. destruct lowering_enabled_; [| by intros [= <-]].
  intros (a1 & a2 & Hshift & Huntag & Hmerge)%SimplifyLoadStore_inv.
  pose proof semantics as (_ & _ & Hshl & Hcast & _).
  assert (address kHeapObjectTag value_of a1
          ≡ address kHeapObjectTag value_of a ∧
          0 ≤ element_size_log2 a1 < width) as [H1 Hsize1].
  { unfold shift_large_element_size in Hshift.
    destruct (_ <? _); [| by injection Hshift as <-].
    destruct (index a) as [index_value|] eqn:Hindex; [| done].
    injection Hshift as <-. unfold address. simpl. rewrite Hindex.
    split; [| lia].
    apply same_word_add; [| done]. apply same_word_add; [| done].
    apply same_word_add; [done |].
    rewrite Z.mul_1_r. by apply Hshl. }
  assert (address kHeapObjectTag value_of a2
          ≡ address kHeapObjectTag value_of a1 ∧
          element_size_log2 a2 = element_size_log2 a1) as [H2 Hsize2].
  { unfold untag_base in Huntag.
    destruct (kNeedsUntaggedBase configuration); [| by injection Huntag as <-].
    destruct (tagged_base (kind a1)) eqn:Htagged;
      [| by injection Huntag as <-].
    destruct (_ <=? _); [| done]. injection Huntag as <-.
    unfold address. simpl. rewrite Htagged. split; [| done].
    replace (value_of (BitcastHeapObjectToWordPtr (base a1))
             + match index a1 with
               | Some index_value =>
                   value_of index_value * 2 ^ element_size_log2 a1
               | None => 0
               end + (offset a1 - kHeapObjectTag) - 0)
      with (value_of (BitcastHeapObjectToWordPtr (base a1))
            + (match index a1 with
               | Some index_value =>
                   value_of index_value * 2 ^ element_size_log2 a1
               | None => 0
               end + offset a1 - kHeapObjectTag)) by lia.
    rewrite <- !Z.add_sub_assoc, <- !Z.add_assoc.
    apply same_word_add; [apply Hcast | done]. }
  eapply same_word_trans; [| exact H1].
  eapply same_word_trans; [| exact H2].
  apply merge_offset_into_index_address; [lia | done].
Qed.

(** X22.  For an atomic load or store of a pair of words the reducer moves
    the offset into the index: the access that results has offset zero and
    an index, and addresses the same word.  Every other atomic operation on
    a pair is passed on unchanged. *)
Theorem SimplifyAtomicWord32Pair_moves_offset (a : AtomicAccess) :
  let a' := SimplifyAtomicWord32Pair a in
  atomic_base a' = atomic_base a ∧
  atomic_kind a' = atomic_kind a ∧
  atomic_address value_of a' ≡ atomic_address value_of a ∧
  (atomic_kind a = kLoad ∨ atomic_kind a = kStore →
   atomic_offset a' = 0 ∧ is_Some (atomic_index a')) ∧
  (atomic_kind a ≠ kLoad → atomic_kind a ≠ kStore → a' = a).
Proof.
  destruct semantics as (Hconst & Hadd & _).
  assert (∀ x : AtomicAccess,
            let x' :=
              match atomic_index x with
              | None =>
                  {| atomic_base := atomic_base x;
                     atomic_index := Some (IntPtrConstant (atomic_offset x));
                     atomic_kind := atomic_kind x;
                     atomic_offset := 0 |}
              | Some index_value =>
                  if decide (atomic_offset x ≠ 0) then
                    {| atomic_base := atomic_base x;
                       atomic_index :=
                         Some (WordPtrAdd index_value (atomic_offset x));
                       atomic_kind := atomic_kind x;
                       atomic_offset := 0 |}
                  else x
              end in
            atomic_base x' = atomic_base x ∧
            atomic_kind x' = atomic_kind x ∧
            atomic_address value_of x' ≡ atomic_address value_of x ∧
            atomic_offset x' = 0 ∧ is_Some (atomic_index x')) as Hmoved.
  { clear a. intros x.
    destruct (atomic_index x) as [index_value|] eqn:Hindex; simpl.
    - case_decide; simpl.
      + unfold atomic_address. simpl. rewrite Hindex.
        split_and!; [done | done | | done | eauto].
        rewrite Z.add_0_r, <- Z.add_assoc.
        apply same_word_add; [done | apply Hadd].
      + rewrite Hindex. split_and!; [done | done | done | lia | eauto].
    - unfold atomic_address. simpl. rewrite Hindex.
      split_and!; [done | done | | done | eauto].
      rewrite Z.add_0_r, <- Z.add_assoc.
      apply same_word_add; [done |]. rewrite Z.add_0_l. apply Hconst. }
  pose proof (Hmoved a) as Hmoved_a. revert Hmoved_a.
  cbv zeta. unfold SimplifyAtomicWord32Pair.
  destruct (atomic_kind a) eqn:Hkind; intros (? & ? & ? & ? & ?);
    split_and!; try done; by intros [? | ?].
Qed.

End Address.

End LoadStore.

(** * The further properties on the examples *)

Section OnMoreExamples.
Import WasmTypes Examples MoreExamples.
#[local] Existing Instance WasmTypes.oracle.
#[local] Existing Instance LoopIterator.iterator.

(** Closes an equation between closed terms by evaluating both sides. *)
Ltac by_evaluation :=
  lazymatch goal with
  | |- ?x = ?y => vm_cast_no_check (@eq_refl _ y)
  end.

(** The cast of the parameter of [alias_graph] shares the key of the
    parameter. *)
Lemma pass_through_shares_key_witness :
  ResolveAliases alias_graph 1 = ResolveAliases alias_graph 0 ∧
  (∀ s, GetResolvedType alias_graph 1 s = GetResolvedType alias_graph 0 s) ∧
  (∀ new_type s,
     RefineTypeKnowledge alias_graph 1 new_type s =
     RefineTypeKnowledge alias_graph 0 new_type s) ∧
  (∀ s,
     RefineTypeKnowledgeNotNull alias_graph 1 s =
     RefineTypeKnowledgeNotNull alias_graph 0 s).
Proof. exact (pass_through_shares_key alias_graph 1 0 eq_refl). Defined.

(** The cast of a parameter of type [(ref null any)] to [(ref struct)]:
    the cast records [(ref null any)] and leaves [(ref struct)] for the
    cast and for the parameter. *)
Lemma cast_records_input_and_narrows_witness :
  let s := state_in_block 0 {[ 0 := kRefNull kAny ]} [] false in
  ∃ s',
    ProcessOperation alias_graph [] [] 1 s = Some (tt, s') ∧
    input_type_map_ s' !! 1 = Some (kRefNull kAny) ∧
    GetResolvedType alias_graph 1 s' = Some (kRef kStruct, s') ∧
    GetResolvedType alias_graph 0 s' = Some (kRef kStruct, s').
Proof.
  intros s.
  exact (cast_records_input_and_narrows alias_graph [] [] s 1 0 (kRef kStruct)
           0 {[ 0 := kRefNull kAny ]} 0 (or_introl eq_refl) eq_refl eq_refl
           eq_refl).
Defined.

(** The operations of the block of [alias_graph]. *)
Lemma ProcessOperations_marks_only_current_block_witness :
  (∀ b, IsReachable alias_block_start b = false →
        IsReachable alias_block_end b = false) ∧
  (∀ b, current_block_ alias_block_start ≠ Some b →
        IsReachable alias_block_end b = IsReachable alias_block_start b) ∧
  current_block_ alias_block_end = current_block_ alias_block_start ∧
  (is_Some (active (types_table_ alias_block_start)) →
   is_Some (active (types_table_ alias_block_end))) ∧
  (∀ idx, idx ∉ OperationIndices (block_of alias_graph 0) →
          input_type_map_ alias_block_end !! idx =
          input_type_map_ alias_block_start !! idx).
Proof.
  apply (ProcessOperations_marks_only_current_block alias_graph
           [kRefNull kType0] [] alias_block_start (block_of alias_graph 0)
           alias_block_end).
  by_evaluation.
Defined.

(** The first block of the branch on a type check. *)
Lemma ProcessBlock_frame_witness :
  let s := initial_state loop_traversal in
  let s' := type_check_processed_B0 in
  active (types_table_ s) = None ∧
  is_Some (active (types_table_ s')) ∧
  current_block_ s' = None ∧
  block_to_snapshot_ s' = block_to_snapshot_ s ∧
  iterator s' = iterator s ∧
  (∀ b, b ≠ 0 → IsReachable s' b = IsReachable s b) ∧
  (∀ idx, idx ∉ [0; 1; 2] →
          input_type_map_ s' !! idx = input_type_map_ s !! idx).
Proof.
  intros s s'.
  apply (ProcessBlock_frame type_check_graph [kRefNull kAny] [] s
           (block_of type_check_graph 0) s').
  by_evaluation.
Defined.

(** The turn of [Run] for the first block of the branch on a type
    check. *)
Lemma Run_body_seals_and_records_witness :
  let s := initial_state loop_traversal in
  let s' := type_check_after_B0 in
  active (types_table_ s) = None ∧
  active (types_table_ s') = None ∧
  current_block_ s' = None ∧
  is_Some (block_to_snapshot_ s' !! 0) ∧
  dom (block_to_snapshot_ s) ⊆ dom (block_to_snapshot_ s').
Proof.
  intros s s'.
  apply (Run_body_seals_and_records type_check_graph [kRefNull kAny] [] s
           (block_of type_check_graph 0) s').
  by_evaluation.
Defined.

(** [Run] on the live loop. *)
Lemma Run_ends_exhausted_and_sealed_witness :
  let s := initial_state loop_traversal in
  HasNext (iterator live_loop_end) = false ∧
  (active (types_table_ s) = None →
   active (types_table_ live_loop_end) = None) ∧
  dom (block_to_snapshot_ s) ⊆ dom (block_to_snapshot_ live_loop_end) ∧
  ∀ fuel', 6 ≤ fuel' →
    Run (I := LoopIterator.iterator) dead_loop_graph live_loop_signature []
      fuel' loop_traversal s =
      Some (tt, live_loop_end).
Proof.
  intros s.
  apply (Run_ends_exhausted_and_sealed (I := LoopIterator.iterator)
           dead_loop_graph live_loop_signature [] 6 loop_traversal s
           live_loop_end).
  by_evaluation.
Defined.

(** The type check of a parameter of type [(ref null any)]. *)
Lemma type_test_only_records_input_witness :
  let s := state_in_block 0 {[ 0 := kRefNull kAny ]} [] false in
  ProcessOperation type_check_graph [] [] 1 s =
    Some (tt, set_input_type_map
                (<[1 := kRefNull kAny]> (input_type_map_ s)) s).
Proof.
  intros s.
  exact (type_test_only_records_input type_check_graph [] [] s 1 0 (kRef kI31)
           0 {[ 0 := kRefNull kAny ]} (or_introl eq_refl) eq_refl eq_refl).
Defined.

(** The null literal of [alias_graph] is seeded with the null sentinel
    [(ref null none)]. *)
Lemma defining_operation_seeds_result_witness :
  let s := state_in_block 0 ∅ [] false in
  ResolveAliases alias_graph 5 = Some 5 ∧
  ProcessOperation alias_graph [] [] 5 s =
    Some (tt, refined_state 5 (kRefNull kNone) false 0 ∅ s) ∧
  (snapshot_Get (∅ : Snapshot) 5 = kVoid → kRefNull kNone = kRefNull kNone).
Proof.
  intros s.
  exact (defining_operation_seeds_result alias_graph [] [] s 5
           (kRefNull kNone) ∅ 0 eq_refl eq_refl eq_refl).
Defined.

(** A field write and the length of the same object through an
    annotation, for a parameter of type [(ref null $0)]. *)
Lemma implicit_null_check_is_remembered_witness :
  let s := state_in_block 0 {[ 0 := kRefNull kType0 ]} [] false in
  ∃ s',
    ProcessOperations_loop null_check_graph [] [] [1; 3] s = Some (tt, s') ∧
    input_type_map_ s' !! 1 = Some (kRefNull kType0) ∧
    input_type_map_ s' !! 3 = Some (kRef kType0) ∧
    table_Get 0 (types_table_ s') = Some (kRef kType0).
Proof.
  intros s.
  assert (1 ≠ 3) as Hne by discriminate.
  exact (implicit_null_check_is_remembered null_check_graph [] [] s 1 3 0 2 0
           {[ 0 := kRefNull kType0 ]} 0 (or_introl eq_refl)
           (or_intror eq_refl) eq_refl eq_refl eq_refl eq_refl Hne).
Defined.

(** The null branch [B2] of the dead loop: the parameter is known to be
    an [(ref i31)], so the block is marked. *)
Lemma is_null_branch_target_witness :
  is_non_nullable (snapshot_Get dead_loop_header_snapshot 0) = true ∧
  ∃ s',
    StartNewSnapshotFor dead_loop_graph (block_of dead_loop_graph 2)
      dead_loop_entering_B2 = Some (tt, s') ∧
    active (types_table_ s') = Some dead_loop_header_snapshot ∧
    IsReachable s' 2 = false.
Proof.
  split; [reflexivity |].
  apply (is_null_branch_target dead_loop_graph dead_loop_entering_B2
           (block_of dead_loop_graph 2) 1 (block_of dead_loop_graph 1)
           dead_loop_header_snapshot 3 2 3 0 (kRefNull kAny) 0);
    reflexivity.
Defined.

(** The target [B2] of the branch of the cast loop, on a value that is
    neither a type check nor a null test. *)
Lemma plain_target_inherits_snapshot_witness :
  ∃ s',
    StartNewSnapshotFor cast_loop_graph (block_of cast_loop_graph 2)
      cast_loop_at_B2 = Some (tt, s') ∧
    active (types_table_ s') = Some cast_loop_header_snapshot ∧
    IsReachable s' 2 = true ∧
    ∀ b, b ≠ 2 → IsReachable s' b = IsReachable cast_loop_at_B2 b.
Proof.
  apply (plain_target_inherits_snapshot cast_loop_graph cast_loop_at_B2
           (block_of cast_loop_graph 2) 1 (block_of cast_loop_graph 1)
           cast_loop_header_snapshot);
    [reflexivity | reflexivity | reflexivity | | reflexivity | reflexivity].
  intros condition if_true if_false [= <- <- <-] object U.
  split; discriminate.
Defined.

(** The header of the dead loop on its first visit. *)
Lemma loop_header_start_witness :
  block_to_snapshot_ dead_loop_after_B0 !! 2 = None ∧
  ∃ s',
    StartNewSnapshotFor dead_loop_graph (block_of dead_loop_graph 1)
      dead_loop_after_B0 = Some (tt, s') ∧
    IsReachable s' 1 = true ∧
    is_first_loop_header_evaluation_ s' = true ∧
    active (types_table_ s') = Some dead_loop_entry_snapshot ∧
    merge_predecessors (types_table_ s') = [dead_loop_entry_snapshot].
Proof.
  split; [reflexivity |].
  exact (loop_header_start dead_loop_graph dead_loop_after_B0
           (block_of dead_loop_graph 1) 0 2 dead_loop_entry_snapshot
           eq_refl eq_refl eq_refl eq_refl).
Defined.

(** The null branch of the dead loop starts unreachable, and is a branch
    target. *)
Lemma only_branch_targets_start_unreachable_witness :
  IsReachable dead_loop_started_B2 2 = false ∧
  kind (block_of dead_loop_graph 2) = kBranchTarget ∧
  Predecessors (block_of dead_loop_graph 2) ≠ [].
Proof.
  split; [reflexivity |].
  apply (only_branch_targets_start_unreachable dead_loop_graph
           dead_loop_entering_B2 (block_of dead_loop_graph 2)
           dead_loop_started_B2);
    [by_evaluation | reflexivity].
Defined.

(** The second of two predecessors knows nothing of value 0. *)
Lemma merge_unknown_dominates_witness :
  ∃ needs_revisit s',
    CreateMergeSnapshot phi_predecessors [true; true]
      (initial_state loop_traversal) = Some (needs_revisit, s') ∧
    table_Get 0 (types_table_ s') = Some kVoid.
Proof.
  apply (merge_unknown_dominates (initial_state loop_traversal)
           phi_predecessors [true; true] 1 {[ 1 := kRef kStruct ]} 0);
    [discriminate | reflexivity | reflexivity | reflexivity | reflexivity].
Defined.

(** Of two predecessors only the first is reachable. *)
Lemma merge_ignores_unreachable_predecessors_witness :
  ∃ s',
    CreateMergeSnapshot phi_predecessors [true; false]
      (initial_state loop_traversal) = Some (false, s') ∧
    ∀ key,
      table_Get key (types_table_ s') =
        Some (snapshot_Get ({[ 0 := kRef kI31 ]} : Snapshot) key).
Proof.
  destruct (merge_ignores_unreachable_predecessors
              (initial_state loop_traversal) phi_predecessors [true; false]
              eq_refl) as [Hone _].
  apply (Hone 0); [reflexivity | reflexivity |].
  intros [|[|j]] Hj; [done | discriminate | discriminate].
Defined.

(** A merge block before any of its predecessors is processed. *)
Lemma merge_needs_every_predecessor_snapshot_witness :
  CreateMergeSnapshot_block merge_block (initial_state loop_traversal) = None ∧
  (kind merge_block = kMerge →
   ∀ graph_,
     StartNewSnapshotFor graph_ merge_block (initial_state loop_traversal) =
       None).
Proof.
  apply (merge_needs_every_predecessor_snapshot (initial_state loop_traversal)
           merge_block 1); [| reflexivity].
  apply list_elem_of_here.
Defined.

End OnMoreExamples.

Section OnWord64.
Import LoadStoreSimplification MoreExamples.
#[local] Existing Instance Word64.assembler.
Local Open Scope Z_scope.

Lemma Word64_semantics : word_semantics 64 Word64.value_of.
Proof.
  unfold word_semantics, same_word, Word64.value_of. simpl.
  unfold Word64.wrap. split_and!.
  - intros c. apply Zmod_mod.
  - intros v c. apply Zmod_mod.
  - intros v k _. apply Zmod_mod.
  - done.
  - by intros v ->%bool_decide_eq_true.
Qed.

(** A tagged access where the base is to be untagged. *)
Lemma SimplifyLoadStore_makes_encodable_witness :
  element_size_log2 untagged_access ≤ 0 ∧
  (true = true → tagged_base (kind untagged_access) = false) ∧
  is_atomic (kind untagged_access) = is_atomic (kind tagged_access) ∧
  ((CanEncodeOffset untagged_base_configuration 1 (offset untagged_access)
      (tagged_base (kind untagged_access)) = true ∧
    (is_atomic (kind untagged_access) = true →
     CanEncodeAtomic (index untagged_access) (offset untagged_access) = true)) ∨
   (offset untagged_access = 0 ∧ element_size_log2 untagged_access = 0 ∧
    is_Some (index untagged_access))).
Proof.
  apply (SimplifyLoadStore_makes_encodable untagged_base_configuration 1
           tagged_access untagged_access); [done | reflexivity].
Defined.

Lemma SimplifyLoadStore_merges_every_offset_witness :
  offset untagged_access = 0 ∧ element_size_log2 untagged_access = 0 ∧
  is_Some (index untagged_access).
Proof.
  apply (SimplifyLoadStore_merges_every_offset untagged_base_configuration 1
           tagged_access untagged_access); [done | done | reflexivity].
Defined.

Lemma SimplifyLoadStore_keeps_address_witness :
  address 1 Word64.value_of untagged_access = 1055 ∧
  same_word 64 (address 1 Word64.value_of untagged_access)
    (address 1 Word64.value_of tagged_access).
Proof.
  split; [reflexivity |].
  apply (SimplifyLoadStore_keeps_address untagged_base_configuration 1 64
           Word64.value_of Word64_semantics true tagged_access
           untagged_access); [done | reflexivity].
Defined.

Lemma SimplifyAtomicWord32Pair_moves_offset_witness :
  let a' := SimplifyAtomicWord32Pair atomic_pair_load in
  atomic_base a' = atomic_base atomic_pair_load ∧
  atomic_kind a' = atomic_kind atomic_pair_load ∧
  same_word 64 (atomic_address Word64.value_of a')
    (atomic_address Word64.value_of atomic_pair_load) ∧
  (atomic_kind atomic_pair_load = kLoad ∨
   atomic_kind atomic_pair_load = kStore →
   atomic_offset a' = 0 ∧ is_Some (atomic_index a')) ∧
  (atomic_kind atomic_pair_load ≠ kLoad →
   atomic_kind atomic_pair_load ≠ kStore → a' = atomic_pair_load).
Proof.
  exact (SimplifyAtomicWord32Pair_moves_offset 64 Word64.value_of
           Word64_semantics atomic_pair_load).
Defined.

End OnWord64.
